(** * Influence spread with haters: the cascade simulator and the seed search

    A shallow embedding of [Praducci_simulation.py] (the round-synchronous
    cascade simulator, the loaders and the validators) and of the search
    stages of [main.py] (influence scoring, top-k selection, spreadness,
    budget sampling, Monte-Carlo greedy selection), with the properties the
    specification states about them.

    Conventions of the embedding.
    - Node identifiers are Python ints: [Z].
    - Python floats are IEEE binary64 numbers.  Where a result depends on
      rounding (the budget tests of the sampler and of the validators, the
      infection threshold of a round) the arithmetic is binary64, rounded to
      nearest even ([F64], built on [SpecFloat]).  The set-level, counting
      and ordering properties are stated on an embedding in which a float is
      the exact rational [Qc] it denotes; [float('inf')] is a constructor of
      its own there.
    - The global [random] generator is an explicit state threaded through
      every function that draws from it.
    - A raised exception is a value of [result]; [None] arguments are
      [option]s. *)

From Stdlib Require Import ZArith QArith Qcanon Lia.
From Stdlib Require Import Floats.SpecFloat.
From stdpp Require Import gmap list numbers sorting strings.

Local Open Scope Z_scope.

(** ** Numbers *)

(** The rational [a/b], used to write constants such as [0.2]. *)
Definition q (a : Z) (b : positive) : Qc := Q2Qc (a # b).

(** [int -> float] conversion. *)
Definition Qc_of_int (n : Z) : Qc := Q2Qc (inject_Z n).

(** Product of a list of factors. *)
Definition Qprod (l : list Qc) : Qc := foldr Qcmult 1%Qc l.

(** Sum of a list of terms. *)
Definition Qsum (l : list Qc) : Qc := foldr Qcplus 0%Qc l.

(** ** Binary64 floats

    A Python float: an IEEE 754 binary64 number.  The operations round to
    nearest, ties to even. *)

Module F64.

Definition float : Type := spec_float.

Definition prec : Z := 53.
Definition emax : Z := 1024.

(** [float(n)] for an int [n]. *)
Definition of_int (n : Z) : float := binary_normalize prec emax n 0 false.

Definition zero : float := S754_zero false.
Definition one : float := of_int 1.

Definition add (x y : float) : float := SFadd prec emax x y.
Definition sub (x y : float) : float := SFsub prec emax x y.
Definition mul (x y : float) : float := SFmul prec emax x y.
Definition div (x y : float) : float := SFdiv prec emax x y.

(** [x < y] on floats. *)
Definition ltb (x y : float) : bool := SFltb x y.

(** The float that the decimal literal [a/b] denotes: the quotient of two
    ints that are floats themselves, rounded once. *)
Definition ratio (a b : Z) : float := div (of_int a) (of_int b).

(** The number [m * 2^e]. *)
Definition scaled (m e : Z) : Qc :=
  Q2Qc (if bool_decide (0 ≤ e) then inject_Z (m * 2 ^ e)
        else m # Z.to_pos (2 ^ (- e))).

(** The rational a float denotes; [None] for an infinity and for NaN. *)
Definition to_Qc (x : float) : option Qc :=
  match x with
  | S754_zero _ => Some 0%Qc
  | S754_finite s m e => Some (scaled (cond_Zopp s (Z.pos m)) e)
  | S754_infinity _ | S754_nan => None
  end.

(** Comparison of a float with an int.  Python compares the two numbers
    exactly, without converting the int; NaN compares with nothing. *)
Definition compare_int (x : float) (n : Z) : option comparison :=
  match x with
  | S754_nan => None
  | S754_infinity s => Some (if s then Lt else Gt)
  | S754_zero _ => Some (0 ?= n)
  | S754_finite s m e =>
      let m := cond_Zopp s (Z.pos m) in
      Some (if bool_decide (0 ≤ e) then m * 2 ^ e ?= n else m ?= n * 2 ^ (- e))
  end.

(** [x <= n], [x == n] and [x > n] for a float [x] and an int [n]. *)
Definition le_int (x : float) (n : Z) : bool :=
  match compare_int x n with
  | Some (Lt | Eq) => true
  | _ => false
  end.
Definition eq_int (x : float) (n : Z) : bool :=
  match compare_int x n with
  | Some Eq => true
  | _ => false
  end.
Definition gt_int (x : float) (n : Z) : bool :=
  match compare_int x n with
  | Some Gt => true
  | _ => false
  end.

End F64.

(** ** Exceptions *)

Inductive exn : Set :=
  | ZeroDivisionError
  | KeyError
  | IndexError
  | NetworkXError.

Inductive result (A : Type) : Type :=
  | Ok (a : A)
  | Raise (e : exn).
Arguments Ok {A} a.
Arguments Raise {A} e.

(** ** The random source

    The generator is an oracle: an infinite sequence of raw outputs and a
    read position.  [random()] returns [k / 2^53] for a 53-bit [k], so a draw
    always lies in [[0, 1)]; [randbelow n] (used by [random.shuffle]) returns
    a number below [n].  Each call reads one raw output. *)

Module Rng.

Record t : Type := mk { draws : nat → N; pos : nat }.

Definition next (r : t) : t := mk (draws r) (S (pos r)).

Definition random (r : t) : Qc * t :=
  (Q2Qc (Z.of_N (draws r (pos r) mod 2 ^ 53) # 2 ^ 53), next r).

Definition randbelow (n : nat) (r : t) : nat * t :=
  (N.to_nat (draws r (pos r)) mod n, next r)%nat.

(** The draw that the [k]-th next call of [random()] returns. *)
Definition nth_random (r : t) (k : nat) : Qc :=
  Q2Qc (Z.of_N (draws r (pos r + k)%nat mod 2 ^ 53) # 2 ^ 53).

(** The generator after [k] more calls. *)
Definition advance (k : nat) (r : t) : t := mk (draws r) (pos r + k)%nat.

(** [random()] as the float it is: [k * 2^-53]. *)
Definition random64 (r : t) : F64.float * t :=
  (binary_normalize F64.prec F64.emax
     (Z.of_N (draws r (pos r) mod 2 ^ 53)) (-53) false, next r).

(** The float that the [k]-th next call of [random()] returns. *)
Definition nth_random64 (r : t) (k : nat) : F64.float :=
  binary_normalize F64.prec F64.emax
    (Z.of_N (draws r (pos r + k)%nat mod 2 ^ 53)) (-53) false.

(** A generator whose every raw output is [k]. *)
Definition const (k : N) : t := mk (λ _, k) 0.

End Rng.

(** ** Graphs

    A [networkx.Graph] is its adjacency dictionary in insertion order: each
    node with the list of its neighbours. *)

Definition Graph : Type := list (Z * list Z).

(** [graph.nodes()] *)
Definition nodes (g : Graph) : list Z := g.*1.

(** [node in graph] *)
Definition has_node (g : Graph) (n : Z) : bool := bool_decide (n ∈ nodes g).

(** [graph.neighbors(n)]; [None] stands for the [NetworkXError] raised on a
    node that is not in the graph. *)
Fixpoint neighbors (g : Graph) (n : Z) : option (list Z) :=
  match g with
  | [] => None
  | (m, ns) :: g' => if bool_decide (m = n) then Some ns else neighbors g' n
  end.

(** * Praducci_simulation.py *)

Definition P_BASE : Qc := q 1 5.
Definition ROUNDS : Z := 6.
Definition BUDGET : Z := 1500.

(** ** The simulator

    Weights and probabilities are exact rationals in this section: the
    properties proved on it are about which nodes can enter the influenced
    set and how many are counted, and hold whatever the thresholds round to.
    The threshold as the code computes it, in binary64, is in [Rounded]
    below. *)

Section simulate.

Variable graph : Graph.
Variable haters : gmap Z Qc.
Variable p_base : Qc.

(** [haters_set = set(haters.keys())] *)
Definition haters_set : gset Z := dom haters.

(** [{u for u in candidate_neighbors if u in influenced_nodes and u not in haters_set}] *)
Definition influencing_of (candidate_neighbors influenced_nodes : gset Z) : gset Z :=
  filter (λ u, u ∈ influenced_nodes ∧ (u ∉ haters_set)) candidate_neighbors.

(** [{a for a in candidate_neighbors if a in haters_set}] *)
Definition hater_neighbors_of (candidate_neighbors : gset Z) : gset Z :=
  filter (λ a, a ∈ haters_set) candidate_neighbors.

(** The loop [anti_influence_product *= (1.0 - haters.get(hater_node, 0.0))]. *)
Definition anti_influence_loop (hater_neighbors_of_candidate : gset Z) : Qc :=
  set_fold (λ hater_node anti_influence_product,
              anti_influence_product * (1 - default 0 (haters !! hater_node)))%Qc
           1%Qc hater_neighbors_of_candidate.

(** The loop over [influencing_neighbors]:
    [p_effective = p_base * anti_influence_product;
     prob_not_infected_by_any *= (1.0 - p_effective)]. *)
Definition not_infected_loop (anti_influence_product : Qc)
    (influencing_neighbors : gset Z) : Qc :=
  set_fold (λ _ prob_not_infected_by_any,
              let p_effective := (p_base * anti_influence_product)%Qc in
              prob_not_infected_by_any * (1 - p_effective))%Qc
           1%Qc influencing_neighbors.

(** The body of [for candidate in all_nodes_in_graph], on the state
    [(newly_influenced_this_round, generator)]. *)
Definition try_candidate (influenced_nodes : gset Z)
    (st : gset Z * Rng.t) (candidate : Z) : gset Z * Rng.t :=
  if bool_decide (candidate ∈ influenced_nodes ∨ candidate ∈ haters_set) then st
  else
    match neighbors graph candidate with
    | None => st
    | Some ns =>
        let candidate_neighbors : gset Z := list_to_set ns in
        let influencing_neighbors :=
          influencing_of candidate_neighbors influenced_nodes in
        if bool_decide (influencing_neighbors = ∅) then st
        else
          let hater_neighbors_of_candidate := hater_neighbors_of candidate_neighbors in
          let anti_influence_product := anti_influence_loop hater_neighbors_of_candidate in
          let prob_not_infected_by_any :=
            not_infected_loop anti_influence_product influencing_neighbors in
          let prob_infected := (1 - prob_not_infected_by_any)%Qc in
          let '(x, rng) := Rng.random st.2 in
          if bool_decide (x < prob_infected)%Qc
          then ({[candidate]} ∪ st.1, rng)
          else (st.1, rng)
    end.

(** The set [newly_influenced_this_round] built by one pass over all nodes. *)
Definition newly_influenced (influenced_nodes : gset Z) (rng : Rng.t)
  : gset Z * Rng.t :=
  foldl (try_candidate influenced_nodes) (∅, rng) (nodes graph).

(** One iteration of [for _ in range(1, rounds + 1)]:
    [influenced_nodes.update(newly_influenced_this_round)] after the pass. *)
Definition one_round (st : gset Z * Rng.t) : gset Z * Rng.t :=
  let '(newly_influenced_this_round, rng) := newly_influenced st.1 st.2 in
  (st.1 ∪ newly_influenced_this_round, rng).

(** The state after [n] iterations of the round loop. *)
Fixpoint rounds_loop (n : nat) (st : gset Z * Rng.t) : gset Z * Rng.t :=
  match n with
  | O => st
  | S n' => one_round (rounds_loop n' st)
  end.

(** [set(initial_influencers) - haters_set] *)
Definition initial_set (initial_influencers : list Z) : gset Z :=
  list_to_set initial_influencers ∖ haters_set.

(** [influenced_nodes] after [n] rounds of a run. *)
Definition influenced_after (initial_influencers : list Z) (rng : Rng.t)
    (n : nat) : gset Z :=
  (rounds_loop n (initial_set initial_influencers, rng)).1.

End simulate.

(** [simulate_influence(graph, initial_influencers, haters, p_base, rounds)]:
    the returned count and the generator left behind. *)
Definition simulate_influence (graph : option Graph)
    (initial_influencers : option (list Z)) (haters : option (gmap Z Qc))
    (p_base : Qc) (rounds : Z) (rng : Rng.t) : Z * Rng.t :=
  match graph, initial_influencers, haters with
  | Some g, Some init, Some h =>
      let '(influenced_nodes, rng') :=
        rounds_loop g h p_base (Z.to_nat rounds) (initial_set h init, rng) in
      (Z.of_nat (size influenced_nodes), rng')
  | _, _, _ => (0, rng)
  end.


(** ** One round in binary64

    The loop body of a round with the infection threshold computed as the
    source computes it: every product and difference is a binary64
    operation.  The language does not fix the order in which a set is
    iterated; [iter X] is the order in which the loop visits the set [X]. *)

Module Rounded.

Section simulate.

Variable graph : Graph.
Variable haters : gmap Z F64.float.
Variable p_base : F64.float.
Variable iter : gset Z → list Z.

(** [haters_set = set(haters.keys())] *)
Definition haters_set : gset Z := dom haters.

(** [{u for u in candidate_neighbors if u in influenced_nodes and u not in haters_set}] *)
Definition influencing_of (candidate_neighbors influenced_nodes : gset Z) : gset Z :=
  filter (λ u, u ∈ influenced_nodes ∧ (u ∉ haters_set)) candidate_neighbors.

(** [{a for a in candidate_neighbors if a in haters_set}] *)
Definition hater_neighbors_of (candidate_neighbors : gset Z) : gset Z :=
  filter (λ a, a ∈ haters_set) candidate_neighbors.

(** The loop [anti_influence_product *= (1.0 - haters.get(hater_node, 0.0))],
    from [anti_influence_product = 1.0]. *)
Definition anti_influence_loop (hater_neighbors_of_candidate : gset Z) : F64.float :=
  foldl (λ anti_influence_product hater_node,
           F64.mul anti_influence_product
             (F64.sub F64.one (default F64.zero (haters !! hater_node))))
        F64.one (iter hater_neighbors_of_candidate).

(** The loop over [influencing_neighbors]:
    [p_effective = p_base * anti_influence_product;
     prob_not_infected_by_any *= (1.0 - p_effective)],
    from [prob_not_infected_by_any = 1.0]. *)
Definition not_infected_loop (anti_influence_product : F64.float)
    (influencing_neighbors : gset Z) : F64.float :=
  foldl (λ prob_not_infected_by_any _,
           let p_effective := F64.mul p_base anti_influence_product in
           F64.mul prob_not_infected_by_any (F64.sub F64.one p_effective))
        F64.one (iter influencing_neighbors).

(** The body of [for candidate in all_nodes_in_graph], on the state
    [(newly_influenced_this_round, generator)]. *)
Definition try_candidate (influenced_nodes : gset Z)
    (st : gset Z * Rng.t) (candidate : Z) : gset Z * Rng.t :=
  if bool_decide (candidate ∈ influenced_nodes ∨ candidate ∈ haters_set) then st
  else
    match neighbors graph candidate with
    | None => st
    | Some ns =>
        let candidate_neighbors : gset Z := list_to_set ns in
        let influencing_neighbors :=
          influencing_of candidate_neighbors influenced_nodes in
        if bool_decide (influencing_neighbors = ∅) then st
        else
          let hater_neighbors_of_candidate := hater_neighbors_of candidate_neighbors in
          let anti_influence_product := anti_influence_loop hater_neighbors_of_candidate in
          let prob_not_infected_by_any :=
            not_infected_loop anti_influence_product influencing_neighbors in
          let prob_infected := F64.sub F64.one prob_not_infected_by_any in
          let '(x, rng) := Rng.random64 st.2 in
          if F64.ltb x prob_infected
          then ({[candidate]} ∪ st.1, rng)
          else (st.1, rng)
    end.

(** The set [newly_influenced_this_round] built by one pass over all nodes. *)
Definition newly_influenced (influenced_nodes : gset Z) (rng : Rng.t)
  : gset Z * Rng.t :=
  foldl (try_candidate influenced_nodes) (∅, rng) (nodes graph).

(** One iteration of [for _ in range(1, rounds + 1)]:
    [influenced_nodes.update(newly_influenced_this_round)] after the pass. *)
Definition one_round (st : gset Z * Rng.t) : gset Z * Rng.t :=
  let '(newly_influenced_this_round, rng) := newly_influenced st.1 st.2 in
  (st.1 ∪ newly_influenced_this_round, rng).

End simulate.

End Rounded.


(** * main.py *)

(** ** Exceptions and the generator as monads *)

Global Instance result_ret : MRet result := λ A a, Ok a.
Global Instance result_bind : MBind result := λ A B f c,
  match c with
  | Ok a => f a
  | Raise e => Raise e
  end.

(** A computation that may draw random numbers and may raise. *)
Definition M (A : Type) : Type := Rng.t → result (A * Rng.t).

Global Instance M_ret : MRet M := λ A a rng, Ok (a, rng).
Global Instance M_bind : MBind M := λ A B f c rng,
  match c rng with
  | Ok (a, rng') => f a rng'
  | Raise e => Raise e
  end.

Definition raise {A} (e : exn) : M A := λ _, Raise e.

(** A computation that only raises. *)
Definition lift_result {A} (c : result A) : M A := λ rng,
  match c with
  | Ok a => Ok (a, rng)
  | Raise e => Raise e
  end.

(** A computation that only draws. *)
Definition lift_draw {A} (f : Rng.t → A * Rng.t) : M A := λ rng, Ok (f rng).

(** A [for] loop whose body may draw and raise, threading the loop state. *)
Fixpoint for_each {A S} (body : S → A → M S) (s : S) (l : list A) : M S :=
  match l with
  | [] => mret s
  | x :: l' => s' ← body s x; for_each body s' l'
  end.

(** A [for] loop whose body may raise. *)
Fixpoint for_each_result {A S} (body : S → A → result S) (s : S) (l : list A)
  : result S :=
  match l with
  | [] => Ok s
  | x :: l' => s' ← body s x; for_each_result body s' l'
  end.

(** True division [x / n] of a number by an int. *)
Definition true_div (x : Qc) (n : Z) : result Qc :=
  if bool_decide (n = 0) then Raise ZeroDivisionError
  else Ok (x / Qc_of_int n)%Qc.

(** ** set_value *)

(** [set_value(list, index, value)]: extend with zeros up to [index], then
    [list[index] = value] (a negative index counts from the end, and raises
    when it falls before the start). *)
Definition set_value (lst : list Qc) (index : Z) (value : Qc) : result (list Qc) :=
  let lst :=
    if bool_decide (Z.of_nat (length lst) ≤ index)
    then lst ++ replicate (Z.to_nat (index + 1 - Z.of_nat (length lst))) 0%Qc
    else lst in
  let n := Z.of_nat (length lst) in
  let i := if bool_decide (index < 0) then index + n else index in
  if bool_decide (0 ≤ i < n) then Ok (<[Z.to_nat i := value]> lst)
  else Raise IndexError.

(** ** find_P_u_v and find_average_influence *)

Definition neighbors_exn (graph : Graph) (n : Z) : result (list Z) :=
  match neighbors graph n with
  | Some ns => Ok ns
  | None => Raise NetworkXError
  end.

Definition find_P_u_v (graph : Graph) (haters : gmap Z Qc) (p_base : Qc)
    (u v : Z) : result Qc :=
  friends ← neighbors_exn graph v;
  Ok (foldl (λ P_u_v friend,
               match haters !! friend with
               | Some w => (P_u_v * (1 - w))%Qc
               | None => P_u_v
               end) p_base friends).

(** [costs] is iterated only, so it is the list of its keys.  The sum and
    the mean are exact rationals here, not the rounded floats of the code. *)
Definition find_average_influence (graph : Graph) (haters : gmap Z Qc)
    (costs : list Z) (p_base : Qc) : result (list Qc) :=
  for_each_result
    (λ list_average_influence user_id,
       friends ← neighbors_exn graph user_id;
       sum_friends_influence ←
         for_each_result
           (λ sum_friends_influence friend,
              p ← find_P_u_v graph haters p_base user_id friend;
              Ok (sum_friends_influence + p)%Qc)
           0%Qc friends;
       average ← true_div sum_friends_influence (Z.of_nat (length friends));
       set_value list_average_influence user_id average)
    [] costs.

(** ** find_top_group *)

(** [a[i]] for an index produced from [range(len(a))]. *)
Definition key_at (a : list Qc) (i : nat) : Qc := default 0%Qc (a !! i).

(** An ascending index sort that keeps indices of equal values in increasing
    order ([argsort(kind='stable')]), by insertion.  numpy's default kind
    does not promise the order of equal values: what every [argsort] does
    promise is [is_argsort] below, and the properties that depend on ties
    are stated for every index order that meets it.  Stable insertion of
    index [i] (which precedes every index of [l]) into the sorted [l]. *)
Fixpoint insert_index (a : list Qc) (i : nat) (l : list nat) : list nat :=
  match l with
  | [] => [i]
  | j :: l' =>
      if bool_decide (key_at a i ≤ key_at a j)%Qc then i :: j :: l'
      else j :: insert_index a i l'
  end.

Definition argsort (a : list Qc) : list nat :=
  foldr (insert_index a) [] (seq 0 (length a)).

(** The slice [l[start:]]. *)
Definition slice_from {A} (start : Z) (l : list A) : list A :=
  let n := Z.of_nat (length l) in
  let s := if bool_decide (start < 0) then Z.max 0 (start + n) else Z.min start n in
  drop (Z.to_nat s) l.

(** [influence_array.argsort()[-size:][::-1].tolist()] *)
Definition find_top_group (size : Z) (list_average_influence : list Qc) : list Z :=
  Z.of_nat <$> reverse (slice_from (- size) (argsort list_average_influence)).

(** What numpy promises of [a.argsort()]: the indices of [a], each once, in
    an order along which the values do not decrease. *)
Definition is_argsort (a : list Qc) (order : list nat) : Prop :=
  order ≡ₚ seq 0 (length a)
  ∧ StronglySorted (λ i j, (key_at a i ≤ key_at a j)%Qc) order.

(** [order[-size:][::-1].tolist()] for the index order [order] that
    [argsort] returned. *)
Definition top_indices (size : Z) (order : list nat) : list Z :=
  Z.of_nat <$> reverse (slice_from (- size) order).

(** ** compute_spreadness *)

Inductive pyfloat : Type :=
  | Fin (x : Qc)
  | Inf.

(** Breadth-first levels from [frontier]: the depth at which [target] is
    first met, [None] when the search runs dry.  This stands for networkx's
    shortest-path search on an unweighted graph. *)
Fixpoint bfs_levels (graph : Graph) (fuel : nat) (frontier : list Z)
    (seen : gset Z) (target : Z) (depth : nat) : option nat :=
  if bool_decide (target ∈ frontier) then Some depth
  else
    match fuel with
    | O => None
    | S fuel' =>
        let reached := flat_map (λ u, default [] (neighbors graph u)) frontier in
        let next := remove_dups (filter (λ w, w ∉ seen) reached) in
        match next with
        | [] => None
        | _ => bfs_levels graph fuel' next (seen ∪ list_to_set next) target (S depth)
        end
    end.

(** [nx.shortest_path_length(graph, source=u, target=v)]; [None] is "no path". *)
Definition shortest_path_length (graph : Graph) (u v : Z) : option nat :=
  bfs_levels graph (length graph) [u] {[u]} v 0.

(** [nx.has_path(graph, u, v)]: whether the shortest-path search succeeds. *)
Definition has_path (graph : Graph) (u v : Z) : bool :=
  bool_decide (is_Some (shortest_path_length graph u v)).

(** The body of the inner loop, on the state [(total_length, count)]. *)
Definition spreadness_pair (graph : Graph) (group : list Z)
    (acc : Z * Z) (i j : nat) : Z * Z :=
  match group !! i, group !! j with
  | Some u, Some v =>
      if has_path graph u v then
        match shortest_path_length graph u v with
        | Some path_len => (acc.1 + Z.of_nat path_len, acc.2 + 1)
        | None => acc
        end
      else acc
  | _, _ => acc
  end.

Definition compute_spreadness (graph : Graph) (group : list Z) : pyfloat :=
  let group := filter (λ node, node ∈ nodes graph) group in
  let n := length group in
  if bool_decide (n < 2)%nat then Fin 0%Qc
  else
    let '(total_length, count) :=
      foldl (λ acc i,
               foldl (λ acc j, spreadness_pair graph group acc i j)
                     acc (seq (i + 1) (n - (i + 1))))
            (0, 0) (seq 0 n) in
    if bool_decide (count = 0) then Inf
    else Fin (Qc_of_int total_length / Qc_of_int count)%Qc.

(** ** sampled_possible_groups *)

(** [x[i], x[j] = x[j], x[i]] *)
Definition swap (x : list Z) (i j : nat) : list Z :=
  match x !! i, x !! j with
  | Some a, Some b => <[j := a]> (<[i := b]> x)
  | _, _ => x
  end.

(** The loop of [random.shuffle]:
    [for i in reversed(range(1, len(x))): j = randbelow(i + 1); swap]. *)
Fixpoint shuffle_from (i : nat) (x : list Z) (rng : Rng.t) : list Z * Rng.t :=
  match i with
  | O => (x, rng)
  | S i' =>
      let '(j, rng') := Rng.randbelow (i + 1) rng in
      shuffle_from i' (swap x i j) rng'
  end.

Definition shuffle (x : list Z) (rng : Rng.t) : list Z * Rng.t :=
  shuffle_from (length x - 1) x rng.

(** [sorted(group)] *)
Definition sorted (group : list Z) : list Z := merge_sort Z.le group.

(** The loop [for node in initial_group] of one attempt, from the running
    [group] and [total]: [Some t] when the attempt adds the tuple [t] to
    [valid_samples] and breaks, [None] when the loop runs to its end.  The
    costs are floats and [total] is their binary64 running sum (the int [0]
    it starts from adds as [0.0]); [budget] is the int the caller passes. *)
Fixpoint pack (costs : gmap Z F64.float) (budget : Z) (rest : list Z)
    (group : list Z) (total : F64.float) : result (option (list Z)) :=
  match rest with
  | [] => Ok None
  | node :: rest' =>
      match costs !! node with
      | None => Raise KeyError
      | Some cost =>
          let '(group, total) :=
            if F64.le_int (F64.add total cost) budget
            then (group ++ [node], F64.add total cost)
            else (group, total) in
          if F64.eq_int total budget then Ok (Some (sorted group))
          else pack costs budget rest' group total
      end
  end.

Record sampler_state : Type := mk_sampler {
  initial_group : list Z;
  valid_samples : gset (list Z);
  attempts : Z;
  generator : Rng.t
}.

(** The condition of the [while] loop. *)
Definition sampling (num_samples max_attempts : Z) (st : sampler_state) : bool :=
  bool_decide (Z.of_nat (size (valid_samples st)) < num_samples
               ∧ attempts st < max_attempts).

(** The body of the [while] loop: one shuffle and one packing. *)
Definition attempt (costs : gmap Z F64.float) (budget : Z) (st : sampler_state)
  : result sampler_state :=
  let attempts := attempts st + 1 in
  let '(initial_group, rng) := shuffle (initial_group st) (generator st) in
  match pack costs budget initial_group [] F64.zero with
  | Raise e => Raise e
  | Ok None => Ok (mk_sampler initial_group (valid_samples st) attempts rng)
  | Ok (Some t) =>
      Ok (mk_sampler initial_group ({[t]} ∪ valid_samples st) attempts rng)
  end.

(** The [while] loop.  [fuel] bounds the number of iterations the model may
    run; [None] means the fuel ran out before the loop condition failed. *)
Fixpoint sample_loop (fuel : nat) (costs : gmap Z F64.float) (budget : Z)
    (num_samples max_attempts : Z) (st : sampler_state)
  : option (result sampler_state) :=
  if sampling num_samples max_attempts st
  then
    match fuel with
    | O => None
    | S fuel' =>
        match attempt costs budget st with
        | Raise e => Some (Raise e)
        | Ok st' => sample_loop fuel' costs budget num_samples max_attempts st'
        end
    end
  else Some (Ok st).

(** The state in which [sampled_possible_groups] leaves its loop. *)
Definition sampled_possible_groups_run (fuel : nat) (initial_group : list Z)
    (costs : gmap Z F64.float) (budget : Z) (num_samples : Z) (rng : Rng.t)
  : option (result sampler_state) :=
  let max_attempts := num_samples * 100 in
  sample_loop fuel costs budget num_samples max_attempts
    (mk_sampler initial_group ∅ 0 rng).

(** [sampled_possible_groups(initial_group, costs, budget, num_samples)]:
    [[list(sample) for sample in valid_samples]].  The order in which the
    set [valid_samples] is iterated is not modelled: the groups are listed in
    some order, and no property below depends on which. *)
Definition sampled_possible_groups (fuel : nat) (initial_group : list Z)
    (costs : gmap Z F64.float) (budget : Z) (num_samples : Z) (rng : Rng.t)
  : option (result (list (list Z))) :=
  match sampled_possible_groups_run fuel initial_group costs budget num_samples rng with
  | None => None
  | Some (Raise e) => Some (Raise e)
  | Some (Ok st) => Some (Ok (elements (valid_samples st)))
  end.

(** ** average_num_tests_simulates and greedy_based_simulate *)

(** [for i in range(num_tests): total += simulate_influence(...)] *)
Fixpoint trials (n : nat) (graph : option Graph) (group : option (list Z))
    (haters : option (gmap Z Qc)) (p_base : Qc) (rounds : Z) (total : Z) : M Z :=
  match n with
  | O => mret total
  | S n' =>
      count ← lift_draw (simulate_influence graph group haters p_base rounds);
      trials n' graph group haters p_base rounds (total + count)
  end.

Definition average_num_tests_simulates (graph : option Graph)
    (group : option (list Z)) (haters : option (gmap Z Qc)) (p_base : Qc)
    (rounds : Z) (num_tests : Z) : M Qc :=
  total ← trials (Z.to_nat num_tests) graph group haters p_base rounds 0;
  lift_result (true_div (Qc_of_int total) num_tests).

(** The loop reads the module constants [P_BASE] and [ROUNDS], as the source
    does; [p_base] and [rounds] are used for the first estimate only. *)
Definition greedy_based_simulate (possible_groups : list (list Z))
    (graph : option Graph) (haters : option (gmap Z Qc)) (p_base : Qc)
    (rounds : Z) (num_tests : Z) : M (list Z) :=
  match possible_groups with
  | [] => raise IndexError
  | first :: _ =>
      average_max ←
        average_num_tests_simulates graph (Some first) haters p_base rounds num_tests;
      best ←
        for_each
          (λ (best : list Z * Qc) group,
             average ←
               average_num_tests_simulates graph (Some group) haters
                 P_BASE ROUNDS num_tests;
             if bool_decide (best.2 < average)%Qc then mret (group, average)
             else mret best)
          (first, average_max) possible_groups;
      mret best.1
  end.


(** * Notions used to state the properties *)

(** [haterWeight(a)] *)
Definition hater_weight (haters : gmap Z Qc) (a : Z) : Qc :=
  default 0%Qc (haters !! a).

(** The anti-influence factor of a node whose hater-neighbours are [H]:
    the product over [a] in [H] of [1 - haterWeight(a)]. *)
Definition dampening (haters : gmap Z Qc) (H : gset Z) : Qc :=
  Qprod ((λ a, 1 - hater_weight haters a)%Qc <$> elements H).

(** The infection probability of a node with hater-neighbours [H] and
    influencing neighbours [I]: one minus the product, over the members of
    [I], of [1 - p_base * dampening]. *)
Definition infection_probability (haters : gmap Z Qc) (p_base : Qc)
    (H I : gset Z) : Qc :=
  (1 - Qprod ((λ _, 1 - p_base * dampening haters H) <$> elements I))%Qc.

(** A node that can be infected in a round that starts from
    [influenced_nodes]: not influenced, not a hater, with an influencing
    neighbour. *)
Definition exposed (graph : Graph) (haters : gmap Z Qc)
    (influenced_nodes : gset Z) (candidate : Z) : bool :=
  bool_decide ((candidate ∉ influenced_nodes) ∧ haters !! candidate = None)
  && match neighbors graph candidate with
     | Some ns =>
         bool_decide (Exists (λ u, u ∈ influenced_nodes ∧ haters !! u = None) ns)
     | None => false
     end.

(** The same notions in binary64.  The anti-influence factor of a node whose
    hater-neighbours are visited in the order [hs]: [1.0] multiplied in turn
    by each [1.0 - haterWeight(a)]. *)
Definition dampening64 (haters : gmap Z F64.float) (hs : list Z) : F64.float :=
  foldl (λ A a, F64.mul A (F64.sub F64.one (default F64.zero (haters !! a))))
        F64.one hs.

(** The infection threshold of a node with [n] influencing neighbours:
    [1.0 - P], where [P] is [1.0] multiplied [n] times by
    [1.0 - p_base * dampening]. *)
Definition infection_threshold64 (haters : gmap Z F64.float) (p_base : F64.float)
    (hs : list Z) (n : nat) : F64.float :=
  F64.sub F64.one
    (Nat.iter n (λ P, F64.mul P (F64.sub F64.one
                                   (F64.mul p_base (dampening64 haters hs))))
       F64.one).

(** A node that can be infected in a round that starts from
    [influenced_nodes], for a hater map with float weights. *)
Definition exposed64 (graph : Graph) (haters : gmap Z F64.float)
    (influenced_nodes : gset Z) (candidate : Z) : bool :=
  bool_decide ((candidate ∉ influenced_nodes) ∧ haters !! candidate = None)
  && match neighbors graph candidate with
     | Some ns =>
         bool_decide (Exists (λ u, u ∈ influenced_nodes ∧ haters !! u = None) ns)
     | None => false
     end.

(** A small graph: node 1 joined to 2 and to 3. *)
Definition star_graph : Graph := [(1, [2; 3]); (2, [1]); (3, [1])].

(** The inputs that the failure policy of the simulator speaks of: one of the
    graph, the seed collection and the hater map is [None] or empty. *)
Definition missing_or_empty (graph : option Graph)
    (initial_influencers : option (list Z)) (haters : option (gmap Z Qc)) : Prop :=
  graph = None ∨ graph = Some []
  ∨ initial_influencers = None ∨ initial_influencers = Some []
  ∨ haters = None ∨ haters = Some ∅.

(** The score of index [i] in a score table. *)
Definition score (table : list Qc) (i : Z) : Qc := key_at table (Z.to_nat i).

(** "[i] comes before [j]" when the higher score is first and equal scores
    keep the order of the table. *)
Definition table_order (table : list Qc) (i j : Z) : Prop :=
  (score table j < score table i)%Qc ∨ (score table i = score table j ∧ i < j).

(** The top-k contract as the specification words it: at most [size] ids,
    highest score first, ties in the order of the table. *)
Definition top_group_claim (size : Z) (table : list Qc) (res : list Z) : Prop :=
  Z.of_nat (length res) ≤ size ∧ StronglySorted (table_order table) res.

(** The order [argsort] produces on indices. *)
Definition ascending (a : list Qc) (i j : nat) : Prop :=
  (key_at a i < key_at a j)%Qc ∨ (key_at a i = key_at a j ∧ (i < j)%nat).

(** All pairs [(l[i], l[j])] with [i < j]. *)
Fixpoint pairs {A} (l : list A) : list (A * A) :=
  match l with
  | [] => []
  | x :: l' => (pair x <$> l') ++ pairs l'
  end.

(** The pairs of [members] that a path connects. *)
Definition connected_pairs (graph : Graph) (members : list Z) : list (Z * Z) :=
  filter (λ p, has_path graph p.1 p.2) (pairs members).

(** The shortest-path distance of a connected pair. *)
Definition distance (graph : Graph) (p : Z * Z) : Z :=
  Z.of_nat (default 0%nat (shortest_path_length graph p.1 p.2)).

(** The spreadness score as the specification words it: restrict the group to
    the nodes of the graph; fewer than two give 0; no connected pair gives
    infinity; otherwise the mean distance over the connected pairs. *)
Definition spreadness_spec (graph : Graph) (group : list Z) : pyfloat :=
  let members := filter (λ node, node ∈ nodes graph) group in
  let connected := connected_pairs graph members in
  if bool_decide (length members < 2)%nat then Fin 0%Qc
  else if bool_decide (connected = []) then Inf
  else Fin (Qc_of_int (foldr Z.add 0%Z (distance graph <$> connected))
            / Qc_of_int (Z.of_nat (length connected)))%Qc.

(** The value a computation returns, without the generator it leaves. *)
Definition value_of {A} (r : result (A * Rng.t)) : result A :=
  match r with
  | Ok (a, _) => Ok a
  | Raise e => Raise e
  end.

(** The cost of a list of nodes as the code adds it up: the binary64 running
    sum of the costs, in the order of the list, from [0.0]. *)
Definition total_cost (costs : gmap Z F64.float) (group : list Z) : F64.float :=
  foldl (λ total node, F64.add total (default F64.zero (costs !! node)))
        F64.zero group.

(** The exact sum of the costs of a group, when all of them are finite. *)
Definition exact_cost (costs : gmap Z F64.float) (group : list Z) : option Qc :=
  foldr (λ node sum,
           c ← costs !! node ≫= F64.to_Qc; s ← sum; Some (c + s)%Qc)
        (Some 0%Qc) group.

(** A visiting order along which the running sum of the costs stays within
    the budget: after each node of the order the sum is at most the budget. *)
Definition within_budget (costs : gmap Z F64.float) (budget : Z)
    (visited : list Z) : Prop :=
  ∀ k, (0 < k ≤ length visited)%nat →
    F64.le_int (total_cost costs (take k visited)) budget = true.

(** What every sampled group satisfies: no duplicates, ascending, drawn from
    the pool, and packed to the budget: along some order of its members the
    running sum of the costs stays within the budget and ends equal to it. *)
Definition packed_group (pool : list Z) (costs : gmap Z F64.float) (budget : Z)
    (group : list Z) : Prop :=
  NoDup group ∧ Sorted Z.le group ∧ group ⊆ pool
  ∧ ∃ visited, visited ≡ₚ group
               ∧ within_budget costs budget visited
               ∧ F64.eq_int (total_cost costs visited) budget = true.

(** The update of [(total_length, count)] for one pair of members. *)
Definition add_pair (graph : Graph) (acc : Z * Z) (p : Z * Z) : Z * Z :=
  if has_path graph p.1 p.2 then (acc.1 + distance graph p, acc.2 + 1) else acc.

(** The invariant of the sampling loop: the pool is a permutation of the
    pool given, every collected group is [good], and no more groups are
    collected than were asked for. *)
Definition sampler_inv (num_samples : Z) (pool : list Z) (good : list Z → Prop)
    (st : sampler_state) : Prop :=
  initial_group st ≡ₚ pool
  ∧ (∀ t, t ∈ valid_samples st → good t)
  ∧ Z.of_nat (size (valid_samples st)) ≤ Z.max 0 num_samples.

(** What the loop guarantees when it is left from the state [st]. *)
Definition sampler_post (costs : gmap Z F64.float) (num_samples max_attempts : Z)
    (pool : list Z) (good : list Z → Prop) (st : sampler_state)
    (r : result sampler_state) : Prop :=
  match r with
  | Ok st' =>
      sampler_inv num_samples pool good st'
      ∧ attempts st ≤ attempts st' ≤ Z.max (attempts st) max_attempts
      ∧ (attempts st' < max_attempts →
         num_samples ≤ Z.of_nat (size (valid_samples st')))
  | Raise e => e = KeyError ∧ ∃ node, node ∈ pool ∧ costs !! node = None
  end.

(** The sampler state after [n] runs of the loop body from [st], whatever
    the loop condition says. *)
Fixpoint after_attempts (n : nat) (costs : gmap Z F64.float) (budget : Z)
    (st : sampler_state) : result sampler_state :=
  match n with
  | O => Ok st
  | S n' => st' ← attempt costs budget st; after_attempts n' costs budget st'
  end.

(** A cost table and a pool for examples. *)
Definition example_costs : gmap Z F64.float :=
  list_to_map [(1, F64.of_int 1); (2, F64.of_int 2); (3, F64.of_int 3);
               (4, F64.ratio 3 2)].
Definition example_rng : Rng.t := Rng.mk (λ n, N.of_nat (n * 7 + 3)) 0.

(** Three costs with one decimal that add up to 1500 as decimals, and a
    generator under which [random.shuffle] turns [[1; 2; 3]] into
    [[3; 2; 1]]. *)
Definition tight_costs : gmap Z F64.float :=
  list_to_map [(1, F64.ratio 12514 10); (2, F64.ratio 1034 10);
               (3, F64.ratio 1452 10)].
Definition reversing_rng : Rng.t := Rng.mk (λ n, N.of_nat n) 0.

(** The triangle [1 - 2 - 3 - 1] and the path [1 - 2 - 3]. *)
Definition triangle_graph : Graph := [(1, [2; 3]); (2, [1; 3]); (3, [2; 1])].
Definition path_graph : Graph := [(1, [2]); (2, [1; 3]); (3, [2])].

(** Two nodes without an edge. *)
Definition apart_graph : Graph := [(1, []); (2, [])].

(** The one-hop transmission probability towards [v]: [p_base] times the
    product of [1 - haterWeight(a)] over the hater-neighbours [a] of [v]. *)
Definition one_hop (graph : Graph) (haters : gmap Z Qc) (p_base : Qc) (v : Z) : Qc :=
  (p_base
   * Qprod ((λ a, 1 - hater_weight haters a)
              <$> filter (λ a, is_Some (haters !! a)) (default [] (neighbors graph v))))%Qc.

(** * Further notions used to state properties *)

(** The score of a candidate [u]: the mean, over the neighbours [v] of [u],
    of the one-hop transmission probability towards [v]. *)
Definition average_influence (graph : Graph) (haters : gmap Z Qc) (p_base : Qc)
    (u : Z) : Qc :=
  match neighbors graph u with
  | Some friends =>
      (Qsum (one_hop graph haters p_base <$> friends)
       / Qc_of_int (Z.of_nat (length friends)))%Qc
  | None => 0%Qc
  end.

(** A candidate that [find_average_influence] can score: a non-negative id
    with at least one neighbour, all of whose neighbours are nodes. *)
Definition scorable (graph : Graph) (u : Z) : Prop :=
  0 ≤ u
  ∧ ∃ friends, neighbors graph u = Some friends ∧ friends ≠ []
               ∧ Forall (λ v, is_Some (neighbors graph v)) friends.

(** * main.py: the degree filter *)

(** [len(list(graph.neighbors(node)))] for a node of the graph. *)
Definition degree (graph : Graph) (node : Z) : Z :=
  Z.of_nat (length (default [] (neighbors graph node))).

(** [average_neighbors_in_costs_nodes(graph, costs)]; [costs] is iterated
    only, so it is the list of its keys, and the result [None] is Python's
    [None]. *)
Definition average_neighbors_in_costs_nodes (graph : option Graph)
    (costs : option (list Z)) : option Qc :=
  match graph, costs with
  | Some g, Some cs =>
      let '(total_neighbors, count) :=
        foldl (λ (acc : Z * Z) node,
                 if has_node g node then (acc.1 + degree g node, acc.2 + 1)
                 else acc)
              (0, 0) cs in
      if bool_decide (count = 0) then Some 0%Qc
      else Some (Qc_of_int total_neighbors / Qc_of_int count)%Qc
  | _, _ => None
  end.

(** [filter_high_degree_nodes(graph, costs, average)] *)
Definition filter_high_degree_nodes (graph : option Graph)
    (costs : option (list Z)) (average : Qc) : list Z :=
  match graph, costs with
  | Some g, Some cs =>
      foldl (λ high_degree_nodes node,
               if has_node g node && bool_decide (average ≤ Qc_of_int (degree g node))%Qc
               then high_degree_nodes ++ [node]
               else high_degree_nodes)
            [] cs
  | _, _ => []
  end.

(** * main.py: the two ranking stages *)

(** [x <= y] on floats, with [float('inf')] above every number. *)
Definition pyfloat_le (x y : pyfloat) : bool :=
  match x, y with
  | _, Inf => true
  | Inf, Fin _ => false
  | Fin a, Fin b => bool_decide (a ≤ b)%Qc
  end.

Definition Qc_le (x y : Qc) : bool := bool_decide (x ≤ y)%Qc.

(** [l.sort(key=key, reverse=True)]: Python's sort is stable also when
    reversed, so entries with equal keys keep their order.  Stable insertion
    of [x], which precedes every entry of the sorted [l]. *)
Fixpoint insert_desc {A K} (le : K → K → bool) (key : A → K) (x : A) (l : list A)
  : list A :=
  match l with
  | [] => [x]
  | y :: l' =>
      if le (key y) (key x) then x :: y :: l'
      else y :: insert_desc le key x l'
  end.

Definition sort_desc {A K} (le : K → K → bool) (key : A → K) (l : list A) : list A :=
  foldr (insert_desc le key) [] l.

(** The slice [l[:stop]]. *)
Definition slice_to {A} (stop : Z) (l : list A) : list A :=
  let n := Z.of_nat (length l) in
  let e := if bool_decide (stop < 0) then Z.max 0 (stop + n) else Z.min stop n in
  take (Z.to_nat e) l.

(** [top_spreadness(valid_groups, graph, compute_spreadness, k)]; the scorer
    is an argument, as in the source. *)
Definition top_spreadness (valid_groups : list (list Z)) (graph : Graph)
    (compute_spreadness : Graph → list Z → pyfloat) (k : Z) : list (list Z) :=
  let scored := (λ group, (group, compute_spreadness graph group)) <$> valid_groups in
  let scored := sort_desc pyfloat_le snd scored in
  fst <$> slice_to k scored.

(** [l[i]], with Python's negative indices and [IndexError]. *)
Definition list_index {A} (l : list A) (i : Z) : result A :=
  let n := Z.of_nat (length l) in
  let j := if bool_decide (i < 0) then i + n else i in
  match l !! Z.to_nat j with
  | Some x => if bool_decide (0 ≤ j) then Ok x else Raise IndexError
  | None => Raise IndexError
  end.

(** [sum(influence_per_node[node] for node in group if node in influence_per_node)].
    [influence_per_node] is the list [find_average_influence] returns, so
    [node in influence_per_node] asks whether some entry of the list equals
    the number [node]. *)
Definition group_influence_sum (influence_per_node : list Qc) (group : list Z)
  : result Qc :=
  for_each_result
    (λ acc node,
       if bool_decide (Qc_of_int node ∈ influence_per_node)
       then x ← list_index influence_per_node node; Ok (acc + x)%Qc
       else Ok acc)
    0%Qc group.

(** [top_sum_influence(list_groups, influence_per_node, t)] *)
Definition top_sum_influence (list_groups : list (list Z))
    (influence_per_node : list Qc) (t : Z) : result (list (list Z)) :=
  group_influence_sums ←
    for_each_result
      (λ group_influence_sums group,
         group_sum ← group_influence_sum influence_per_node group;
         Ok (group_influence_sums ++ [(group, group_sum)]))
      [] list_groups;
  Ok (fst <$> slice_to t (sort_desc Qc_le snd group_influence_sums)).

(** * Praducci_simulation.py: building the graph

    [read_graph] hands the rows of the friendship file to
    [nx.from_pandas_edgelist(df, source='user', target='friend')], which adds
    one edge per row with [Graph.add_edge].  The rows are taken as already
    parsed pairs of ids. *)

(** [if n not in self._node: self._adj[n] = {}] *)
Definition add_node (g : Graph) (n : Z) : Graph :=
  if has_node g n then g else g ++ [(n, [])].

(** [self._adj[u][v] = datadict]: a new key goes last, an old one stays. *)
Definition add_neighbor (g : Graph) (u v : Z) : Graph :=
  (λ entry : Z * list Z,
     if bool_decide (entry.1 = u)
     then (entry.1, if bool_decide (v ∈ entry.2) then entry.2 else entry.2 ++ [v])
     else entry) <$> g.

(** [Graph.add_edge(u, v)] *)
Definition add_edge (g : Graph) (u v : Z) : Graph :=
  let g := add_node g u in
  let g := add_node g v in
  let g := add_neighbor g u v in
  add_neighbor g v u.

Definition from_edgelist (edges : list (Z * Z)) : Graph :=
  foldl (λ g edge, add_edge g edge.1 edge.2) [] edges.

(** [read_graph(filename)]: [None] when the file cannot be read. *)
Definition read_graph (rows : option (list (Z * Z))) : option Graph :=
  from_edgelist <$> rows.

(** The invariant of a graph built from the edges [edges]: its nodes are the
    endpoints, without repetition, and [v] is a neighbour of [u] exactly when
    an edge joins them. *)
Definition built_from (edges : list (Z * Z)) (g : Graph) : Prop :=
  NoDup (nodes g)
  ∧ (∀ m, m ∈ nodes g ↔ ∃ e, e ∈ edges ∧ (e.1 = m ∨ e.2 = m))
  ∧ (∀ u ns, neighbors g u = Some ns →
       NoDup ns ∧ ∀ v, v ∈ ns ↔ (u, v) ∈ edges ∨ (v, u) ∈ edges).

(** * Praducci_simulation.py: loading and validating

    A file is the list of rows that [csv.reader] yields, [None] when it
    cannot be opened.  Python's [int], [float] and [str] are parameters:
    [parse_int s = None] stands for the [ValueError] of [int(s)]. *)

Section csv.

Variable parse_int : string → option Z.
Variable parse_float : string → option Qc.
Variable show_int : Z → string.

(** The loop [for row in reader] of [read_haters] and of [read_costs]:
    [table[int(row[0])] = float(row[1])]; [None] is any exception, which the
    function turns into [return None]. *)
Fixpoint read_id_value_rows (rows : list (list string)) (table : gmap Z Qc)
  : option (gmap Z Qc) :=
  match rows with
  | [] => Some table
  | row :: rows' =>
      match row with
      | cell0 :: cell1 :: _ =>
          match parse_int cell0, parse_float cell1 with
          | Some user_id, Some value =>
              read_id_value_rows rows' (<[user_id := value]> table)
          | _, _ => None
          end
      | _ => None
      end
  end.

(** [read_haters(filename)]: the header row is skipped ([next(reader)], which
    fails on an empty file). *)
Definition read_haters (file : option (list (list string))) : option (gmap Z Qc) :=
  match file with
  | Some (header :: rows) => read_id_value_rows rows ∅
  | _ => None
  end.

(** [read_costs(filename)] *)
Definition read_costs (file : option (list (list string))) : option (gmap Z Qc) :=
  match file with
  | Some (header :: rows) => read_id_value_rows rows ∅
  | _ => None
  end.

(** The loop [for i, row in enumerate(reader)] of
    [read_influencers_from_csv], on [(selected_influencers, seen_ids,
    total_cost)]; [None] is [return None].  [total_cost] is the binary64
    running sum of the costs (the int [0] it starts from adds as [0.0]); of
    the hater map only the keys are read. *)
Fixpoint read_influencer_rows (rows : list (list string))
    (costs : gmap Z F64.float) (haters : gmap Z Qc)
    (selected_influencers : list Z) (seen_ids : gset Z) (total_cost : F64.float)
  : option (list Z * F64.float) :=
  match rows with
  | [] => Some (selected_influencers, total_cost)
  | row :: rows' =>
      match row with
      | [cell] =>
          match parse_int cell with
          | Some user_id =>
              if bool_decide (costs !! user_id = None) then None
              else if bool_decide (is_Some (haters !! user_id)) then None
              else if bool_decide (user_id ∈ seen_ids) then None
              else
                read_influencer_rows rows' costs haters
                  (selected_influencers ++ [user_id]) ({[user_id]} ∪ seen_ids)
                  (F64.add total_cost (default F64.zero (costs !! user_id)))
          | None => None
          end
      | _ => None
      end
  end.

Definition read_influencers_from_csv (file : option (list (list string)))
    (costs : gmap Z F64.float) (haters : gmap Z Qc) : option (list Z) :=
  match file with
  | Some (header :: rows) =>
      if bool_decide (header ≠ ["user_id"]) then None
      else
        match read_influencer_rows rows costs haters [] ∅ F64.zero with
        | Some (selected_influencers, total_cost) =>
            if F64.gt_int total_cost BUDGET then None
            else Some selected_influencers
        | None => None
        end
  | _ => None
  end.

(** The validation loop of [submit_influencers] on [(seen_influencers,
    total_cost)]; [None] is [return False]. *)
Fixpoint submit_check (influencer_list : list Z)
    (costs : gmap Z F64.float) (haters : gmap Z Qc)
    (seen_influencers : gset Z) (total_cost : F64.float) : option F64.float :=
  match influencer_list with
  | [] => Some total_cost
  | influencer :: rest =>
      match costs !! influencer with
      | None => None
      | Some cost =>
          if bool_decide (is_Some (haters !! influencer)) then None
          else if bool_decide (influencer ∈ seen_influencers) then None
          else submit_check rest costs haters ({[influencer]} ∪ seen_influencers)
                 (F64.add total_cost cost)
      end
  end.

(** [submit_influencers(influencer_list, id1, id2, costs, haters, filename)]
    for a list of ints and two strings.  [Some (name, rows)] is [return True]
    after writing the rows to the file [name] (the write itself is taken to
    succeed); [None] is [return False]. *)
Definition submit_influencers (influencer_list : list Z) (id1 id2 : string)
    (costs : gmap Z F64.float) (haters : gmap Z Qc) (filename : option string)
  : option (string * list (list string)) :=
  let filename :=
    match filename with
    | None => id1 +:+ "_" +:+ id2 +:+ ".csv"
    | Some name => name
    end in
  if bool_decide (id1 = EmptyString ∨ id2 = EmptyString) then None
  else
    match submit_check influencer_list costs haters ∅ F64.zero with
    | None => None
    | Some total_cost =>
        if F64.gt_int total_cost BUDGET then None
        else Some (filename,
                   ["user_id"] :: ((λ influencer, [show_int influencer])
                                     <$> sorted influencer_list))
    end.

End csv.

(** An [int]/[str] pair for examples: it knows the numbers 1 to 3. *)
Definition parse_small (s : string) : option Z :=
  if bool_decide (s = "1") then Some 1
  else if bool_decide (s = "2") then Some 2
  else if bool_decide (s = "3") then Some 3
  else None.

Definition show_small (n : Z) : string :=
  if bool_decide (n = 1) then "1"
  else if bool_decide (n = 2) then "2"
  else if bool_decide (n = 3) then "3"
  else "?".

(** An id that can be selected: it has a cost and is not a hater. *)
Definition selectable (costs : gmap Z F64.float) (haters : gmap Z Qc) (x : Z) : Prop :=
  is_Some (costs !! x) ∧ haters !! x = None.

(** A row of an id-value file that parses to the pair [kv]: it has at least
    two cells, the first an int and the second a float. *)
Definition row_parses (parse_int : string → option Z)
    (parse_float : string → option Qc) (row : list string) (kv : Z * Qc) : Prop :=
  ∃ cell0 cell1 rest,
    row = cell0 :: cell1 :: rest
    ∧ parse_int cell0 = Some kv.1 ∧ parse_float cell1 = Some kv.2.

(** The value of the last pair of [pairs] whose id is [k]. *)
Fixpoint last_value (pairs : list (Z * Qc)) (k : Z) : option Qc :=
  match pairs with
  | [] => None
  | kv :: rest =>
      match last_value rest k with
      | Some v => Some v
      | None => if bool_decide (kv.1 = k) then Some kv.2 else None
      end
  end.

(** A [float] for examples: it knows one half and one. *)
Definition parse_float_small (s : string) : option Qc :=
  if bool_decide (s = "0.5") then Some (q 1 2)
  else if bool_decide (s = "1.0") then Some 1%Qc
  else None.

(** * Properties of the simulator *)

Section simulate_facts.

Variable graph : Graph.
Variable haters : gmap Z Qc.
Variable p_base : Qc.

Lemma try_candidate_newly influenced_nodes st candidate x :
  x ∈ (try_candidate graph haters p_base influenced_nodes st candidate).1 →
  x ∈ st.1 ∨ (x = candidate ∧ (x ∉ influenced_nodes) ∧ (x ∉ haters_set haters)).
Proof.
  unfold try_candidate.
  destruct (bool_decide (candidate ∈ influenced_nodes ∨ _)) eqn:Hskip; [auto|].
  apply bool_decide_eq_false in Hskip.
  destruct (neighbors graph candidate) as [ns|]; [|auto].
  case_bool_decide; [auto|].
  destruct (Rng.random st.2) as [d rng]. case_bool_decide; simpl; [|auto].
  rewrite elem_of_union, elem_of_singleton. intros [->|?]; [|auto].
  right. split_and!; [done|..]; intros ?; apply Hskip; auto.
Qed.

Lemma try_candidate_keeps influenced_nodes st candidate :
  st.1 ⊆ (try_candidate graph haters p_base influenced_nodes st candidate).1.
Proof.
  unfold try_candidate. case_bool_decide; [done|].
  destruct (neighbors graph candidate); [|done]. case_bool_decide; [done|].
  destruct (Rng.random st.2). case_bool_decide; simpl; set_solver.
Qed.

Lemma pass_newly influenced_nodes l st x :
  x ∈ (foldl (try_candidate graph haters p_base influenced_nodes) st l).1 →
  x ∈ st.1 ∨ (x ∈ l ∧ (x ∉ influenced_nodes) ∧ (x ∉ haters_set haters)).
Proof.
  revert st. induction l as [|c l IH]; intros st; simpl; [auto|].
  intros Hx. destruct (IH _ Hx) as [Hx'|(?&?&?)].
  - destruct (try_candidate_newly _ _ _ _ Hx') as [?|(->&?&?)]; [auto|].
    right. split_and!; [left|..]; done.
  - right. split_and!; [by right|..]; done.
Qed.

Lemma newly_influenced_fresh influenced_nodes rng x :
  x ∈ (newly_influenced graph haters p_base influenced_nodes rng).1 →
  x ∈ nodes graph ∧ (x ∉ influenced_nodes) ∧ (x ∉ haters_set haters).
Proof.
  intros Hx. apply pass_newly in Hx as [Hx|?]; [|done]. set_solver.
Qed.

Lemma one_round_fst st :
  (one_round graph haters p_base st).1
  = st.1 ∪ (newly_influenced graph haters p_base st.1 st.2).1.
Proof. unfold one_round. by destruct (newly_influenced _ _ _ _ _). Qed.

Lemma one_round_grows st : st.1 ⊆ (one_round graph haters p_base st).1.
Proof. rewrite one_round_fst. set_solver. Qed.

Lemma one_round_hater_free st :
  st.1 ## haters_set haters →
  (one_round graph haters p_base st).1 ## haters_set haters.
Proof.
  rewrite one_round_fst. intros Hst x [Hx|Hx]%elem_of_union Hh.
  - by apply (Hst x).
  - by apply newly_influenced_fresh in Hx as (_&_&?).
Qed.

Lemma rounds_loop_grows n st : st.1 ⊆ (rounds_loop graph haters p_base n st).1.
Proof.
  induction n as [|n IH]; simpl; [done|].
  etrans; [exact IH|apply one_round_grows].
Qed.

Lemma rounds_loop_hater_free n st :
  st.1 ## haters_set haters →
  (rounds_loop graph haters p_base n st).1 ## haters_set haters.
Proof.
  intros Hst. induction n as [|n IH]; simpl; [done|].
  by apply one_round_hater_free.
Qed.

Lemma initial_set_hater_free init : initial_set haters init ## haters_set haters.
Proof. unfold initial_set. intros x [_ Hx]%elem_of_difference Hh. by apply Hx. Qed.

End simulate_facts.

Lemma simulate_influence_count g init h p rounds rng :
  (simulate_influence (Some g) (Some init) (Some h) p rounds rng).1
  = Z.of_nat (size (influenced_after g h p init rng (Z.to_nat rounds))).
Proof.
  unfold simulate_influence, influenced_after.
  by destruct (rounds_loop _ _ _ _ _).
Qed.

(** C2: in every run with a graph, a seed list and a hater map, the influenced
    set after a round contains the influenced set before it, and at no point
    (initially or after any number of rounds) does it contain a hater. *)
Theorem influenced_set_monotone_hater_free
    (g : Graph) (init : list Z) (h : gmap Z Qc) (p : Qc) (rng : Rng.t) (n : nat) :
  influenced_after g h p init rng n ⊆ influenced_after g h p init rng (S n)
  ∧ (∀ x, x ∈ influenced_after g h p init rng n → h !! x = None).
Proof.
  split.
  - unfold influenced_after. simpl. apply one_round_grows.
  - intros x Hx. apply not_elem_of_dom. intros Hh.
    eapply (rounds_loop_hater_free g h p n (initial_set h init, rng)); [|exact Hx|exact Hh].
    apply initial_set_hater_free.
Qed.

(** C10: with a graph, a seed list and a hater map, the returned count is the
    size of the final influenced set and is at least the number of distinct
    non-hater seeds; every non-hater seed is in that final set, whether or not
    it is a node of the graph. *)
Theorem simulate_influence_counts_seeds
    (g : Graph) (init : list Z) (h : gmap Z Qc) (p : Qc) (rounds : Z) (rng : Rng.t) :
  let count := (simulate_influence (Some g) (Some init) (Some h) p rounds rng).1 in
  let final := influenced_after g h p init rng (Z.to_nat rounds) in
  count = Z.of_nat (size final)
  ∧ Z.of_nat (size (list_to_set init ∖ dom h : gset Z)) ≤ count
  ∧ (∀ s, s ∈ init → h !! s = None → s ∉ nodes g → s ∈ final).
Proof.
  intros count final. subst count.
  rewrite simulate_influence_count. fold final.
  assert (initial_set h init ⊆ final) as Hsub.
  { apply (rounds_loop_grows g h p _ (initial_set h init, rng)). }
  split_and!; [done|..].
  - apply inj_le, subseteq_size, Hsub.
  - intros s Hs Hh _. apply Hsub. unfold initial_set, haters_set.
    apply elem_of_difference. split; [by apply elem_of_list_to_set|].
    by apply not_elem_of_dom.
Qed.

(** ** The infection rule of one round *)

Lemma set_fold_Qprod (f : Z → Qc) (X : gset Z) :
  set_fold (λ x acc, acc * f x)%Qc 1%Qc X = Qprod (f <$> elements X).
Proof.
  unfold set_fold. simpl. induction (elements X) as [|x l IH]; simpl; [done|].
  rewrite IH. apply Qcmult_comm.
Qed.

Lemma Qprod_const (c : Qc) {A} (l : list A) :
  Qprod ((λ _, c) <$> l) = (c ^ length l)%Qc.
Proof.
  unfold Qprod. induction l as [|x l IH]; [done|].
  rewrite fmap_cons. simpl. by rewrite IH.
Qed.

Lemma advance_0 r : Rng.advance 0 r = r.
Proof. destruct r. unfold Rng.advance. simpl. f_equal. lia. Qed.

Lemma advance_next k r : Rng.advance k (Rng.next r) = Rng.advance (S k) r.
Proof. unfold Rng.advance, Rng.next. simpl. f_equal. lia. Qed.

Lemma random_nth r : (Rng.random r).1 = Rng.nth_random r 0.
Proof. unfold Rng.random, Rng.nth_random. simpl. by rewrite Nat.add_0_r. Qed.

Lemma nth_random_advance r k : Rng.nth_random (Rng.advance k r) 0 = Rng.nth_random r k.
Proof. unfold Rng.nth_random, Rng.advance. simpl. by rewrite Nat.add_0_r. Qed.

Section round_rule.

Variable graph : Graph.
Variable haters : gmap Z Qc.
Variable p_base : Qc.
Variable influenced_nodes : gset Z.

Lemma elem_of_influencing_of ns u :
  u ∈ influencing_of haters (list_to_set ns) influenced_nodes
  ↔ u ∈ ns ∧ u ∈ influenced_nodes ∧ haters !! u = None.
Proof.
  unfold influencing_of, haters_set.
  rewrite elem_of_filter, elem_of_list_to_set, not_elem_of_dom. tauto.
Qed.

Lemma elem_of_hater_neighbors_of ns a :
  a ∈ hater_neighbors_of haters (list_to_set ns) ↔ a ∈ ns ∧ is_Some (haters !! a).
Proof.
  unfold hater_neighbors_of, haters_set.
  rewrite elem_of_filter, elem_of_list_to_set, elem_of_dom. tauto.
Qed.

Lemma influencing_of_empty ns :
  influencing_of haters (list_to_set ns) influenced_nodes = ∅
  ↔ ¬ Exists (λ u, u ∈ influenced_nodes ∧ haters !! u = None) ns.
Proof.
  rewrite Exists_exists. split.
  - intros He (u & Hu & ? & ?).
    assert (u ∈ influencing_of haters (list_to_set ns) influenced_nodes) as Hin
      by by apply elem_of_influencing_of.
    rewrite He in Hin. set_solver.
  - intros Hn. apply set_eq. intros u. rewrite elem_of_influencing_of.
    split; [|set_solver]. intros (? & ? & ?). destruct Hn. eauto.
Qed.

(** What the loop body does on an exposed candidate: it reads one draw and
    compares it with the infection probability. *)
Lemma try_candidate_exposed st candidate ns :
  exposed graph haters influenced_nodes candidate = true →
  neighbors graph candidate = Some ns →
  try_candidate graph haters p_base influenced_nodes st candidate
  = (if bool_decide
          (Rng.nth_random st.2 0
           < infection_probability haters p_base
               (hater_neighbors_of haters (list_to_set ns))
               (influencing_of haters (list_to_set ns) influenced_nodes))%Qc
     then {[candidate]} ∪ st.1 else st.1,
     Rng.next st.2).
Proof.
  unfold exposed. intros Hex Hns. rewrite Hns in Hex.
  apply andb_true_iff in Hex as [[Hni Hnh]%bool_decide_eq_true Hsome%bool_decide_eq_true].
  unfold try_candidate. rewrite Hns.
  rewrite bool_decide_eq_false_2.
  2:{ unfold haters_set. rewrite elem_of_dom, Hnh. intros [?|[? ?]]; done. }
  rewrite bool_decide_eq_false_2 by (by rewrite influencing_of_empty; intros []).
  unfold anti_influence_loop, not_infected_loop.
  rewrite (set_fold_Qprod (λ a, 1 - default 0 (haters !! a))%Qc).
  rewrite (set_fold_Qprod (λ _, 1 - p_base * _)%Qc).
  unfold infection_probability, dampening, hater_weight, Rng.random, Rng.nth_random.
  cbv beta iota zeta. rewrite Nat.add_0_r.
  by case_bool_decide.
Qed.

Lemma try_candidate_unexposed st candidate :
  exposed graph haters influenced_nodes candidate = false →
  try_candidate graph haters p_base influenced_nodes st candidate = st.
Proof.
  unfold exposed, try_candidate. intros Hex.
  destruct (bool_decide (candidate ∈ influenced_nodes ∨ _)) eqn:Hskip; [done|].
  apply bool_decide_eq_false in Hskip.
  destruct (neighbors graph candidate) as [ns|]; [|done].
  rewrite bool_decide_eq_true_2 in Hex.
  2:{ split; [tauto|]. apply not_elem_of_dom. unfold haters_set in Hskip. tauto. }
  simpl in Hex. apply bool_decide_eq_false in Hex.
  by rewrite bool_decide_eq_true_2 by by apply influencing_of_empty.
Qed.

(** A pass reads exactly one draw per exposed node. *)
Lemma pass_generator l st :
  (foldl (try_candidate graph haters p_base influenced_nodes) st l).2
  = Rng.advance (length (filter (exposed graph haters influenced_nodes) l)) st.2.
Proof.
  revert st. induction l as [|c l IH]; intros st; simpl.
  - by rewrite advance_0.
  - rewrite IH. destruct (exposed graph haters influenced_nodes c) eqn:Hex.
    + rewrite filter_cons_True by by rewrite Hex.
      unfold exposed in Hex. destruct (neighbors graph c) as [ns|] eqn:Hns;
        [|by rewrite andb_false_r in Hex].
      rewrite (try_candidate_exposed _ _ ns); [|by unfold exposed; rewrite Hns|done].
      simpl. by rewrite advance_next.
    + rewrite filter_cons_False by (rewrite Hex; intros []).
      by rewrite try_candidate_unexposed.
Qed.

Lemma pass_keeps l st :
  st.1 ⊆ (foldl (try_candidate graph haters p_base influenced_nodes) st l).1.
Proof.
  revert st. induction l as [|c l IH]; intros st; simpl; [done|].
  etrans; [apply try_candidate_keeps|apply IH].
Qed.

Lemma pass_other l st x :
  x ∉ l →
  x ∈ (foldl (try_candidate graph haters p_base influenced_nodes) st l).1 ↔ x ∈ st.1.
Proof.
  intros Hx. split.
  - intros [?|[? _]]%pass_newly; done.
  - apply pass_keeps.
Qed.

End round_rule.

(** * Binary64 facts *)

Lemma digits2_pos_iter (m n : positive) :
  digits2_pos (Pos.iter xO m n) = (digits2_pos m + n)%positive.
Proof.
  induction n as [|n IH] using Pos.peano_ind.
  - simpl. lia.
  - rewrite Pos.iter_succ. simpl. rewrite IH. lia.
Qed.

Lemma Zpos_iter (m n : positive) :
  Z.pos (Pos.iter xO m n) = Z.pos m * 2 ^ Z.pos n.
Proof.
  induction n as [|n IH] using Pos.peano_ind.
  - simpl. lia.
  - rewrite Pos.iter_succ, Pos2Z.inj_xO, IH, Pos2Z.inj_succ, Z.pow_succ_r by lia. lia.
Qed.

Lemma digits2_pos_lower (m : positive) :
  2 ^ (Z.pos (digits2_pos m) - 1) ≤ Z.pos m.
Proof.
  induction m as [m IH|m IH|]; simpl; [| |done].
  - rewrite Pos2Z.inj_succ. replace (Z.succ (Z.pos (digits2_pos m)) - 1)
      with (Z.succ (Z.pos (digits2_pos m) - 1)) by lia.
    rewrite Z.pow_succ_r by lia. lia.
  - rewrite Pos2Z.inj_succ. replace (Z.succ (Z.pos (digits2_pos m)) - 1)
      with (Z.succ (Z.pos (digits2_pos m) - 1)) by lia.
    rewrite Z.pow_succ_r by lia. lia.
Qed.

(** Rounding leaves a 53-bit mantissa with an exponent in range as it is. *)
Lemma round_canonical (s : bool) (mz : positive) (ez : Z) :
  Z.pos (digits2_pos mz) = 53 → -1074 ≤ ez ≤ 971 →
  binary_round_aux F64.prec F64.emax s (Z.pos mz) ez loc_Exact = S754_finite s mz ez.
Proof.
  intros Hd He. unfold binary_round_aux.
  assert (∀ m', m' = Z.pos mz →
            shr_fexp F64.prec F64.emax m' ez loc_Exact
            = ({| shr_m := Z.pos mz; shr_r := false; shr_s := false |}, ez)) as Hshr.
  { intros m' ->. unfold shr_fexp. simpl Zdigits2. rewrite Hd.
    assert (fexp F64.prec F64.emax (53 + ez) - ez = 0) as ->
      by (unfold fexp, emin, F64.prec, F64.emax; lia).
    done. }
  rewrite (Hshr _ eq_refl). cbn [shr_m loc_of_shr_record round_nearest_even].
  rewrite (Hshr _ eq_refl). cbn [shr_m].
  assert ((ez <=? F64.emax - F64.prec) = true) as ->
    by (apply Z.leb_le; unfold F64.prec, F64.emax; lia).
  done.
Qed.

(** A positive int below [2^53], scaled by [2^-53], is a float as it stands:
    the conversion does not round. *)
Lemma normalize_draw (m : positive) :
  Z.pos m < 2 ^ 53 →
  ∃ mz ez, binary_normalize F64.prec F64.emax (Z.pos m) (-53) false
           = S754_finite false mz ez
           ∧ ez < 0 ∧ Z.pos mz * 2 ^ 53 = Z.pos m * 2 ^ (- ez).
Proof.
  intros Hm. pose proof (digits2_pos_lower m) as Hlow.
  set (d := digits2_pos m) in *.
  assert (Z.pos d ≤ 53) as Hd.
  { destruct (decide (Z.pos d ≤ 53)) as [|Hn]; [done|].
    assert (2 ^ 53 ≤ 2 ^ (Z.pos d - 1)) by (apply Z.pow_le_mono_r; lia). lia. }
  unfold binary_normalize, binary_round. fold d.
  assert (fexp F64.prec F64.emax (Z.pos d + -53) = Z.pos d - 106) as ->.
  { unfold fexp, emin, F64.prec, F64.emax. lia. }
  unfold shl_align.
  destruct (Z.pos d - 106 - -53) as [|k|k] eqn:Hk.
  - exists m, (-53). rewrite round_canonical; [|fold d; lia|lia].
    split; [done|]. split; [lia|]. done.
  - lia.
  - exists (Pos.iter xO m k), (Z.pos d - 106).
    rewrite round_canonical; [|rewrite digits2_pos_iter; fold d; lia|lia].
    split; [done|]. split; [lia|].
    rewrite Zpos_iter. replace (- (Z.pos d - 106)) with (Z.pos k + 53) by lia.
    rewrite Z.pow_add_r by lia. lia.
Qed.

Lemma scaled_draw (mz : positive) (ez : Z) (k : Z) :
  ez < 0 → Z.pos mz * 2 ^ 53 = k * 2 ^ (- ez) →
  F64.scaled (Z.pos mz) ez = Q2Qc (k # 2 ^ 53).
Proof.
  intros He Hv. unfold F64.scaled. rewrite bool_decide_eq_false_2 by lia.
  apply Qc_is_canon. simpl. rewrite !Qred_correct. unfold Qeq. simpl.
  assert (0 < 2 ^ (- ez)) by (apply Z.pow_pos_nonneg; lia).
  rewrite Z2Pos.id by done. lia.
Qed.

(** The float draw denotes the number [k / 2^53] that the idealised draw is. *)
Lemma nth_random64_exact r k :
  F64.to_Qc (Rng.nth_random64 r k) = Some (Rng.nth_random r k).
Proof.
  unfold Rng.nth_random64, Rng.nth_random.
  set (a := (Rng.draws r (Rng.pos r + k) mod 2 ^ 53)%N).
  assert (a < 2 ^ 53)%N as Ha by (apply N.mod_lt; done).
  destruct a as [|m]; [simpl; f_equal; by apply Qc_is_canon|].
  cbn [Z.of_N].
  destruct (normalize_draw m) as (mz & ez & -> & He & Hv); [lia|].
  simpl. f_equal. by apply scaled_draw.
Qed.

Lemma nth_random_range r k : (0 ≤ Rng.nth_random r k)%Qc ∧ (Rng.nth_random r k < 1)%Qc.
Proof.
  unfold Rng.nth_random. set (a := (Rng.draws r (Rng.pos r + k) mod 2 ^ 53)%N).
  assert (a < 2 ^ 53)%N as Ha by (apply N.mod_lt; done).
  unfold Qcle, Qclt. simpl. rewrite !Qred_correct.
  unfold Qle, Qlt. simpl. split; lia.
Qed.

(** ** The infection rule of one round, in binary64 *)

Lemma random64_nth r : (Rng.random64 r).1 = Rng.nth_random64 r 0.
Proof. unfold Rng.random64, Rng.nth_random64. simpl. by rewrite Nat.add_0_r. Qed.

Lemma nth_random64_advance r k :
  Rng.nth_random64 (Rng.advance k r) 0 = Rng.nth_random64 r k.
Proof. unfold Rng.nth_random64, Rng.advance. simpl. by rewrite Nat.add_0_r. Qed.

Lemma foldl_const_iter {A B} (f : A → A) (a : A) (l : list B) :
  foldl (λ acc _, f acc) a l = Nat.iter (length l) f a.
Proof.
  revert a. induction l as [|x l IH]; intros a; simpl; [done|].
  rewrite IH. clear. induction (length l) as [|n IH]; simpl; [done|]. by rewrite IH.
Qed.

Section rounded_round.

Variable graph : Graph.
Variable haters : gmap Z F64.float.
Variable p_base : F64.float.
Variable iter : gset Z → list Z.
Variable influenced_nodes : gset Z.

Hypothesis iter_perm : ∀ X, iter X ≡ₚ elements X.

Lemma elem_of_influencing_of64 ns u :
  u ∈ Rounded.influencing_of haters (list_to_set ns) influenced_nodes
  ↔ u ∈ ns ∧ u ∈ influenced_nodes ∧ haters !! u = None.
Proof.
  unfold Rounded.influencing_of, Rounded.haters_set.
  rewrite elem_of_filter, elem_of_list_to_set, not_elem_of_dom. tauto.
Qed.

Lemma elem_of_hater_neighbors_of64 ns a :
  a ∈ Rounded.hater_neighbors_of haters (list_to_set ns)
  ↔ a ∈ ns ∧ is_Some (haters !! a).
Proof.
  unfold Rounded.hater_neighbors_of, Rounded.haters_set.
  rewrite elem_of_filter, elem_of_list_to_set, elem_of_dom. tauto.
Qed.

Lemma influencing_of_empty64 ns :
  Rounded.influencing_of haters (list_to_set ns) influenced_nodes = ∅
  ↔ ¬ Exists (λ u, u ∈ influenced_nodes ∧ haters !! u = None) ns.
Proof.
  rewrite Exists_exists. split.
  - intros He (u & Hu & ? & ?).
    assert (u ∈ Rounded.influencing_of haters (list_to_set ns) influenced_nodes)
      as Hin by by apply elem_of_influencing_of64.
    rewrite He in Hin. by apply elem_of_empty in Hin.
  - intros Hn. apply set_eq. intros u. rewrite elem_of_influencing_of64.
    split; [|by intros ?%elem_of_empty]. intros (? & ? & ?). destruct Hn. eauto.
Qed.

(** The loop over the influencing neighbours multiplies by the same factor
    once per neighbour. *)
Lemma not_infected_loop_iter A (I : gset Z) :
  Rounded.not_infected_loop p_base iter A I
  = Nat.iter (size I)
      (λ P, F64.mul P (F64.sub F64.one (F64.mul p_base A))) F64.one.
Proof.
  unfold Rounded.not_infected_loop. rewrite foldl_const_iter.
  f_equal. apply Permutation_length, iter_perm.
Qed.

(** What the loop body does on an exposed candidate: it reads one draw and
    compares it with the threshold. *)
Lemma try_candidate_exposed64 st candidate ns :
  exposed64 graph haters influenced_nodes candidate = true →
  neighbors graph candidate = Some ns →
  Rounded.try_candidate graph haters p_base iter influenced_nodes st candidate
  = (if F64.ltb (Rng.nth_random64 st.2 0)
          (infection_threshold64 haters p_base
             (iter (Rounded.hater_neighbors_of haters (list_to_set ns)))
             (size (Rounded.influencing_of haters (list_to_set ns) influenced_nodes)))
     then {[candidate]} ∪ st.1 else st.1,
     Rng.next st.2).
Proof.
  unfold exposed64. intros Hex Hns. rewrite Hns in Hex.
  apply andb_true_iff in Hex as [[Hni Hnh]%bool_decide_eq_true Hsome%bool_decide_eq_true].
  unfold Rounded.try_candidate. rewrite Hns.
  rewrite bool_decide_eq_false_2.
  2:{ unfold Rounded.haters_set. rewrite elem_of_dom, Hnh. intros [?|[? ?]]; done. }
  rewrite bool_decide_eq_false_2 by (by rewrite influencing_of_empty64; intros []).
  rewrite not_infected_loop_iter.
  unfold infection_threshold64, dampening64, Rounded.anti_influence_loop.
  unfold Rng.random64, Rng.nth_random64. cbv beta iota zeta. rewrite Nat.add_0_r.
  by destruct (F64.ltb _ _).
Qed.

Lemma try_candidate_unexposed64 st candidate :
  exposed64 graph haters influenced_nodes candidate = false →
  Rounded.try_candidate graph haters p_base iter influenced_nodes st candidate = st.
Proof.
  unfold exposed64, Rounded.try_candidate. intros Hex.
  destruct (bool_decide (candidate ∈ influenced_nodes ∨ _)) eqn:Hskip; [done|].
  apply bool_decide_eq_false in Hskip.
  destruct (neighbors graph candidate) as [ns|]; [|done].
  rewrite bool_decide_eq_true_2 in Hex.
  2:{ split; [tauto|]. apply not_elem_of_dom. unfold Rounded.haters_set in Hskip. tauto. }
  simpl in Hex. apply bool_decide_eq_false in Hex.
  by rewrite bool_decide_eq_true_2 by by apply influencing_of_empty64.
Qed.

(** A pass reads exactly one draw per exposed node. *)
Lemma pass_generator64 l st :
  (foldl (Rounded.try_candidate graph haters p_base iter influenced_nodes) st l).2
  = Rng.advance (length (filter (exposed64 graph haters influenced_nodes) l)) st.2.
Proof.
  revert st. induction l as [|c l IH]; intros st; simpl.
  - by rewrite advance_0.
  - rewrite IH. destruct (exposed64 graph haters influenced_nodes c) eqn:Hex.
    + rewrite filter_cons_True by by rewrite Hex.
      unfold exposed64 in Hex. destruct (neighbors graph c) as [ns|] eqn:Hns;
        [|by rewrite andb_false_r in Hex].
      rewrite (try_candidate_exposed64 _ _ ns); [|by unfold exposed64; rewrite Hns|done].
      simpl. by rewrite advance_next.
    + rewrite filter_cons_False by (rewrite Hex; intros []).
      by rewrite try_candidate_unexposed64.
Qed.

(** The loop body decides on its own candidate only. *)
Lemma try_candidate_other64 st candidate x :
  x ≠ candidate →
  x ∈ (Rounded.try_candidate graph haters p_base iter influenced_nodes st candidate).1
  ↔ x ∈ st.1.
Proof.
  intros Hx. destruct (exposed64 graph haters influenced_nodes candidate) eqn:Hex.
  - pose proof Hex as Hex'. unfold exposed64 in Hex'.
    destruct (neighbors graph candidate) as [ns|] eqn:Hns;
      [|by rewrite andb_false_r in Hex'].
    rewrite (try_candidate_exposed64 _ _ ns) by done.
    destruct (F64.ltb _ _); simpl; [|done].
    rewrite elem_of_union, elem_of_singleton. tauto.
  - by rewrite try_candidate_unexposed64.
Qed.

Lemma pass_other64 l st x :
  x ∉ l →
  x ∈ (foldl (Rounded.try_candidate graph haters p_base iter influenced_nodes) st l).1
  ↔ x ∈ st.1.
Proof.
  revert st. induction l as [|c l IH]; intros st Hx; simpl; [done|].
  apply not_elem_of_cons in Hx as [Hc Hl].
  rewrite IH by done. by apply try_candidate_other64.
Qed.

Lemma one_round_fst64 st :
  (Rounded.one_round graph haters p_base iter st).1
  = st.1 ∪ (Rounded.newly_influenced graph haters p_base iter st.1 st.2).1.
Proof. unfold Rounded.one_round. by destruct (Rounded.newly_influenced _ _ _ _ _ _). Qed.

End rounded_round.

(** C1 as stated fails: the threshold that decides infection is computed in
    binary64, and is not exactly [1 - PROD (1 - p * A)].  Node 4 has the
    influencing neighbours 1 and 2 and the hater-neighbour 3 of weight 0.5;
    with [p_base = 0.2] the draw [1711367858400788 / 2^53] is below the
    exact value of [1 - (1 - p * A)^2] (for [p] the float [0.2], and for
    [p = 1/5] as well), yet the round does not infect node 4: the threshold
    that the code computes is the draw itself. *)
Lemma round_infection_not_exact :
  let g : Graph := [(1, [4]); (2, [4]); (3, [4]); (4, [1; 2; 3])] in
  let h : gmap Z F64.float := {[3 := F64.ratio 1 2]} in
  let p : F64.float := F64.ratio 1 5 in
  let infl : gset Z := {[1; 2]} in
  let rng := Rng.const 1711367858400788 in
  let d := Rng.nth_random rng 0 in
  let weights : gmap Z Qc := {[3 := q 1 2]} in
  let hater_neighbours : gset Z := {[3]} in
  exposed64 g h infl 4 = true
  ∧ F64.to_Qc (Rng.nth_random64 rng 0) = Some d
  ∧ F64.to_Qc (F64.ratio 1 2) = Some (q 1 2)
  ∧ (∃ pq, F64.to_Qc p = Some pq
           ∧ (d < infection_probability weights pq hater_neighbours infl)%Qc)
  ∧ (d < infection_probability weights (q 1 5) hater_neighbours infl)%Qc
  ∧ (4 ∉ (Rounded.newly_influenced g h p elements infl rng).1)
  ∧ infection_threshold64 h p [3] 2 = Rng.nth_random64 rng 0.
Proof.
  split_and!.
  - vm_compute. reflexivity.
  - apply nth_random64_exact.
  - simpl. f_equal. by apply Qc_is_canon.
  - eexists. split; [reflexivity|]. vm_compute. reflexivity.
  - vm_compute. reflexivity.
  - assert ((Rounded.newly_influenced
               [(1, [4]); (2, [4]); (3, [4]); (4, [1; 2; 3])]
               {[3 := F64.ratio 1 2]} (F64.ratio 1 5) elements {[1; 2]}
               (Rng.const 1711367858400788)).1 = ∅) as ->
      by (vm_compute; reflexivity).
    apply not_elem_of_empty.
  - vm_compute. reflexivity.
Qed.

(** C1, amended: in a round that starts from the influenced set [infl], a
    node [c] that is not influenced, not a hater, and has a neighbour that is
    in [infl] and not a hater, is newly influenced exactly when the draw made
    for it is below the threshold [1.0 - P] that the code computes in
    binary64: [P] is [1.0] multiplied by [1.0 - p * A] once per influencing
    neighbour, and [A] is [1.0] multiplied in turn by [1.0 - haterWeight] of
    each hater-neighbour of [c] (the same factor for every influencing
    neighbour).  The draw is one float [j / 2^53] in [0, 1), the [k]-th of
    the round where [k] counts the exposed nodes before [c]; the round reads
    one draw per exposed node; and the newly influenced nodes join the
    influenced set after the pass. *)
Theorem round_infection_rule
    (g : Graph) (h : gmap Z F64.float) (p : F64.float) (iter : gset Z → list Z)
    (infl : gset Z) (rng : Rng.t) (pre post : list Z) (c : Z) (ns : list Z) :
  (∀ X, iter X ≡ₚ elements X) →
  NoDup (nodes g) →
  nodes g = pre ++ c :: post →
  c ∉ infl →
  h !! c = None →
  neighbors g c = Some ns →
  (∃ u, u ∈ ns ∧ u ∈ infl ∧ h !! u = None) →
  let H := Rounded.hater_neighbors_of h (list_to_set ns) in
  let I := Rounded.influencing_of h (list_to_set ns) infl in
  let k := length (filter (exposed64 g h infl) pre) in
  let newly := Rounded.newly_influenced g h p iter infl rng in
  (∀ a, a ∈ H ↔ a ∈ ns ∧ is_Some (h !! a))
  ∧ (∀ u, u ∈ I ↔ u ∈ ns ∧ u ∈ infl ∧ h !! u = None)
  ∧ (c ∈ newly.1
     ↔ F64.ltb (Rng.nth_random64 rng k)
         (infection_threshold64 h p (iter H) (size I)) = true)
  ∧ (F64.to_Qc (Rng.nth_random64 rng k) = Some (Rng.nth_random rng k)
     ∧ (0 ≤ Rng.nth_random rng k)%Qc ∧ (Rng.nth_random rng k < 1)%Qc)
  ∧ newly.2 = Rng.advance (length (filter (exposed64 g h infl) (nodes g))) rng
  ∧ (Rounded.one_round g h p iter (infl, rng)).1 = infl ∪ newly.1.
Proof.
  intros Hiter Hnd Hsplit Hci Hch Hns Hex H I k newly.
  assert (exposed64 g h infl c = true) as Hexp.
  { unfold exposed64. rewrite Hns. apply andb_true_iff.
    split; apply bool_decide_eq_true; [done|]. by apply Exists_exists. }
  split_and!.
  - intros a. apply elem_of_hater_neighbors_of64.
  - intros u. apply elem_of_influencing_of64.
  - subst newly. unfold Rounded.newly_influenced. rewrite Hsplit, foldl_app. simpl.
    rewrite Hsplit in Hnd. apply NoDup_app in Hnd as (_ & Hpre & [Hpost _]%NoDup_cons).
    rewrite pass_other64 by done.
    rewrite (try_candidate_exposed64 _ _ _ _ _ Hiter _ _ ns) by done.
    rewrite pass_generator64 by done. simpl. rewrite nth_random64_advance. fold k H I.
    assert (c ∉ (foldl (Rounded.try_candidate g h p iter infl) (∅, rng) pre).1)
      as Hfresh.
    { rewrite pass_other64; [apply not_elem_of_empty|done|].
      intros ?. by apply (Hpre c); [|left]. }
    destruct (F64.ltb _ _); simpl; [|split; [tauto|done]].
    rewrite elem_of_union, elem_of_singleton. tauto.
  - apply nth_random64_exact.
  - apply nth_random_range.
  - apply nth_random_range.
  - subst newly. unfold Rounded.newly_influenced. by rewrite pass_generator64.
  - apply one_round_fst64.
Qed.

Lemma round_infection_rule_witness :
  2 ∈ (Rounded.newly_influenced star_graph ∅ (F64.ratio 1 5) elements {[1]}
         (Rng.const 0)).1
  ↔ F64.ltb (Rng.nth_random64 (Rng.const 0) 0)
      (infection_threshold64 ∅ (F64.ratio 1 5)
         (elements (Rounded.hater_neighbors_of ∅ (list_to_set [1%Z])))
         (size (Rounded.influencing_of ∅ (list_to_set [1%Z]) {[1%Z]}))) = true.
Proof.
  refine (proj1 (proj2 (proj2
    (round_infection_rule star_graph ∅ (F64.ratio 1 5) elements {[1]} (Rng.const 0)
       [1] [3] 2 [1] _ _ _ _ _ _ _)))).
  - done.
  - compute_done.
  - reflexivity.
  - compute_done.
  - reflexivity.
  - reflexivity.
  - exists 1. split_and!; [compute_done|compute_done|reflexivity].
Defined.

(** ** The failure policy *)

Lemma pass_from_empty g h p l st :
  foldl (try_candidate g h p ∅) st l = st.
Proof.
  revert st. induction l as [|c l IH]; intros st; simpl; [done|].
  rewrite try_candidate_unexposed; [apply IH|].
  unfold exposed. destruct (neighbors g c) as [ns|]; [|apply andb_false_r].
  apply andb_false_iff. right. apply bool_decide_eq_false.
  rewrite Exists_exists. intros (u & _ & Hu & _). set_solver.
Qed.

Lemma rounds_loop_from_empty g h p n rng :
  rounds_loop g h p n (∅, rng) = (∅, rng).
Proof.
  induction n as [|n IH]; simpl; [done|]. rewrite IH.
  unfold one_round, newly_influenced. simpl. rewrite pass_from_empty.
  f_equal; apply (left_id_L ∅ (∪)).
Qed.

Lemma simulate_influence_empty_graph init h p rounds rng :
  simulate_influence (Some []) (Some init) (Some h) p rounds rng
  = (Z.of_nat (size (list_to_set init ∖ dom h : gset Z)), rng).
Proof.
  unfold simulate_influence.
  assert (∀ n st, rounds_loop [] h p n st = st) as ->; [|done].
  induction n as [|n IH]; intros st; simpl; [done|]. rewrite IH.
  unfold one_round, newly_influenced. simpl. destruct st as [s r]. simpl.
  f_equal; apply (right_id_L ∅ (∪)).
Qed.

(** C3 as stated fails: with an empty graph (or an empty hater map) and a
    non-hater seed, the count is not zero. *)
Lemma missing_or_empty_not_zero :
  ¬ (∀ g init h p rounds rng,
       missing_or_empty g init h → (simulate_influence g init h p rounds rng).1 = 0).
Proof.
  intros Hclaim.
  specialize (Hclaim (Some []) (Some [1]) (Some ∅) P_BASE ROUNDS (Rng.const 0)).
  rewrite simulate_influence_empty_graph in Hclaim.
  assert (missing_or_empty (Some []) (Some [1]) (Some ∅)) as Hm
    by (right; left; reflexivity).
  specialize (Hclaim Hm). vm_compute in Hclaim. discriminate.
Qed.

(** C3, amended: when the graph, the seed collection or the hater map is
    [None], or the seed collection is empty, the call returns the count zero
    as an ordinary value and reads no random draw. *)
Theorem simulate_influence_missing (g : option Graph) (init : option (list Z))
    (h : option (gmap Z Qc)) (p : Qc) (rounds : Z) (rng : Rng.t) :
  g = None ∨ init = None ∨ h = None ∨ init = Some [] →
  simulate_influence g init h p rounds rng = (0, rng).
Proof.
  intros [-> | [-> | [-> | ->]]]; unfold simulate_influence.
  - done.
  - by destruct g.
  - by destruct g, init.
  - destruct g as [g|], h as [h|]; try done.
    assert (initial_set h [] = ∅) as ->
      by (unfold initial_set; apply set_eq; intros x;
          rewrite elem_of_difference, elem_of_list_to_set, elem_of_nil,
            elem_of_empty; tauto).
    by rewrite rounds_loop_from_empty.
Qed.

Lemma simulate_influence_missing_witness :
  ((None : option Graph) = None ∨ Some [1] = None
   ∨ Some (∅ : gmap Z Qc) = None ∨ Some [1] = Some [])
  ∧ simulate_influence None (Some [1]) (Some ∅) P_BASE ROUNDS (Rng.const 0)
    = (0, Rng.const 0).
Proof.
  split; [left; reflexivity|].
  apply (simulate_influence_missing None (Some [1]) (Some ∅)). left. reflexivity.
Defined.

(** * Properties of the search stages *)

(** ** find_average_influence *)

(** C8 (the code does not guard the division): on a graph whose only node 0
    has no neighbour, scoring candidate 0 raises [ZeroDivisionError] instead
    of giving the score 0. *)
Theorem find_average_influence_isolated_node :
  find_average_influence [(0, [])] ∅ [0] P_BASE = Raise ZeroDivisionError.
Proof. reflexivity. Qed.

(** The same for every candidate list that starts with a node without
    neighbours. *)
Lemma find_average_influence_unguarded g h u rest p :
  neighbors g u = Some [] →
  find_average_influence g h (u :: rest) p = Raise ZeroDivisionError.
Proof.
  intros Hu. unfold find_average_influence. simpl.
  unfold neighbors_exn. by rewrite Hu.
Qed.

(** ** find_top_group *)

Lemma insert_index_perm a i l : insert_index a i l ≡ₚ i :: l.
Proof.
  induction l as [|j l IH]; simpl; [done|].
  case_bool_decide; [done|]. rewrite IH. apply Permutation_swap.
Qed.

Lemma ascending_through a i j x :
  (key_at a i ≤ key_at a j)%Qc → (i < x)%nat → ascending a j x → ascending a i x.
Proof.
  intros Hij Hix [Hjx|[Hjx _]]; unfold ascending.
  - left. by eapply Qcle_lt_trans.
  - rewrite Hjx in Hij. destruct (Qcle_lt_or_eq _ _ Hij); auto.
Qed.

Lemma insert_index_sorted a i l :
  StronglySorted (ascending a) l →
  Forall (λ j, i < j)%nat l →
  StronglySorted (ascending a) (insert_index a i l).
Proof.
  induction 1 as [|j l Hl IH Hj]; intros Hi; simpl.
  - repeat constructor.
  - apply Forall_cons in Hi as [Hij Hi]. case_bool_decide as Hle.
    + constructor; [by constructor|]. constructor.
      * destruct (Qcle_lt_or_eq _ _ Hle); [by left|by right].
      * eapply Forall_impl; [apply Forall_and; split; [exact Hi|exact Hj]|].
        intros x [? ?]. by eapply ascending_through.
    + constructor; [by apply IH|].
      rewrite insert_index_perm. constructor; [|done].
      left. by apply Qcnot_le_lt.
Qed.

Lemma argsort_from_spec a s n :
  let l := foldr (insert_index a) [] (seq s n) in
  l ≡ₚ seq s n ∧ StronglySorted (ascending a) l.
Proof.
  revert s. induction n as [|n IH]; intros s; simpl; [by split; constructor|].
  destruct (IH (S s)) as [Hp Hs]. split.
  - by rewrite insert_index_perm, Hp.
  - apply insert_index_sorted; [done|]. rewrite Hp.
    apply Forall_forall. intros j Hj%elem_of_seq. lia.
Qed.

Lemma argsort_perm a : argsort a ≡ₚ seq 0 (length a).
Proof. apply argsort_from_spec. Qed.

Lemma argsort_sorted a : StronglySorted (ascending a) (argsort a).
Proof. apply argsort_from_spec. Qed.

Lemma StronglySorted_reverse {A} (R : relation A) l :
  StronglySorted R l → StronglySorted (flip R) (reverse l).
Proof.
  induction 1 as [|x l Hl IH Hx]; [constructor|].
  rewrite reverse_cons. apply StronglySorted_app. split_and!; [|done|repeat constructor].
  intros x1 x2 Hx1 ->%list_elem_of_singleton. rewrite elem_of_reverse in Hx1.
  rewrite Forall_forall in Hx. by apply Hx.
Qed.

Lemma slice_from_last {A} (size : Z) (l : list A) :
  0 < size →
  slice_from (- size) l = drop (length l - Z.to_nat size) l.
Proof.
  intros Hs. unfold slice_from. rewrite bool_decide_eq_true_2 by lia.
  f_equal. lia.
Qed.

(** C9 as stated fails: on a table of two equal scores, [find_top_group]
    returns index 1 before index 0, not the order of the table. *)
Lemma find_top_group_ties_reversed :
  find_top_group 2 [1%Qc; 1%Qc] = [1; 0]
  ∧ ¬ top_group_claim 2 [1%Qc; 1%Qc] (find_top_group 2 [1%Qc; 1%Qc]).
Proof.
  split; [reflexivity|]. intros [_ Hs].
  change (find_top_group 2 [1%Qc; 1%Qc]) with [1; 0] in Hs.
  apply StronglySorted_cons in Hs as [Hs _]. apply Forall_cons in Hs as [[Hlt|[_ ?]] _].
  - by apply Qclt_not_eq in Hlt.
  - lia.
Qed.

Lemma StronglySorted_weaken {A} (R1 R2 : relation A) l :
  (∀ x y, R1 x y → R2 x y) → StronglySorted R1 l → StronglySorted R2 l.
Proof.
  intros HR. induction 1 as [|x l _ IH Hx]; constructor; [done|].
  eapply Forall_impl; [exact Hx|]. intros y. apply HR.
Qed.

(** The stable index sort is one of the orders numpy's contract allows. *)
Lemma argsort_is_argsort a : is_argsort a (argsort a).
Proof.
  split; [apply argsort_perm|].
  eapply StronglySorted_weaken; [|apply argsort_sorted].
  intros i j [Hlt|[-> _]]; [by apply Qclt_le_weak|apply Qcle_refl].
Qed.

(** C9, amended: for [size >= 1] and whatever order [argsort] leaves equal
    scores in, [find_top_group] returns [min(size, len(table))] distinct
    indices of the table, highest score first; every index left out has a
    score no higher than every index returned.  The order of equal scores
    is the reverse of the one [argsort] returned them in, and is not
    promised by numpy's default sort.  The stable index sort is one of the
    orders allowed. *)
Theorem find_top_group_order (size : Z) (table : list Qc) (order : list nat) :
  0 < size →
  is_argsort table order →
  let res := top_indices size order in
  Z.of_nat (length res) = Z.min size (Z.of_nat (length table))
  ∧ NoDup res
  ∧ StronglySorted (λ i j, (score table j ≤ score table i)%Qc) res
  ∧ (∀ i, i ∈ res → 0 ≤ i < Z.of_nat (length table))
  ∧ (∀ i j, i ∈ res → 0 ≤ j < Z.of_nat (length table) → j ∉ res →
       (score table j ≤ score table i)%Qc)
  ∧ is_argsort table (argsort table)
  ∧ find_top_group size table = top_indices size (argsort table).
Proof.
  intros Hsize [Hp Hs] res. subst res. unfold top_indices.
  rewrite slice_from_last by done.
  assert (length order = length table) as Hlen by by rewrite Hp, length_seq.
  set (d := (length order - Z.to_nat size)%nat).
  assert (NoDup order) as Hnd by (rewrite Hp; apply NoDup_seq).
  rewrite <- (take_drop d order) in Hs, Hp, Hnd.
  apply StronglySorted_app in Hs as (Hcross & _ & Hs).
  split_and!.
  - rewrite length_fmap, length_reverse, length_drop. lia.
  - apply NoDup_fmap; [intros x y; apply Nat2Z.inj|].
    rewrite reverse_Permutation. by apply NoDup_app in Hnd as (_ & _ & ?).
  - apply (StronglySorted_fmap Z.of_nat
             (flip (λ i j, (key_at table i ≤ key_at table j)%Qc)));
      [|by apply StronglySorted_reverse].
    intros i j Hij. unfold score. by rewrite !Nat2Z.id.
  - intros i (k & -> & Hk)%list_elem_of_fmap. rewrite elem_of_reverse in Hk.
    assert (k ∈ seq 0 (length table)) as Hin
      by (rewrite <- Hp; apply elem_of_app; by right).
    apply elem_of_seq in Hin. lia.
  - intros i j (k & -> & Hk)%list_elem_of_fmap Hj Hnot. rewrite elem_of_reverse in Hk.
    unfold score. rewrite Nat2Z.id.
    assert (Z.to_nat j ∈ seq 0 (length table)) as Hin by (apply elem_of_seq; lia).
    rewrite <- Hp in Hin. apply elem_of_app in Hin as [Hin|Hin].
    + by apply Hcross.
    + destruct Hnot. apply list_elem_of_fmap. exists (Z.to_nat j).
      split; [lia|by apply elem_of_reverse].
  - apply argsort_is_argsort.
  - done.
Qed.

(** An order that numpy's contract allows and the stable sort does not
    produce: on the table [[1, 1, 0, 0]] the two zeros and the two ones each
    come in either order. *)
Lemma unstable_order_is_argsort :
  is_argsort [q 1 1; q 1 1; q 0 1; q 0 1] [2; 3; 1; 0]%nat.
Proof.
  split.
  - apply NoDup_Permutation; [by compute_done|by compute_done|].
    intros x. rewrite !elem_of_cons, !elem_of_nil. simpl.
    rewrite !elem_of_cons, !elem_of_nil. lia.
  - repeat (apply SSorted_cons || apply SSorted_nil || apply Forall_cons
            || apply Forall_nil || split);
      by vm_compute.
Qed.

Lemma find_top_group_order_witness :
  let table := [q 1 1; q 1 1; q 0 1; q 0 1] in
  let order := [2; 3; 1; 0]%nat in
  (0 < 1 ∧ is_argsort table order)
  ∧ top_indices 1 order = [0]
  ∧ find_top_group 1 table = [1]
  ∧ StronglySorted (λ i j, (score table j ≤ score table i)%Qc) (top_indices 1 order).
Proof.
  intros table order.
  split; [split; [lia|apply unstable_order_is_argsort]|].
  split; [reflexivity|]. split; [reflexivity|].
  apply (find_top_group_order 1 table order); [lia|apply unstable_order_is_argsort].
Defined.

(** For a candidate that has neighbours the score is the average of the
    one-hop probabilities of its neighbours. *)
Lemma find_P_u_v_one_hop g h p u v ns :
  neighbors g v = Some ns → find_P_u_v g h p u v = Ok (one_hop g h p v).
Proof.
  intros Hv. unfold find_P_u_v, one_hop, neighbors_exn. rewrite Hv. simpl. f_equal.
  clear Hv. revert p. induction ns as [|a ns IH]; intros p; simpl.
  - unfold Qprod. simpl. ring.
  - rewrite IH. unfold hater_weight. destruct (h !! a) as [w|] eqn:Ha.
    + rewrite filter_cons_True by by rewrite Ha. csimpl. rewrite Ha.
      unfold Qprod. simpl. ring.
    + rewrite filter_cons_False by (rewrite Ha; by intros [? ?]). done.
Qed.

Lemma sum_friends_loop g h p u friends s :
  Forall (λ v, is_Some (neighbors g v)) friends →
  for_each_result
    (λ sum_friends_influence friend,
       p' ← find_P_u_v g h p u friend; Ok (sum_friends_influence + p')%Qc)
    s friends
  = Ok (s + Qsum (one_hop g h p <$> friends))%Qc.
Proof.
  intros Hf. revert s. induction Hf as [|v friends [ns Hv] _ IH]; intros s; simpl.
  - f_equal. unfold Qsum. simpl. by rewrite Qcplus_0_r.
  - rewrite (find_P_u_v_one_hop _ _ _ _ _ ns) by done. simpl. rewrite IH.
    f_equal. unfold Qsum. csimpl. symmetry. apply Qcplus_assoc.
Qed.

Lemma set_value_nil (u : Z) (x : Qc) :
  0 ≤ u → ∃ table, set_value [] u x = Ok table ∧ table !! Z.to_nat u = Some x.
Proof.
  intros Hu. unfold set_value.
  rewrite (bool_decide_eq_true_2 (Z.of_nat (length []) ≤ u)) by (simpl; lia).
  rewrite (bool_decide_eq_false_2 (u < 0)) by lia.
  rewrite app_nil_l, length_replicate.
  rewrite bool_decide_eq_true_2 by (simpl; lia).
  eexists. split; [done|].
  apply list_lookup_insert_eq. rewrite length_replicate. simpl. lia.
Qed.

Lemma find_average_influence_single g h p u friends :
  0 ≤ u →
  neighbors g u = Some friends →
  friends ≠ [] →
  Forall (λ v, is_Some (neighbors g v)) friends →
  ∃ table,
    find_average_influence g h [u] p = Ok table
    ∧ table !! Z.to_nat u
      = Some (Qsum (one_hop g h p <$> friends)
              / Qc_of_int (Z.of_nat (length friends)))%Qc.
Proof.
  intros Hu Hn Hne Hf. unfold find_average_influence. simpl.
  unfold neighbors_exn. rewrite Hn. simpl.
  rewrite sum_friends_loop by done. simpl.
  unfold true_div. rewrite bool_decide_eq_false_2 by (destruct friends; simpl; [done|lia]).
  simpl. rewrite Qcplus_0_l.
  destruct (set_value_nil u
              (Qsum (one_hop g h p <$> friends)
               / Qc_of_int (Z.of_nat (length friends)))%Qc Hu) as (table & Ht & Hl).
  exists table. by rewrite Ht.
Qed.

(** ** compute_spreadness *)

Section spreadness.

Variable graph : Graph.

Lemma spreadness_pair_lookup group acc i j u v :
  group !! i = Some u → group !! j = Some v →
  spreadness_pair graph group acc i j = add_pair graph acc (u, v).
Proof.
  intros Hi Hj. unfold spreadness_pair, add_pair, distance. rewrite Hi, Hj. simpl.
  destruct (has_path graph u v) eqn:Hp; [|done].
  apply bool_decide_eq_true in Hp as [d Hd]. by rewrite Hd.
Qed.

Lemma inner_loop group i u acc k s :
  group !! i = Some u →
  (s + k = length group)%nat →
  foldl (λ acc j, spreadness_pair graph group acc i j) acc (seq s k)
  = foldl (add_pair graph) acc (pair u <$> drop s group).
Proof.
  intros Hi. revert s acc. induction k as [|k IH]; intros s acc Hlen.
  - rewrite drop_ge by lia. done.
  - destruct (lookup_lt_is_Some_2 group s) as [v Hv]; [lia|].
    rewrite (drop_S _ v) by done. simpl.
    rewrite (spreadness_pair_lookup _ _ _ _ u v) by done.
    apply IH. lia.
Qed.

Lemma outer_loop group acc k s :
  (s + k = length group)%nat →
  foldl (λ acc i,
           foldl (λ acc j, spreadness_pair graph group acc i j)
                 acc (seq (i + 1) (length group - (i + 1))))
        acc (seq s k)
  = foldl (add_pair graph) acc (pairs (drop s group)).
Proof.
  revert s acc. induction k as [|k IH]; intros s acc Hlen.
  - rewrite drop_ge by lia. done.
  - destruct (lookup_lt_is_Some_2 group s) as [u Hu]; [lia|].
    rewrite (drop_S _ u) by done. simpl.
    rewrite foldl_app, (inner_loop _ _ u) by (done || lia).
    rewrite Nat.add_1_r. apply IH. lia.
Qed.

Lemma add_pair_totals ps acc :
  foldl (add_pair graph) acc ps
  = (acc.1 + foldr Z.add 0 (distance graph <$> filter (λ p, has_path graph p.1 p.2) ps),
     acc.2 + Z.of_nat (length (filter (λ p, has_path graph p.1 p.2) ps))).
Proof.
  revert acc. induction ps as [|p ps IH]; intros [t c]; simpl.
  - f_equal; lia.
  - rewrite IH. unfold add_pair. destruct (has_path graph p.1 p.2) eqn:Hp.
    + rewrite filter_cons_True by by rewrite Hp. csimpl. f_equal; lia.
    + rewrite filter_cons_False by (rewrite Hp; intros []). done.
Qed.

(** C7: [compute_spreadness] restricts the group to the nodes of the graph,
    returns 0 when fewer than two remain, infinity when no pair of them is
    connected, and otherwise the sum of the shortest-path distances of the
    connected pairs divided by the number of connected pairs. *)
Theorem compute_spreadness_spec (group : list Z) :
  compute_spreadness graph group = spreadness_spec graph group.
Proof.
  unfold compute_spreadness, spreadness_spec.
  set (members := filter (λ node, node ∈ nodes graph) group).
  case_bool_decide; [done|].
  rewrite (outer_loop members (0, 0) (length members) 0) by done.
  rewrite drop_0, add_pair_totals. simpl. fold (connected_pairs graph members).
  destruct (connected_pairs graph members) as [|p ps] eqn:Hc; [done|].
  rewrite bool_decide_eq_false_2 by (simpl; lia).
  by rewrite bool_decide_eq_false_2.
Qed.

End spreadness.

(** ** greedy_based_simulate *)

(** C4 (the loop ignores [p_base] and [rounds]): called with [p_base = 1],
    [rounds = 1] and one trial on the groups [[0, 5]] and [[1]] of the star
    graph, with every draw equal to 1/2, the estimates under the arguments
    given are 2 for [[0, 5]] and 3 for [[1]], yet the function returns
    [[0, 5]]: inside the loop the estimate of [[1]] is computed with [P_BASE]
    and [ROUNDS] and comes out as 1. *)
Theorem greedy_based_simulate_ignores_arguments :
  let rng := Rng.const (2 ^ 52) in
  let graph := Some star_graph in
  let haters : option (gmap Z Qc) := Some ∅ in
  value_of (greedy_based_simulate [[0; 5]; [1]] graph haters 1%Qc 1 1 rng)
  = Ok [0; 5]
  ∧ value_of (average_num_tests_simulates graph (Some [0; 5]) haters 1%Qc 1 1 rng)
    = Ok (Qc_of_int 2)
  ∧ value_of (average_num_tests_simulates graph (Some [1]) haters 1%Qc 1 1 rng)
    = Ok (Qc_of_int 3)
  ∧ value_of (average_num_tests_simulates graph (Some [1]) haters P_BASE ROUNDS 1 rng)
    = Ok (Qc_of_int 1).
Proof.
  split_and!.
  - vm_compute. reflexivity.
  - vm_compute. reflexivity.
  - vm_compute. reflexivity.
  - vm_compute. reflexivity.
Qed.

(** ** sampled_possible_groups *)

(** *** The shuffle permutes the pool *)

Lemma insert_swap_perm (x : list Z) (j : nat) (a b : Z) :
  x !! j = Some b → b :: <[j := a]> x ≡ₚ a :: x.
Proof.
  revert j. induction x as [|y x IH]; intros [|j] Hj; simplify_eq/=.
  - apply Permutation_swap.
  - rewrite Permutation_swap, (IH j) by done. apply Permutation_swap.
Qed.

Lemma swap_perm (x : list Z) (i j : nat) : swap x i j ≡ₚ x.
Proof.
  unfold swap. destruct (x !! i) as [a|] eqn:Hi; [|done].
  destruct (x !! j) as [b|] eqn:Hj; [|done].
  revert i j Hi Hj. induction x as [|y x IH]; intros [|i] [|j] Hi Hj; simplify_eq/=.
  - done.
  - by apply insert_swap_perm.
  - by apply insert_swap_perm.
  - by rewrite IH.
Qed.

Lemma shuffle_from_perm i x rng : (shuffle_from i x rng).1 ≡ₚ x.
Proof.
  revert x rng. induction i as [|i IH]; intros x rng; simpl; [done|].
  by rewrite IH, swap_perm.
Qed.

Lemma shuffle_perm x rng : (shuffle x rng).1 ≡ₚ x.
Proof. apply shuffle_from_perm. Qed.

(** *** One packing attempt *)

Lemma total_cost_snoc costs group node cost :
  costs !! node = Some cost →
  total_cost costs (group ++ [node]) = F64.add (total_cost costs group) cost.
Proof. intros Hc. unfold total_cost. rewrite foldl_app. simpl. by rewrite Hc. Qed.

Lemma sorted_perm group : sorted group ≡ₚ group.
Proof. apply merge_sort_Permutation. Qed.

Lemma within_budget_snoc costs budget group node cost :
  costs !! node = Some cost →
  within_budget costs budget group →
  F64.le_int (F64.add (total_cost costs group) cost) budget = true →
  within_budget costs budget (group ++ [node]).
Proof.
  intros Hc Hin Hfit k Hk. rewrite length_app in Hk. simpl in Hk.
  destruct (decide (k ≤ length group)%nat) as [Hle|Hgt].
  - rewrite take_app_le by done. apply Hin. lia.
  - rewrite take_ge by (rewrite length_app; simpl; lia).
    by rewrite (total_cost_snoc _ _ _ cost).
Qed.

Lemma sorted_packed pool costs budget group :
  NoDup group → group ⊆ pool →
  within_budget costs budget group →
  F64.eq_int (total_cost costs group) budget = true →
  packed_group pool costs budget (sorted group).
Proof.
  intros Hnd Hsub Hin Hcost. unfold packed_group. split_and!.
  - by rewrite sorted_perm.
  - apply Sorted_merge_sort. apply _.
  - intros x. rewrite sorted_perm. apply Hsub.
  - exists group. split; [by rewrite sorted_perm|done].
Qed.

(** A successful packing returns the nodes it kept, sorted; their running
    sum, in the order in which they were visited, never exceeded the budget
    and ended equal to it. *)
Lemma pack_packed costs budget rest group total t :
  NoDup (group ++ rest) →
  total = total_cost costs group →
  within_budget costs budget group →
  pack costs budget rest group total = Ok (Some t) →
  packed_group (group ++ rest) costs budget t.
Proof.
  revert group total.
  induction rest as [|node rest IH]; intros group total Hnd Htot Hin;
    simpl; [done|].
  destruct (costs !! node) as [cost|] eqn:Hcost; [|done].
  assert (NoDup ((group ++ [node]) ++ rest)) as Hnd1 by by rewrite <- app_assoc.
  assert (NoDup (group ++ rest)) as Hnd2.
  { apply NoDup_app in Hnd as (Hg & Hdis & [_ Hr]%NoDup_cons).
    apply NoDup_app. split_and!; [done| |done].
    intros x Hx Hxr. by apply (Hdis x); [|right]. }
  assert (∀ t, packed_group (group ++ rest) costs budget t →
               packed_group (group ++ node :: rest) costs budget t) as Hweak.
  { intros t' (? & ? & Hsub & ?). split_and!; try done.
    intros x Hx. apply Hsub in Hx. rewrite elem_of_app in Hx.
    rewrite elem_of_app, elem_of_cons. tauto. }
  destruct (F64.le_int (F64.add total cost) budget) eqn:Hfit.
  - assert (within_budget costs budget (group ++ [node])) as Hin1
      by (eapply within_budget_snoc; [done..|by rewrite <- Htot]).
    destruct (F64.eq_int (F64.add total cost) budget) eqn:Hfull.
    + intros [= <-]. apply sorted_packed.
      * by apply NoDup_app in Hnd1 as (? & _).
      * intros x Hx. rewrite elem_of_app, list_elem_of_singleton in Hx.
        rewrite elem_of_app, elem_of_cons. tauto.
      * done.
      * by rewrite (total_cost_snoc _ _ _ cost), <- Htot.
    + intros Hp. apply IH in Hp; [by rewrite <- app_assoc in Hp|done| |done].
      by rewrite (total_cost_snoc _ _ _ cost), Htot.
  - destruct (F64.eq_int total budget) eqn:Hfull.
    + intros [= <-]. apply Hweak, sorted_packed.
      * by apply NoDup_app in Hnd2 as (? & _).
      * intros x Hx. apply elem_of_app. by left.
      * done.
      * by rewrite <- Htot.
    + intros Hp. apply Hweak. by apply IH in Hp.
Qed.

Lemma pack_raises costs budget rest group total e :
  pack costs budget rest group total = Raise e →
  e = KeyError ∧ ∃ node, node ∈ rest ∧ costs !! node = None.
Proof.
  revert group total. induction rest as [|node rest IH]; intros group total;
    simpl; [done|].
  destruct (costs !! node) as [cost|] eqn:Hcost.
  - destruct (F64.le_int (F64.add total cost) budget);
      match goal with |- context [F64.eq_int ?x ?y] => destruct (F64.eq_int x y) end;
      try done;
      intros (-> & n & ? & ?)%IH; (split; [done|]); exists n;
      (split; [by right|done]).
  - intros [= <-]. split; [done|]. exists node. split; [left|done].
Qed.

(** *** The loop *)

Lemma sampling_true num_samples max_attempts st :
  sampling num_samples max_attempts st = true
  ↔ Z.of_nat (size (valid_samples st)) < num_samples ∧ attempts st < max_attempts.
Proof. unfold sampling. apply bool_decide_eq_true. Qed.

Lemma sampling_false num_samples max_attempts st :
  sampling num_samples max_attempts st = false
  ↔ num_samples ≤ Z.of_nat (size (valid_samples st)) ∨ max_attempts ≤ attempts st.
Proof. unfold sampling. rewrite bool_decide_eq_false. lia. Qed.

(** One run of the loop body: one more attempt, a shuffled pool, and at most
    one more group. *)
Lemma attempt_spec costs budget st :
  match attempt costs budget st with
  | Ok st' =>
      attempts st' = attempts st + 1
      ∧ initial_group st' ≡ₚ initial_group st
      ∧ (valid_samples st' = valid_samples st
         ∨ ∃ t, pack costs budget (initial_group st') [] F64.zero = Ok (Some t)
                ∧ valid_samples st' = {[t]} ∪ valid_samples st)
  | Raise e => e = KeyError ∧ ∃ node, node ∈ initial_group st ∧ costs !! node = None
  end.
Proof.
  unfold attempt.
  pose proof (shuffle_perm (initial_group st) (generator st)) as Hsh.
  destruct (shuffle (initial_group st) (generator st)) as [shuffled rng].
  simpl in Hsh.
  destruct (pack costs budget shuffled [] F64.zero) as [[t|]|e] eqn:Hpack; simpl.
  - split_and!; [done..|]. right. by exists t.
  - split_and!; [done..|]. by left.
  - apply pack_raises in Hpack as (-> & node & Hn & Hnone).
    split; [done|]. exists node. split; [by rewrite <- Hsh|done].
Qed.

Lemma size_add_one (t : list Z) (X : gset (list Z)) :
  (size ({[t]} ∪ X) ≤ size X + 1)%nat.
Proof.
  pose proof (size_union_alt {[t]} X) as Hu.
  pose proof (subseteq_size (X ∖ {[t]}) X) as Hs.
  rewrite size_singleton in Hu.
  assert (size (X ∖ {[t]}) ≤ size X)%nat
    by (apply Hs; intros x [? _]%elem_of_difference; done).
  lia.
Qed.

Section sampler_loop.

Variable costs : gmap Z F64.float.
Variable budget : Z.
Variable num_samples max_attempts : Z.
Variable pool : list Z.

(** A property of groups that every successful packing of a shuffled pool
    establishes. *)
Variable good : list Z → Prop.
Hypothesis pack_good : ∀ shuffled t,
  shuffled ≡ₚ pool → pack costs budget shuffled [] F64.zero = Ok (Some t) → good t.

Lemma sample_loop_spec fuel st :
  sampler_inv num_samples pool good st →
  (Z.to_nat (max_attempts - attempts st) ≤ fuel)%nat →
  ∃ r, sample_loop fuel costs budget num_samples max_attempts st = Some r
       ∧ sampler_post costs num_samples max_attempts pool good st r.
Proof.
  revert st. induction fuel as [|fuel IH]; intros st Hinv Hfuel.
  - simpl. destruct (sampling _ _ st) eqn:Hc.
    { apply sampling_true in Hc. lia. }
    apply sampling_false in Hc.
    exists (Ok st). split; [done|]. split_and!; [done|lia|lia|lia].
  - simpl. destruct (sampling _ _ st) eqn:Hc.
    2:{ apply sampling_false in Hc.
        exists (Ok st). split; [done|]. split_and!; [done|lia|lia|lia]. }
    apply sampling_true in Hc.
    destruct Hinv as (Hpool & Hgood & Hsize).
    pose proof (attempt_spec costs budget st) as Hatt.
    destruct (attempt costs budget st) as [st1|e].
    + destruct Hatt as (Hcount & Hperm & Hsamples).
      destruct (IH st1) as (r & Hr & Hpost).
      * split_and!.
        -- by rewrite Hperm.
        -- destruct Hsamples as [->|(t & Hpack & ->)]; [done|].
           intros t' [->%elem_of_singleton|?]%elem_of_union; [|by apply Hgood].
           eapply pack_good; [|done]. by rewrite Hperm.
        -- destruct Hsamples as [->|(t & Hpack & ->)]; [done|].
           pose proof (size_add_one t (valid_samples st)). lia.
      * lia.
      * exists r. split; [done|]. destruct r as [st'|e]; [|done].
        simpl in Hpost. destruct Hpost as (? & ? & ?). split_and!; [done|lia|lia|done].
    + exists (Raise e). split; [done|].
      destruct Hatt as (-> & node & Hn & Hnone).
      split; [done|]. exists node. split; [by rewrite <- Hpool|done].
Qed.

(** The loop is left at the first state, in the sequence of attempts, in
    which its condition fails. *)
Lemma sample_loop_first fuel st st' :
  sample_loop fuel costs budget num_samples max_attempts st = Some (Ok st') →
  ∃ n : nat,
    after_attempts n costs budget st = Ok st'
    ∧ attempts st' = attempts st + Z.of_nat n
    ∧ sampling num_samples max_attempts st' = false
    ∧ ∀ j : nat, (j < n)%nat →
        ∃ stj, after_attempts j costs budget st = Ok stj
               ∧ sampling num_samples max_attempts stj = true.
Proof.
  revert st. induction fuel as [|fuel IH]; intros st; simpl;
    destruct (sampling _ _ st) eqn:Hc; try done.
  - intros [= <-]. exists 0%nat. split_and!; [done|lia|done|lia].
  - pose proof (attempt_spec costs budget st) as Hatt.
    destruct (attempt costs budget st) as [st1|e] eqn:Hst1; [|done].
    destruct Hatt as (Hcount & _).
    intros (n & Hn & Hcnt & Hstop & Hbefore)%IH.
    exists (S n). split_and!.
    + simpl. by rewrite Hst1.
    + lia.
    + done.
    + intros [|j] Hj.
      * exists st. by split.
      * destruct (Hbefore j) as (stj & ? & ?); [lia|].
        exists stj. split; [|done]. simpl. by rewrite Hst1.
  - intros [= <-]. exists 0%nat. split_and!; [done|lia|done|lia].
Qed.

End sampler_loop.

(** *** The sampler as a whole *)

Lemma run_spec good pool costs budget num_samples rng :
  (∀ shuffled t, shuffled ≡ₚ pool →
     pack costs budget shuffled [] F64.zero = Ok (Some t) → good t) →
  ∃ r, sampled_possible_groups_run (Z.to_nat (num_samples * 100)) pool costs
         budget num_samples rng = Some r
       ∧ sampler_post costs num_samples (num_samples * 100) pool good
           (mk_sampler pool ∅ 0 rng) r.
Proof.
  intros Hgood. unfold sampled_possible_groups_run.
  apply sample_loop_spec; [done| |simpl; lia].
  split_and!; cbn [initial_group valid_samples]; [done| |].
  - intros t Ht. by apply elem_of_empty in Ht.
  - rewrite size_empty. lia.
Qed.

(** C6: the sampler always terminates within [num_samples * 100] iterations
    of its loop (that much fuel is enough for the model to return).  When it
    returns groups, the number of shuffle attempts made is at most the cap
    and the loop stopped as soon as it could: the state returned is the one
    reached after exactly that many attempts, and after every smaller number
    of attempts fewer than [num_samples] groups were held.  At most
    [num_samples] groups are returned, they are distinct, and if the cap was
    not reached exactly [num_samples] were collected; a cap reached first
    gives the groups found so far as an ordinary result.  The only exception
    the loop can raise is the [KeyError] of a pool node without a cost. *)
Theorem sampled_possible_groups_terminates
    (pool : list Z) (costs : gmap Z F64.float) (budget : Z) (num_samples : Z)
    (rng : Rng.t) :
  let cap := num_samples * 100 in
  let start := mk_sampler pool ∅ 0 rng in
  ∃ r, sampled_possible_groups_run (Z.to_nat cap) pool costs budget num_samples rng
       = Some r
       ∧ match r with
         | Ok st =>
             sampled_possible_groups (Z.to_nat cap) pool costs budget num_samples rng
             = Some (Ok (elements (valid_samples st)))
             ∧ 0 ≤ attempts st ≤ Z.max 0 cap
             ∧ after_attempts (Z.to_nat (attempts st)) costs budget start = Ok st
             ∧ (∀ j : nat, Z.of_nat j < attempts st →
                  ∃ stj, after_attempts j costs budget start = Ok stj
                         ∧ Z.of_nat (size (valid_samples stj)) < num_samples)
             ∧ Z.of_nat (length (elements (valid_samples st))) ≤ Z.max 0 num_samples
             ∧ (attempts st < cap →
                Z.of_nat (length (elements (valid_samples st))) = num_samples)
             ∧ NoDup (elements (valid_samples st))
         | Raise e => e = KeyError ∧ ∃ node, node ∈ pool ∧ costs !! node = None
         end.
Proof.
  intros cap start.
  destruct (run_spec (λ _, True) pool costs budget num_samples rng)
    as (r & Hr & Hpost); [done|].
  exists r. split; [done|]. destruct r as [st|e]; [|done].
  destruct Hpost as ((_ & _ & Hsize) & Hatt & Hfull). simpl in Hatt.
  fold cap in Hatt, Hfull.
  pose proof Hr as Hfirst. unfold sampled_possible_groups_run in Hfirst.
  apply sample_loop_first in Hfirst as (n & Hn & Hcount & _ & Hbefore).
  fold start in Hn, Hbefore. simpl in Hcount.
  change (length (elements (valid_samples st))) with (size (valid_samples st)).
  split_and!.
  - unfold sampled_possible_groups. subst cap. by rewrite Hr.
  - lia.
  - lia.
  - replace (Z.to_nat (attempts st)) with n by lia. done.
  - intros j Hj. destruct (Hbefore j) as (stj & ? & Hgo); [lia|].
    exists stj. split; [done|]. by apply sampling_true in Hgo as [? _].
  - lia.
  - intros Hlt. specialize (Hfull Hlt). lia.
  - apply NoDup_elements.
Qed.

(** C5 (the budget test is made on rounded running sums): with the costs
    1251.4, 103.4 and 145.2 for the nodes 1, 2 and 3 and the budget 1500, a
    shuffle that visits the pool in the order 3, 2, 1 adds the costs up to
    exactly [1500.0], so the sampler returns the group [[1; 2; 3]].  The
    total cost of that group is above the budget: the sum of its three costs
    is larger than 1500, and added in the order in which the group is
    returned they give a float above 1500, for which [submit_influencers]
    refuses the group. *)
Theorem sampled_possible_groups_over_budget :
  let pool := [1; 2; 3] in
  (shuffle pool reversing_rng).1 = [3; 2; 1]
  ∧ F64.eq_int (total_cost tight_costs [3; 2; 1]) 1500 = true
  ∧ sampled_possible_groups (Z.to_nat (1 * 100)) pool tight_costs 1500 1
      reversing_rng = Some (Ok [[1; 2; 3]])
  ∧ (∃ c, exact_cost tight_costs [1; 2; 3] = Some c ∧ (Qc_of_int 1500 < c)%Qc)
  ∧ F64.gt_int (total_cost tight_costs [1; 2; 3]) 1500 = true
  ∧ submit_influencers show_small [1; 2; 3] "1" "2" tight_costs ∅ None = None.
Proof.
  split_and!; try (vm_compute; reflexivity).
  eexists. split; [vm_compute; reflexivity|]. reflexivity.
Qed.

(** Two ascending duplicate-free lists with the same members are equal. *)
Lemma sorted_nodup_eq (l1 l2 : list Z) :
  NoDup l1 → Sorted Z.le l1 → NoDup l2 → Sorted Z.le l2 →
  (list_to_set l1 : gset Z) = list_to_set l2 → l1 = l2.
Proof.
  intros Hn1 Hs1 Hn2 Hs2 Heq.
  apply (Sorted_unique Z.le); [done..|].
  apply NoDup_Permutation; [done..|].
  intros x. by rewrite <- !(elem_of_list_to_set (C:=gset Z)), Heq.
Qed.

(** The cap can be reached with fewer groups than asked for: a partial
    result, returned as a list. *)
Example sampled_possible_groups_partial :
  sampled_possible_groups (Z.to_nat (3 * 100)) [1; 2; 3; 4] example_costs 3
    3 example_rng = Some (Ok [[1; 2]]).
Proof. vm_compute. reflexivity. Qed.

(** * The scenarios of the specification, run on the model *)

(** Triangle, no hater, [p_base = 1], seed 1, one round: all three nodes. *)
Example triangle_all_infected :
  (simulate_influence (Some triangle_graph) (Some [1]) (Some ∅) 1%Qc 1
     (Rng.const (2 ^ 53 - 1))).1 = 3.
Proof. vm_compute. reflexivity. Qed.

(** Path with the hater 2 of weight 1 in the middle: only the seed counts. *)
Example path_blocked_by_hater :
  (simulate_influence (Some path_graph) (Some [1]) (Some {[2 := 1%Qc]}) (q 1 2) 4
     (Rng.const 0)).1 = 1.
Proof. vm_compute. reflexivity. Qed.

(** No round: the distinct non-hater seeds. *)
Example no_round_counts_seeds :
  (simulate_influence (Some path_graph) (Some [1; 1; 2; 9]) (Some {[2 := 1%Qc]})
     P_BASE 0 (Rng.const 0)).1 = 2.
Proof. vm_compute. reflexivity. Qed.

(** Distances in the star: 2 and 3 are two steps apart; in [apart_graph]
    nothing connects 1 and 2. *)
Example star_distance :
  shortest_path_length star_graph 2 3 = Some 2%nat
  ∧ shortest_path_length apart_graph 1 2 = None.
Proof. split; reflexivity. Qed.

Example spreadness_scenarios :
  compute_spreadness star_graph [] = Fin 0%Qc
  ∧ compute_spreadness star_graph [2; 7] = Fin 0%Qc
  ∧ compute_spreadness apart_graph [1; 2] = Inf
  ∧ compute_spreadness star_graph [2; 3; 1] = Fin (q 4 3).
Proof. split_and!; vm_compute; reflexivity. Qed.

(** [find_top_group] on a table with a tie for the best score, and with
    [size = 0], where the slice [[-0:]] keeps the whole table. *)
Example find_top_group_runs :
  find_top_group 2 [q 1 1; q 3 1; q 2 1; q 3 1] = [3; 1]
  ∧ find_top_group 0 [q 1 1; q 2 1] = [1; 0].
Proof. split; reflexivity. Qed.

(** Scores of the candidates 1 and 3 of the star when 2 is a hater of
    weight 1/2: the table is indexed by node id and padded with zeros. *)
Example find_average_influence_star :
  find_average_influence star_graph {[2 := q 1 2]} [1; 3] P_BASE
  = Ok [0%Qc; q 1 5; 0%Qc; q 1 10].
Proof.
  vm_compute. f_equal.
  repeat (apply (f_equal2 cons); [by apply Qc_is_canon|]). reflexivity.
Qed.

(** * Further properties of the simulator *)

Lemma union_empty_r_gset (X : gset Z) : X ∪ ∅ = X.
Proof. apply (right_id_L ∅ (∪)). Qed.

Lemma Qprod_zero (l : list Qc) : 0%Qc ∈ l → Qprod l = 0%Qc.
Proof.
  unfold Qprod. induction l as [|x l IH]; intros Hin; [by apply elem_of_nil in Hin|].
  apply elem_of_cons in Hin as [<-|Hin]; simpl.
  - apply Qcmult_0_l.
  - rewrite IH by done. apply Qcmult_0_r.
Qed.

Section simulate_more.

Variable graph : Graph.
Variable haters : gmap Z Qc.

(** A pass in which no candidate can pass its draw adds nothing. *)
Lemma pass_adds_nothing p_base influenced_nodes l st :
  (∀ c ns, c ∈ l → exposed graph haters influenced_nodes c = true →
     neighbors graph c = Some ns →
     (infection_probability haters p_base
        (hater_neighbors_of haters (list_to_set ns))
        (influencing_of haters (list_to_set ns) influenced_nodes) ≤ 0)%Qc) →
  (foldl (try_candidate graph haters p_base influenced_nodes) st l).1 = st.1.
Proof.
  revert st. induction l as [|c l IH]; intros st Hl; simpl; [done|].
  rewrite IH by (intros c' ns ?; apply Hl; by right).
  destruct (exposed graph haters influenced_nodes c) eqn:Hex.
  - pose proof Hex as Hex'. unfold exposed in Hex'.
    destruct (neighbors graph c) as [ns|] eqn:Hns; [|by rewrite andb_false_r in Hex'].
    rewrite (try_candidate_exposed _ _ _ _ _ _ ns) by done.
    rewrite bool_decide_eq_false_2; [done|].
    apply Qcle_not_lt. eapply Qcle_trans; [by apply (Hl c ns); [left|..]|].
    apply nth_random_range.
  - by rewrite try_candidate_unexposed.
Qed.

Lemma infection_probability_zero_base H I :
  infection_probability haters 0%Qc H I = 0%Qc.
Proof.
  unfold infection_probability. rewrite Qprod_const, Qcmult_0_l.
  replace (1 - 0)%Qc with 1%Qc by ring. rewrite Qcpower_1. ring.
Qed.

Lemma rounds_loop_zero_base n st :
  (rounds_loop graph haters 0%Qc n st).1 = st.1.
Proof.
  induction n as [|n IH]; simpl; [done|].
  rewrite one_round_fst, IH. unfold newly_influenced.
  rewrite pass_adds_nothing; [apply union_empty_r_gset|].
  intros c ns _ _ _. rewrite infection_probability_zero_base. apply Qcle_refl.
Qed.

End simulate_more.

(** X1: With [p_base = 0] no node is ever infected: whatever the graph, the
    haters, the number of rounds and the draws, the count is the number of
    distinct non-hater seeds. *)
Theorem simulate_influence_zero_base
    (g : Graph) (init : list Z) (h : gmap Z Qc) (rounds : Z) (rng : Rng.t) :
  (simulate_influence (Some g) (Some init) (Some h) 0%Qc rounds rng).1
  = Z.of_nat (size (list_to_set init ∖ dom h : gset Z)).
Proof.
  rewrite simulate_influence_count. unfold influenced_after.
  by rewrite rounds_loop_zero_base.
Qed.

Section simulate_stable.

Variable graph : Graph.
Variable haters : gmap Z Qc.
Variable p_base : Qc.

Lemma pass_unexposed influenced_nodes l st :
  (∀ c, c ∈ l → exposed graph haters influenced_nodes c = false) →
  foldl (try_candidate graph haters p_base influenced_nodes) st l = st.
Proof.
  revert st. induction l as [|c l IH]; intros st Hl; simpl; [done|].
  rewrite try_candidate_unexposed by (apply Hl; by left).
  apply IH. intros c' ?. apply Hl. by right.
Qed.

Lemma rounds_loop_unexposed n influenced_nodes rng :
  (∀ c, c ∈ nodes graph → exposed graph haters influenced_nodes c = false) →
  rounds_loop graph haters p_base n (influenced_nodes, rng) = (influenced_nodes, rng).
Proof.
  intros Hun. induction n as [|n IH]; simpl; [done|]. rewrite IH.
  unfold one_round, newly_influenced. simpl. rewrite pass_unexposed by done.
  by rewrite union_empty_r_gset.
Qed.

Lemma rounds_loop_more n k st :
  (rounds_loop graph haters p_base n st).1
  ⊆ (rounds_loop graph haters p_base (n + k) st).1.
Proof.
  induction k as [|k IH]; [by rewrite Nat.add_0_r|].
  rewrite Nat.add_succ_r. simpl. etrans; [exact IH|apply one_round_grows].
Qed.

Lemma rounds_loop_within n st x :
  x ∈ (rounds_loop graph haters p_base n st).1 →
  x ∈ st.1 ∨ (x ∈ nodes graph ∧ haters !! x = None).
Proof.
  induction n as [|n IH]; simpl; [by left|].
  rewrite one_round_fst. intros [?|Hx]%elem_of_union; [by apply IH|].
  apply newly_influenced_fresh in Hx as (? & _ & Hh). right. split; [done|].
  by apply not_elem_of_dom.
Qed.

End simulate_stable.

(** X2: A run in which every node next to a non-hater seed is itself a seed or a
    hater never infects anyone: the count is the number of distinct
    non-hater seeds and no random draw is read, whatever [p_base] and
    [rounds]. *)
Theorem simulate_influence_no_exposure
    (g : Graph) (init : list Z) (h : gmap Z Qc) (p : Qc) (rounds : Z) (rng : Rng.t) :
  (∀ c ns u, neighbors g c = Some ns → u ∈ ns → u ∈ init → h !! u = None →
             c ∈ init ∨ is_Some (h !! c)) →
  simulate_influence (Some g) (Some init) (Some h) p rounds rng
  = (Z.of_nat (size (list_to_set init ∖ dom h : gset Z)), rng).
Proof.
  intros Hclosed. unfold simulate_influence.
  rewrite rounds_loop_unexposed; [done|].
  intros c _. unfold exposed.
  destruct (neighbors g c) as [ns|] eqn:Hns; [|apply andb_false_r].
  apply andb_false_iff.
  destruct (decide (c ∈ initial_set h init)) as [Hin|Hout].
  { left. apply bool_decide_eq_false. tauto. }
  destruct (h !! c) as [w|] eqn:Hc.
  { left. apply bool_decide_eq_false. intros [_ ?]. done. }
  right. apply bool_decide_eq_false. rewrite Exists_exists.
  intros (u & Hu & Hseed & Hnh). apply Hout.
  unfold initial_set, haters_set in Hseed |- *.
  apply elem_of_difference in Hseed as [Hseed%elem_of_list_to_set _].
  destruct (Hclosed c ns u Hns Hu Hseed Hnh) as [?|[? ?]]; [|congruence].
  apply elem_of_difference. split; [by apply elem_of_list_to_set|].
  by apply not_elem_of_dom.
Qed.

Lemma simulate_influence_no_exposure_witness :
  simulate_influence (Some path_graph) (Some [1]) (Some {[2 := 1%Qc]}) (q 1 2) 4
    (Rng.const 0)
  = (Z.of_nat (size (list_to_set [1] ∖ dom ({[2 := 1%Qc]} : gmap Z Qc) : gset Z)),
     Rng.const 0).
Proof.
  apply (simulate_influence_no_exposure path_graph [1] {[2 := 1%Qc]}).
  intros c ns u Hns Hu Hseed _.
  apply list_elem_of_singleton in Hseed as ->.
  unfold path_graph in Hns. simpl in Hns.
  repeat case_bool_decide; simplify_eq/=.
  - left. by apply list_elem_of_singleton.
  - right. by eexists.
  - by apply list_elem_of_singleton in Hu.
Defined.

(** X3: For the same generator, more rounds never give a smaller count: the run
    with [rounds'] rounds extends the run with [rounds] rounds. *)
Theorem simulate_influence_rounds_monotone
    (g : Graph) (init : list Z) (h : gmap Z Qc) (p : Qc) (rounds rounds' : Z)
    (rng : Rng.t) :
  rounds ≤ rounds' →
  (simulate_influence (Some g) (Some init) (Some h) p rounds rng).1
  ≤ (simulate_influence (Some g) (Some init) (Some h) p rounds' rng).1.
Proof.
  intros Hle. rewrite !simulate_influence_count. apply inj_le, subseteq_size.
  unfold influenced_after.
  replace (Z.to_nat rounds') with (Z.to_nat rounds + (Z.to_nat rounds' - Z.to_nat rounds))%nat
    by lia.
  apply rounds_loop_more.
Qed.

Lemma simulate_influence_rounds_monotone_witness :
  2 ≤ 5
  ∧ (simulate_influence (Some star_graph) (Some [1]) (Some ∅) P_BASE 2 (Rng.const 0)).1
    ≤ (simulate_influence (Some star_graph) (Some [1]) (Some ∅) P_BASE 5 (Rng.const 0)).1.
Proof.
  split; [lia|].
  apply (simulate_influence_rounds_monotone star_graph [1] ∅ P_BASE 2 5). lia.
Defined.

Lemma size_singleton_union_le `{Countable A} (x : A) (X : gset A) :
  (size ({[x]} ∪ X) ≤ S (size X))%nat.
Proof.
  rewrite size_union_alt, size_singleton.
  assert (size (X ∖ {[x]}) ≤ size X)%nat; [|lia].
  apply subseteq_size. intros y [? _]%elem_of_difference. done.
Qed.

Lemma size_list_to_set_le (l : list Z) :
  (size (list_to_set l : gset Z) ≤ length l)%nat.
Proof.
  induction l as [|x l IH]; [by rewrite list_to_set_nil, size_empty|].
  rewrite list_to_set_cons. cbn [length].
  pose proof (size_singleton_union_le x (list_to_set l)). lia.
Qed.

(** X4: Only seeds and nodes of the graph are ever counted, and never a hater:
    every member of the final influenced set is a non-hater seed or a
    non-hater node of the graph, so the count is at most the number of
    distinct seeds plus the number of nodes. *)
Theorem simulate_influence_upper_bound
    (g : Graph) (init : list Z) (h : gmap Z Qc) (p : Qc) (rounds : Z) (rng : Rng.t) :
  (∀ x, x ∈ influenced_after g h p init rng (Z.to_nat rounds) →
        h !! x = None ∧ (x ∈ init ∨ x ∈ nodes g))
  ∧ (simulate_influence (Some g) (Some init) (Some h) p rounds rng).1
    ≤ Z.of_nat (size (list_to_set init : gset Z)) + Z.of_nat (length (nodes g)).
Proof.
  assert (∀ x, x ∈ influenced_after g h p init rng (Z.to_nat rounds) →
               h !! x = None ∧ (x ∈ init ∨ x ∈ nodes g)) as Hmem.
  { intros x Hx. unfold influenced_after in Hx.
    apply rounds_loop_within in Hx as [Hx|[? ?]]; [|by auto].
    simpl in Hx. unfold initial_set, haters_set in Hx.
    apply elem_of_difference in Hx as [Hx%elem_of_list_to_set Hh%not_elem_of_dom].
    auto. }
  split; [done|].
  rewrite simulate_influence_count.
  assert (influenced_after g h p init rng (Z.to_nat rounds)
          ⊆ list_to_set init ∪ list_to_set (nodes g)) as Hsub.
  { intros x [_ [?|?]]%Hmem; apply elem_of_union; [left|right];
      by apply elem_of_list_to_set. }
  apply subseteq_size in Hsub.
  pose proof (size_union_alt (list_to_set init : gset Z) (list_to_set (nodes g))) as Hu.
  pose proof (subseteq_size (list_to_set (nodes g) ∖ list_to_set init : gset Z)
                (list_to_set (nodes g))) as Hd.
  pose proof (size_list_to_set_le (nodes g)) as Hn.
  assert (size (list_to_set (nodes g) ∖ list_to_set init : gset Z)
          ≤ size (list_to_set (nodes g) : gset Z))%nat
    by (apply Hd; intros x [? _]%elem_of_difference; done).
  lia.
Qed.

Section shield.

Variable graph : Graph.
Variable haters : gmap Z Qc.
Variable p_base : Qc.

(** The infection probability of a node that has a hater-neighbour of
    weight 1 is zero. *)
Lemma infection_probability_shielded ns a influenced_nodes :
  a ∈ ns → haters !! a = Some 1%Qc →
  infection_probability haters p_base
    (hater_neighbors_of haters (list_to_set ns))
    (influencing_of haters (list_to_set ns) influenced_nodes) = 0%Qc.
Proof.
  intros Ha Hw. unfold infection_probability.
  assert (dampening haters (hater_neighbors_of haters (list_to_set ns)) = 0%Qc) as ->.
  { unfold dampening. apply Qprod_zero. apply list_elem_of_fmap. exists a. split.
    - unfold hater_weight. rewrite Hw. simpl. ring.
    - apply elem_of_elements, elem_of_hater_neighbors_of. by split; [|eexists]. }
  rewrite Qprod_const, Qcmult_0_r.
  replace (1 - 0)%Qc with 1%Qc by ring. rewrite Qcpower_1. ring.
Qed.

Lemma pass_shielded c ns a influenced_nodes l st :
  neighbors graph c = Some ns → a ∈ ns → haters !! a = Some 1%Qc →
  c ∈ (foldl (try_candidate graph haters p_base influenced_nodes) st l).1 →
  c ∈ st.1.
Proof.
  intros Hns Ha Hw. revert st. induction l as [|c' l IH]; intros st; simpl; [done|].
  intros Hc%IH. destruct (decide (c' = c)) as [->|Hne].
  - destruct (exposed graph haters influenced_nodes c) eqn:Hex.
    + rewrite (try_candidate_exposed _ _ _ _ _ _ ns) in Hc by done.
      rewrite (infection_probability_shielded ns a) in Hc by done.
      rewrite bool_decide_eq_false_2 in Hc; [done|].
      apply Qcle_not_lt, nth_random_range.
    + by rewrite try_candidate_unexposed in Hc.
  - apply try_candidate_newly in Hc as [?|[? _]]; [done|congruence].
Qed.

Lemma rounds_loop_shielded c ns a n st :
  neighbors graph c = Some ns → a ∈ ns → haters !! a = Some 1%Qc →
  c ∈ (rounds_loop graph haters p_base n st).1 → c ∈ st.1.
Proof.
  intros Hns Ha Hw. induction n as [|n IH]; simpl; [done|].
  rewrite one_round_fst. intros [?|Hc]%elem_of_union; [by apply IH|].
  unfold newly_influenced in Hc.
  apply (pass_shielded c ns a) in Hc; [|done..]. by apply elem_of_empty in Hc.
Qed.

End shield.

(** X5: A node with a hater of weight 1 among its neighbours is never infected:
    unless it is a seed, it is in no influenced set of the run, whatever the
    draws. *)
Theorem hater_of_weight_one_shields
    (g : Graph) (init : list Z) (h : gmap Z Qc) (p : Qc) (rng : Rng.t)
    (c a : Z) (ns : list Z) (n : nat) :
  neighbors g c = Some ns →
  a ∈ ns →
  h !! a = Some 1%Qc →
  c ∉ init →
  c ∉ influenced_after g h p init rng n.
Proof.
  intros Hns Ha Hw Hc Hin. unfold influenced_after in Hin.
  apply (rounds_loop_shielded g h p c ns a) in Hin; [|done..].
  simpl in Hin. unfold initial_set in Hin.
  apply elem_of_difference in Hin as [Hin%elem_of_list_to_set _]. done.
Qed.

Lemma hater_of_weight_one_shields_witness :
  3 ∉ influenced_after triangle_graph {[2 := 1%Qc]} 1%Qc [1] (Rng.const 0) 4.
Proof.
  apply (hater_of_weight_one_shields triangle_graph [1] {[2 := 1%Qc]} 1%Qc
           (Rng.const 0) 3 2 [2; 1] 4).
  - reflexivity.
  - compute_done.
  - reflexivity.
  - compute_done.
Defined.

(** X6: With [p_base = 1], a node that is not influenced, not a hater, has no
    hater among its neighbours and has a non-hater influenced neighbour is
    infected in that very round, whatever the draws. *)
Theorem full_base_infects_exposed
    (g : Graph) (h : gmap Z Qc) (infl : gset Z) (rng : Rng.t) (c : Z) (ns : list Z) :
  c ∈ nodes g →
  c ∉ infl →
  h !! c = None →
  neighbors g c = Some ns →
  (∀ a, a ∈ ns → h !! a = None) →
  (∃ u, u ∈ ns ∧ u ∈ infl) →
  c ∈ (one_round g h 1%Qc (infl, rng)).1.
Proof.
  intros Hc Hci Hch Hns Hfree (u & Hu & Hui).
  rewrite one_round_fst. apply elem_of_union. right. simpl.
  apply list_elem_of_split in Hc as (pre & post & Hsplit).
  unfold newly_influenced. rewrite Hsplit, foldl_app. simpl.
  apply pass_keeps.
  assert (exposed g h infl c = true) as Hexp.
  { unfold exposed. rewrite Hns. apply andb_true_iff.
    split; apply bool_decide_eq_true; [done|].
    apply Exists_exists. exists u. auto. }
  rewrite (try_candidate_exposed _ _ _ _ _ _ ns) by done.
  rewrite bool_decide_eq_true_2; [apply elem_of_union; left; by apply elem_of_singleton|].
  assert (infection_probability h 1
            (hater_neighbors_of h (list_to_set ns))
            (influencing_of h (list_to_set ns) infl) = 1%Qc) as ->;
    [|apply nth_random_range].
  unfold infection_probability.
  assert (hater_neighbors_of h (list_to_set ns) = ∅) as ->.
  { apply set_eq. intros a. rewrite elem_of_hater_neighbors_of.
    split; [|by intros ?%elem_of_empty].
    intros [Ha [w Hw]]. rewrite (Hfree a Ha) in Hw. done. }
  unfold dampening. rewrite elements_empty. simpl.
  rewrite Qprod_const.
  assert (u ∈ elements (influencing_of h (list_to_set ns) infl)) as Hel.
  { apply elem_of_elements, elem_of_influencing_of. auto. }
  destruct (elements (influencing_of h (list_to_set ns) infl)) as [|x l];
    [by apply elem_of_nil in Hel|].
  unfold Qprod. simpl. ring.
Qed.

Lemma full_base_infects_exposed_witness :
  2 ∈ (one_round star_graph ∅ 1%Qc ({[1]}, Rng.const 0)).1.
Proof.
  apply (full_base_infects_exposed star_graph ∅ {[1]} (Rng.const 0) 2 [1]).
  - compute_done.
  - compute_done.
  - reflexivity.
  - reflexivity.
  - intros a _. reflexivity.
  - exists 1. split; compute_done.
Defined.

(** With [rounds <= 0] the round loop does not run: the count is the number
    of distinct non-hater seeds and the generator is left as it was. *)
Theorem simulate_influence_no_round
    (g : Graph) (init : list Z) (h : gmap Z Qc) (p : Qc) (rounds : Z) (rng : Rng.t) :
  rounds ≤ 0 →
  simulate_influence (Some g) (Some init) (Some h) p rounds rng
  = (Z.of_nat (size (list_to_set init ∖ dom h : gset Z)), rng).
Proof.
  intros Hr. unfold simulate_influence.
  by replace (Z.to_nat rounds) with 0%nat by lia.
Qed.

Lemma simulate_influence_no_round_witness :
  -3 ≤ 0
  ∧ simulate_influence (Some star_graph) (Some [1; 1; 7]) (Some ∅) P_BASE (-3)
      (Rng.const 0)
    = (2, Rng.const 0).
Proof.
  split; [lia|].
  exact (simulate_influence_no_round star_graph [1; 1; 7] ∅ P_BASE (-3) (Rng.const 0)
           ltac:(lia)).
Defined.

(** * Properties of the Monte-Carlo stage *)

Lemma Qc_of_int_Qc_of_Z (n : Z) : Qc_of_int n = Qc_of_Z n.
Proof. apply Qc_is_canon. simpl. apply Qred_correct. Qed.

Lemma Qc_of_int_0 : Qc_of_int 0 = 0%Qc.
Proof. by rewrite Qc_of_int_Qc_of_Z, Z2Qc_inj_0. Qed.

Lemma Qc_of_int_le (n m : Z) : n ≤ m ↔ (Qc_of_int n ≤ Qc_of_int m)%Qc.
Proof. rewrite !Qc_of_int_Qc_of_Z. apply Z2Qc_inj_le. Qed.

Lemma Qc_of_int_lt (n m : Z) : n < m ↔ (Qc_of_int n < Qc_of_int m)%Qc.
Proof. rewrite !Qc_of_int_Qc_of_Z. apply Z2Qc_inj_lt. Qed.

Lemma Qc_of_int_mul (n m : Z) : Qc_of_int (n * m) = (Qc_of_int n * Qc_of_int m)%Qc.
Proof. rewrite !Qc_of_int_Qc_of_Z. apply Z2Qc_inj_mul. Qed.

Lemma Qc_of_int_nonzero (n : Z) : n ≠ 0 → Qc_of_int n ≠ 0%Qc.
Proof.
  intros Hn. rewrite <- Qc_of_int_0, !Qc_of_int_Qc_of_Z. by intros ?%Z2Qc_inj.
Qed.

Lemma Qc_div_mul_cancel (t n : Z) :
  n ≠ 0 → (Qc_of_int t / Qc_of_int n * Qc_of_int n)%Qc = Qc_of_int t.
Proof.
  intros Hn. rewrite Qcmult_comm. apply Qcmult_div_r. by apply Qc_of_int_nonzero.
Qed.

(** A mean of [n] integers between [lo] and [hi] lies between [lo] and [hi]. *)
Lemma Qc_mean_bounds (t n lo hi : Z) :
  0 < n → n * lo ≤ t ≤ n * hi →
  (Qc_of_int lo ≤ Qc_of_int t / Qc_of_int n)%Qc
  ∧ (Qc_of_int t / Qc_of_int n ≤ Qc_of_int hi)%Qc.
Proof.
  intros Hn [Hlo Hhi].
  assert (0 < Qc_of_int n)%Qc as Hpos.
  { pose proof (proj1 (Qc_of_int_lt 0 n) Hn) as Hpos. by rewrite Qc_of_int_0 in Hpos. }
  assert (n ≠ 0) as Hn0 by lia.
  split; apply (Qcmult_le_mono_pos_r _ _ (Qc_of_int n) Hpos);
    rewrite (Qc_div_mul_cancel t n Hn0), <- Qc_of_int_mul;
    apply (proj1 (Qc_of_int_le _ _)); lia.
Qed.

(** The count of one run lies between the number of distinct non-hater seeds
    and that number plus the number of nodes. *)
Lemma simulate_influence_range g init h p rounds rng :
  let count := (simulate_influence (Some g) (Some init) (Some h) p rounds rng).1 in
  Z.of_nat (size (initial_set h init)) ≤ count
  ∧ count ≤ Z.of_nat (size (initial_set h init)) + Z.of_nat (length (nodes g)).
Proof.
  intros count. subst count. rewrite simulate_influence_count.
  unfold influenced_after. split.
  - apply inj_le, subseteq_size.
    apply (rounds_loop_grows g h p _ (initial_set h init, rng)).
  - set (final := (rounds_loop g h p (Z.to_nat rounds) (initial_set h init, rng)).1).
    assert (final ⊆ initial_set h init ∪ list_to_set (nodes g)) as Hsub.
    { intros x [?|[? _]]%rounds_loop_within; apply elem_of_union; [by left|right].
      by apply elem_of_list_to_set. }
    apply subseteq_size in Hsub.
    pose proof (size_union_alt (initial_set h init) (list_to_set (nodes g))) as Hu.
    pose proof (size_list_to_set_le (nodes g)) as Hn.
    assert (size (list_to_set (nodes g) ∖ initial_set h init : gset Z)
            ≤ size (list_to_set (nodes g) : gset Z))%nat
      by (apply subseteq_size; intros x [? _]%elem_of_difference; done).
    lia.
Qed.

Lemma trials_range g group h p rounds n total rng :
  let lo := Z.of_nat (size (initial_set h group)) in
  let hi := lo + Z.of_nat (length (nodes g)) in
  ∃ total' rng',
    trials n (Some g) (Some group) (Some h) p rounds total rng = Ok (total', rng')
    ∧ total + Z.of_nat n * lo ≤ total' ≤ total + Z.of_nat n * hi.
Proof.
  intros lo hi. revert total rng. induction n as [|n IH]; intros total rng.
  - exists total, rng. split; [done|lia].
  - pose proof (simulate_influence_range g group h p rounds rng) as Hr.
    cbv zeta in Hr. fold lo in Hr.
    cbn [trials]. unfold mbind, M_bind, lift_draw.
    destruct (simulate_influence (Some g) (Some group) (Some h) p rounds rng)
      as [count rng1] eqn:Hs. simpl in Hr.
    destruct (IH (total + count) rng1) as (total' & rng' & Ht & Hb).
    exists total', rng'. split; [done|]. subst hi. lia.
Qed.

(** X7: The estimate of a group over [num_tests >= 1] trials is returned (no
    exception) and lies between the number of distinct non-hater members of
    the group and that number plus the number of nodes of the graph. *)
Theorem average_num_tests_simulates_range
    (g : Graph) (group : list Z) (h : gmap Z Qc) (p : Qc) (rounds num_tests : Z)
    (rng : Rng.t) :
  0 < num_tests →
  ∃ average rng',
    average_num_tests_simulates (Some g) (Some group) (Some h) p rounds num_tests rng
    = Ok (average, rng')
    ∧ (Qc_of_int (Z.of_nat (size (list_to_set group ∖ dom h : gset Z))) ≤ average)%Qc
    ∧ (average ≤ Qc_of_int (Z.of_nat (size (list_to_set group ∖ dom h : gset Z))
                            + Z.of_nat (length (nodes g))))%Qc.
Proof.
  intros Hn. unfold average_num_tests_simulates.
  destruct (trials_range g group h p rounds (Z.to_nat num_tests) 0 rng)
    as (total & rng' & Ht & Hb).
  unfold mbind, M_bind. rewrite Ht. unfold lift_result, true_div.
  rewrite bool_decide_eq_false_2 by lia.
  eexists _, rng'. split; [done|].
  apply Qc_mean_bounds; [done|]. unfold initial_set, haters_set in Hb. lia.
Qed.

Lemma average_num_tests_simulates_range_witness :
  let seeds := Z.of_nat (size (list_to_set [1; 9] ∖ dom (∅ : gmap Z Qc) : gset Z)) in
  0 < 3
  ∧ ∃ average rng',
      average_num_tests_simulates (Some star_graph) (Some [1; 9]) (Some ∅) P_BASE
        ROUNDS 3 (Rng.const 0) = Ok (average, rng')
      ∧ (Qc_of_int seeds ≤ average)%Qc
      ∧ (average ≤ Qc_of_int (seeds + Z.of_nat (length (nodes star_graph))))%Qc.
Proof.
  split; [lia|].
  apply (average_num_tests_simulates_range star_graph [1; 9] ∅ P_BASE ROUNDS 3). lia.
Defined.

(** An invariant of the loop state is kept by a [for] loop whose every
    iteration keeps it. *)
Lemma for_each_invariant {A S} (P : S → Prop) (body : S → A → M S) l s rng s' rng' :
  (∀ s x r s1 r1, P s → x ∈ l → body s x r = Ok (s1, r1) → P s1) →
  P s →
  for_each body s l rng = Ok (s', rng') →
  P s'.
Proof.
  revert s rng. induction l as [|x l IH]; intros s rng Hbody Hs; simpl.
  - by intros [= <- _].
  - unfold mbind, M_bind. destruct (body s x rng) as [[s1 r1]|e] eqn:Hb; [|done].
    apply IH.
    + intros s2 y r s3 r3 ? ?. apply Hbody; [done|by right].
    + eapply Hbody; [done|by left|done].
Qed.

(** X8: Whatever [greedy_based_simulate] returns is one of the groups it was
    given. *)
Theorem greedy_based_simulate_member
    (possible_groups : list (list Z)) (graph : option Graph)
    (haters : option (gmap Z Qc)) (p : Qc) (rounds num_tests : Z)
    (rng rng' : Rng.t) (S_0 : list Z) :
  greedy_based_simulate possible_groups graph haters p rounds num_tests rng
  = Ok (S_0, rng') →
  S_0 ∈ possible_groups.
Proof.
  unfold greedy_based_simulate. destruct possible_groups as [|first rest]; [done|].
  unfold mbind, M_bind at 1.
  destruct (average_num_tests_simulates graph (Some first) haters p rounds num_tests rng)
    as [[average_max rng1]|e]; [|done].
  unfold M_bind.
  destruct (for_each _ (first, average_max) (first :: rest) rng1)
    as [[best rng2]|e] eqn:Hloop; [|done].
  intros [= <- _].
  revert Hloop. apply (for_each_invariant (λ best, best.1 ∈ first :: rest)).
  - intros s x r s1 r1 Hs Hx. unfold mbind, M_bind.
    destruct (average_num_tests_simulates _ _ _ _ _ _ r) as [[average r2]|e]; [|done].
    case_bool_decide; intros [= <- _]; done.
  - by left.
Qed.

Lemma greedy_based_simulate_member_witness :
  [0; 5] ∈ [[0; 5]; [1]].
Proof.
  apply (greedy_based_simulate_member [[0; 5]; [1]] (Some star_graph) (Some ∅) 1%Qc
           1 1 (Rng.const (2 ^ 52)) (Rng.mk (λ _, 2 ^ 52)%N 12) [0; 5]).
  vm_compute. reflexivity.
Defined.

(** The exceptions of the two functions: an estimate over [num_tests = 0]
    trials raises [ZeroDivisionError]; the selection raises [IndexError] on an
    empty list of groups and [ZeroDivisionError] when [num_tests = 0]. *)
Theorem greedy_based_simulate_raises
    (graph : option Graph) (haters : option (gmap Z Qc)) (p : Qc) (rounds : Z)
    (rng : Rng.t) (group : list Z) (rest : list (list Z)) :
  average_num_tests_simulates graph (Some group) haters p rounds 0 rng
  = Raise ZeroDivisionError
  ∧ greedy_based_simulate [] graph haters p rounds 0 rng = Raise IndexError
  ∧ greedy_based_simulate (group :: rest) graph haters p rounds 0 rng
    = Raise ZeroDivisionError.
Proof. done. Qed.

Lemma trials_missing graph group haters p rounds n total rng :
  graph = None ∨ haters = None →
  trials n graph group haters p rounds total rng = Ok (total, rng).
Proof.
  intros Hmiss. revert total. induction n as [|n IH]; intros total; [done|].
  cbn [trials]. unfold mbind, M_bind, lift_draw.
  assert (simulate_influence graph group haters p rounds rng = (0, rng)) as ->.
  { unfold simulate_influence. destruct Hmiss as [-> | ->]; [done|].
    by destruct graph, group. }
  rewrite IH. do 2 f_equal. lia.
Qed.

Lemma average_missing graph group haters p rounds num_tests rng :
  graph = None ∨ haters = None →
  num_tests ≠ 0 →
  average_num_tests_simulates graph group haters p rounds num_tests rng
  = Ok (0%Qc, rng).
Proof.
  intros Hmiss Hn. unfold average_num_tests_simulates, mbind, M_bind.
  rewrite trials_missing by done. unfold lift_result, true_div.
  rewrite bool_decide_eq_false_2 by done.
  do 2 f_equal. rewrite Qc_of_int_0. apply Qcmult_0_l.
Qed.

(** X9: Without a graph or without a hater map every estimate is 0, so the
    selection returns the first group and reads no random draw. *)
Theorem greedy_based_simulate_missing_data
    (first : list Z) (rest : list (list Z)) (graph : option Graph)
    (haters : option (gmap Z Qc)) (p : Qc) (rounds num_tests : Z) (rng : Rng.t) :
  graph = None ∨ haters = None →
  num_tests ≠ 0 →
  greedy_based_simulate (first :: rest) graph haters p rounds num_tests rng
  = Ok (first, rng).
Proof.
  intros Hmiss Hn. unfold greedy_based_simulate, mbind, M_bind.
  rewrite average_missing by done.
  assert (∀ l, for_each
            (λ (best : list Z * Qc) group,
               average ← average_num_tests_simulates graph (Some group) haters
                           P_BASE ROUNDS num_tests;
               if bool_decide (best.2 < average)%Qc then mret (group, average)
               else mret best)
            (first, 0%Qc) l rng = Ok ((first, 0%Qc), rng)) as Hloop.
  { induction l as [|x l IH]; [done|]. simpl. unfold mbind, M_bind.
    rewrite average_missing by done. simpl. exact IH. }
  unfold mbind, M_bind in Hloop. by rewrite Hloop.
Qed.

Lemma greedy_based_simulate_missing_data_witness :
  greedy_based_simulate [[4]; [1; 2]] None (Some ∅) P_BASE ROUNDS 10 (Rng.const 0)
  = Ok ([4], Rng.const 0).
Proof.
  apply (greedy_based_simulate_missing_data [4] [[1; 2]] None (Some ∅)).
  - by left.
  - lia.
Defined.

(** * Properties of the scoring stage *)

(** ** set_value *)

Lemma set_value_nonneg (lst : list Qc) (index : Z) (value : Qc) :
  0 ≤ index →
  ∃ table,
    set_value lst index value = Ok table
    ∧ length table = (length lst `max` (Z.to_nat index + 1))%nat
    ∧ table !! Z.to_nat index = Some value
    ∧ (∀ j, j ≠ Z.to_nat index → (j < length lst)%nat → table !! j = lst !! j)
    ∧ (∀ j, (length lst ≤ j)%nat → (j < Z.to_nat index)%nat → table !! j = Some 0%Qc).
Proof.
  intros Hi. unfold set_value.
  set (padded := if bool_decide (Z.of_nat (length lst) ≤ index)
                 then lst ++ replicate (Z.to_nat (index + 1 - Z.of_nat (length lst))) 0%Qc
                 else lst).
  assert (length padded = (length lst `max` (Z.to_nat index + 1))%nat) as Hlen.
  { subst padded. case_bool_decide; [|lia].
    rewrite length_app, length_replicate. lia. }
  rewrite (bool_decide_eq_false_2 (index < 0)) by lia.
  rewrite bool_decide_eq_true_2 by lia.
  eexists. split; [done|]. split_and!.
  - by rewrite length_insert.
  - apply list_lookup_insert_eq. lia.
  - intros j Hj Hlt. rewrite list_lookup_insert_ne by done.
    subst padded. case_bool_decide; [|done]. by rewrite lookup_app_l.
  - intros j Hge Hlt. rewrite list_lookup_insert_ne by lia.
    subst padded. rewrite bool_decide_eq_true_2 by lia.
    rewrite lookup_app_r by done. apply lookup_replicate_2. lia.
Qed.

(** X10: Writing at a non-negative index succeeds: the table is padded with zeros
    up to the index, the index holds the value, and every other entry of the
    table given is kept. *)
Theorem set_value_spec (lst : list Qc) (index : Z) (value : Qc) :
  0 ≤ index →
  ∃ table,
    set_value lst index value = Ok table
    ∧ length table = (length lst `max` (Z.to_nat index + 1))%nat
    ∧ table !! Z.to_nat index = Some value
    ∧ (∀ j, j ≠ Z.to_nat index → (j < length lst)%nat → table !! j = lst !! j)
    ∧ (∀ j, (length lst ≤ j)%nat → (j < Z.to_nat index)%nat → table !! j = Some 0%Qc).
Proof. apply set_value_nonneg. Qed.

Lemma set_value_spec_witness :
  0 ≤ 3
  ∧ ∃ table,
      set_value [q 1 2] 3 (q 1 5) = Ok table
      ∧ length table = (length [q 1 2] `max` (Z.to_nat 3 + 1))%nat
      ∧ table !! Z.to_nat 3 = Some (q 1 5)
      ∧ (∀ j, j ≠ Z.to_nat 3 → (j < length [q 1 2])%nat → table !! j = [q 1 2] !! j)
      ∧ (∀ j, (length [q 1 2] ≤ j)%nat → (j < Z.to_nat 3)%nat → table !! j = Some 0%Qc).
Proof.
  split; [lia|]. apply (set_value_spec [q 1 2] 3 (q 1 5)). lia.
Defined.

(** A negative index counts from the end of the table: within the table it
    overwrites that entry and keeps the length; before the start it raises
    [IndexError]. *)
Theorem set_value_negative_index (lst : list Qc) (index : Z) (value : Qc) :
  index < 0 →
  set_value lst index value
  = if bool_decide (- Z.of_nat (length lst) ≤ index)
    then Ok (<[Z.to_nat (Z.of_nat (length lst) + index) := value]> lst)
    else Raise IndexError.
Proof.
  intros Hi. unfold set_value.
  rewrite (bool_decide_eq_false_2 (Z.of_nat (length lst) ≤ index)) by lia.
  rewrite (bool_decide_eq_true_2 (index < 0)) by done.
  case_bool_decide.
  - rewrite bool_decide_eq_true_2 by lia. do 3 f_equal. lia.
  - by rewrite bool_decide_eq_false_2 by lia.
Qed.

Lemma set_value_negative_index_witness :
  -1 < 0
  ∧ set_value [q 1 2; q 1 3] (-1) (q 1 5) = Ok [q 1 2; q 1 5]
  ∧ set_value [q 1 2; q 1 3] (-3) (q 1 5) = Raise IndexError.
Proof.
  split; [lia|]. split.
  - by rewrite (set_value_negative_index [q 1 2; q 1 3] (-1) (q 1 5)) by lia.
  - by rewrite (set_value_negative_index [q 1 2; q 1 3] (-3) (q 1 5)) by lia.
Defined.

(** ** find_P_u_v and find_average_influence *)

Lemma Qc_scale_range (x c : Qc) :
  (0 ≤ x)%Qc → (0 ≤ c)%Qc → (c ≤ 1)%Qc → (0 ≤ x * c)%Qc ∧ (x * c ≤ x)%Qc.
Proof.
  intros Hx Hc0 Hc1. split.
  - rewrite <- (Qcmult_0_l c). by apply Qcmult_le_compat_r.
  - rewrite <- (Qcmult_1_r x) at 2. by apply Qcmult_le_mono_nonneg_l.
Qed.

Lemma damped_range (h : gmap Z Qc) (p0 p : Qc) (friends : list Z) :
  (∀ a w, h !! a = Some w → (0 ≤ w)%Qc ∧ (w ≤ 1)%Qc) →
  (0 ≤ p)%Qc → (p ≤ p0)%Qc →
  let r := foldl (λ P_u_v friend,
                    match h !! friend with
                    | Some w => (P_u_v * (1 - w))%Qc
                    | None => P_u_v
                    end) p friends in
  (0 ≤ r)%Qc ∧ (r ≤ p0)%Qc.
Proof.
  intros Hw. revert p. induction friends as [|a friends IH]; intros p Hp0 Hp1; simpl;
    [done|].
  destruct (h !! a) as [w|] eqn:Ha; [|by apply IH].
  destruct (Hw a w Ha) as [Hw0 Hw1].
  destruct (Qc_scale_range p (1 - w)) as [H0 H1]; [done| | |].
  - exact (proj1 (Qcle_minus_iff w 1) Hw1).
  - apply (proj2 (Qcle_minus_iff (1 - w) 1)).
    replace (1 + - (1 - w))%Qc with w by ring. done.
  - apply IH; [done|]. by eapply Qcle_trans.
Qed.

Lemma one_hop_range (g : Graph) (h : gmap Z Qc) (p : Qc) (v : Z) (ns : list Z) :
  (0 ≤ p)%Qc →
  (∀ a w, h !! a = Some w → (0 ≤ w)%Qc ∧ (w ≤ 1)%Qc) →
  neighbors g v = Some ns →
  (0 ≤ one_hop g h p v)%Qc ∧ (one_hop g h p v ≤ p)%Qc.
Proof.
  intros Hp Hw Hv.
  pose proof (find_P_u_v_one_hop g h p 0 v ns Hv) as Heq.
  unfold find_P_u_v, neighbors_exn in Heq. rewrite Hv in Heq. simpl in Heq.
  injection Heq as <-. apply (damped_range h p p ns); [done..|apply Qcle_refl].
Qed.

(** X11: The probability [find_P_u_v] computes does not depend on [u]; when
    [p_base >= 0] and every hater weight lies in [0, 1] it lies in
    [0, p_base].  It raises [NetworkXError] exactly when [v] is not a node. *)
Theorem find_P_u_v_range (g : Graph) (h : gmap Z Qc) (p : Qc) (u v : Z) :
  (0 ≤ p)%Qc →
  (∀ a w, h !! a = Some w → (0 ≤ w)%Qc ∧ (w ≤ 1)%Qc) →
  match find_P_u_v g h p u v with
  | Ok x => is_Some (neighbors g v) ∧ x = one_hop g h p v ∧ (0 ≤ x)%Qc ∧ (x ≤ p)%Qc
  | Raise e => e = NetworkXError ∧ neighbors g v = None
  end.
Proof.
  intros Hp Hw. destruct (neighbors g v) as [ns|] eqn:Hv.
  - rewrite (find_P_u_v_one_hop g h p u v ns Hv).
    split; [by eexists|]. split; [done|]. by eapply one_hop_range.
  - unfold find_P_u_v, neighbors_exn. rewrite Hv. done.
Qed.

Lemma find_P_u_v_range_witness :
  match find_P_u_v star_graph {[2 := q 1 2]} P_BASE 3 1 with
  | Ok x =>
      is_Some (neighbors star_graph 1) ∧ x = one_hop star_graph {[2 := q 1 2]} P_BASE 1
      ∧ (0 ≤ x)%Qc ∧ (x ≤ P_BASE)%Qc
  | Raise e => e = NetworkXError ∧ neighbors star_graph 1 = None
  end.
Proof.
  apply (find_P_u_v_range star_graph {[2 := q 1 2]} P_BASE 3 1).
  - compute_done.
  - intros a w [_ <-]%lookup_singleton_Some. split; compute_done.
Defined.

(** The body of the candidate loop on a scorable candidate. *)
Lemma score_candidate g h p table u :
  scorable g u →
  (friends ← neighbors_exn g u;
   sum_friends_influence ←
     for_each_result
       (λ sum_friends_influence friend,
          p' ← find_P_u_v g h p u friend; Ok (sum_friends_influence + p')%Qc)
       0%Qc friends;
   average ← true_div sum_friends_influence (Z.of_nat (length friends));
   set_value table u average)
  = set_value table u (average_influence g h p u).
Proof.
  intros (Hu & friends & Hn & Hne & Hf).
  unfold average_influence, neighbors_exn. rewrite Hn. simpl.
  rewrite sum_friends_loop by done. simpl. unfold true_div.
  rewrite bool_decide_eq_false_2 by (destruct friends; simpl; [done|lia]).
  simpl. by rewrite Qcplus_0_l.
Qed.

(** What the table holds while the candidates are scored. *)
Lemma find_average_influence_loop g h p costs done_before table :
  Forall (scorable g) costs →
  (∀ u, u ∈ done_before → 0 ≤ u ∧ table !! Z.to_nat u = Some (average_influence g h p u)) →
  (∀ j, (j < length table)%nat → Z.of_nat j ∉ done_before → table !! j = Some 0%Qc) →
  (∀ j, (j < length table)%nat → ∃ u, u ∈ done_before ∧ Z.of_nat j ≤ u) →
  ∃ table',
    for_each_result
      (λ list_average_influence user_id,
         friends ← neighbors_exn g user_id;
         sum_friends_influence ←
           for_each_result
             (λ sum_friends_influence friend,
                p' ← find_P_u_v g h p user_id friend;
                Ok (sum_friends_influence + p')%Qc)
             0%Qc friends;
         average ← true_div sum_friends_influence (Z.of_nat (length friends));
         set_value list_average_influence user_id average)
      table costs = Ok table'
    ∧ (∀ u, u ∈ done_before ++ costs →
         table' !! Z.to_nat u = Some (average_influence g h p u))
    ∧ (∀ j, (j < length table')%nat → Z.of_nat j ∉ done_before ++ costs →
         table' !! j = Some 0%Qc)
    ∧ (∀ j, (j < length table')%nat → ∃ u, u ∈ done_before ++ costs ∧ Z.of_nat j ≤ u).
Proof.
  intros Hcosts. revert done_before table.
  induction Hcosts as [|u costs Hu _ IH]; intros done_before table Hdone Hzero Hmax.
  - exists table. rewrite app_nil_r. split; [done|]. split_and!; [|done..].
    intros u Hin. by apply Hdone.
  - cbn [for_each_result]. rewrite score_candidate by done.
    pose proof Hu as [Hu0 _].
    destruct (set_value_nonneg table u (average_influence g h p u) Hu0)
      as (table1 & -> & Hlen & Hat & Hkeep & Hpad).
    simpl.
    destruct (IH (done_before ++ [u]) table1) as (table' & Hrun & H1 & H2 & H3).
    + intros u' [Hin| ->%list_elem_of_singleton]%elem_of_app; [|done].
      destruct (Hdone u' Hin) as [Hu' Hval]. split; [done|].
      destruct (decide (Z.to_nat u' = Z.to_nat u)) as [Heq|Hne].
      * assert (u' = u) as -> by lia. done.
      * rewrite Hkeep; [done..|]. by eapply lookup_lt_Some.
    + intros j Hj Hnot.
      assert (j ≠ Z.to_nat u) as Hne.
      { intros ->. apply Hnot, elem_of_app. right. apply list_elem_of_singleton. lia. }
      destruct (decide (j < length table)%nat) as [Hlt|Hge].
      * rewrite Hkeep by done. apply Hzero; [done|].
        intros ?. apply Hnot, elem_of_app. by left.
      * apply Hpad; lia.
    + intros j Hj. destruct (decide (j < length table)%nat) as [Hlt|Hge].
      * destruct (Hmax j Hlt) as (u' & ? & ?). exists u'.
        split; [apply elem_of_app; by left|done].
      * exists u. split; [apply elem_of_app; right; by apply list_elem_of_singleton|lia].
    + exists table'. rewrite <- app_assoc in H1, H2, H3. by split_and!.
Qed.

(** X12: When every candidate is a non-negative node with at least one neighbour
    (and the neighbours are nodes), [find_average_influence] returns a table
    indexed by node id: it has an entry at the id of every candidate, every
    entry at an id that is not a candidate is the padding 0, and the table
    is just long enough to hold the largest candidate.  (What the entry of a
    candidate is worth is left out here: it is a rounded mean.) *)
Theorem find_average_influence_table
    (g : Graph) (h : gmap Z Qc) (costs : list Z) (p : Qc) :
  Forall (scorable g) costs →
  ∃ table,
    find_average_influence g h costs p = Ok table
    ∧ (∀ u, u ∈ costs → 0 ≤ u < Z.of_nat (length table))
    ∧ (∀ j, (j < length table)%nat → Z.of_nat j ∉ costs → table !! j = Some 0%Qc)
    ∧ (∀ j, (j < length table)%nat → ∃ u, u ∈ costs ∧ Z.of_nat j ≤ u).
Proof.
  intros Hcosts.
  destruct (find_average_influence_loop g h p costs [] [] Hcosts)
    as (table & Hrun & H1 & H2 & H3).
  - intros u Hin. by apply elem_of_nil in Hin.
  - intros j Hj. simpl in Hj. lia.
  - intros j Hj. simpl in Hj. lia.
  - exists table. split_and!; [done| |done..].
    intros u Hu. rewrite Forall_forall in Hcosts. destruct (Hcosts u Hu) as [Hu0 _].
    apply H1, lookup_lt_Some in Hu. lia.
Qed.

Lemma find_average_influence_table_witness :
  Forall (scorable star_graph) [1; 3]
  ∧ ∃ table,
      find_average_influence star_graph {[2 := q 1 2]} [1; 3] P_BASE = Ok table
      ∧ (∀ u, u ∈ [1; 3] → 0 ≤ u < Z.of_nat (length table))
      ∧ (∀ j, (j < length table)%nat → Z.of_nat j ∉ [1; 3] → table !! j = Some 0%Qc)
      ∧ (∀ j, (j < length table)%nat → ∃ u, u ∈ [1; 3] ∧ Z.of_nat j ≤ u).
Proof.
  assert (Forall (scorable star_graph) [1; 3]) as Hs.
  { repeat constructor; try lia.
    - exists [2; 3]. split_and!; [reflexivity|done|]. repeat constructor; by eexists.
    - exists [1]. split_and!; [reflexivity|done|]. repeat constructor; by eexists. }
  split; [done|].
  exact (find_average_influence_table star_graph {[2 := q 1 2]} [1; 3] P_BASE Hs).
Defined.

(** X13: [find_average_influence] returns a table only if every candidate is a
    node of the graph with at least one neighbour: a candidate missing from
    the graph raises [NetworkXError], one without neighbours raises
    [ZeroDivisionError]. *)
Theorem find_average_influence_needs_neighbours
    (g : Graph) (h : gmap Z Qc) (costs : list Z) (p : Qc) (table : list Qc) :
  find_average_influence g h costs p = Ok table →
  ∀ u, u ∈ costs → ∃ friends, neighbors g u = Some friends ∧ friends ≠ [].
Proof.
  unfold find_average_influence. generalize (@nil Qc) as acc.
  induction costs as [|c costs IH]; intros acc Hrun u Hu; [by apply elem_of_nil in Hu|].
  cbn [for_each_result] in Hrun. unfold mbind at 1, result_bind at 1 in Hrun.
  match type of Hrun with
  | match ?body with _ => _ end = _ => destruct body as [acc'|e] eqn:Hbody; [|done]
  end.
  apply elem_of_cons in Hu as [->|Hu]; [|by eapply IH].
  unfold neighbors_exn in Hbody.
  destruct (neighbors g c) as [friends|]; [|done].
  exists friends. split; [done|]. intros ->. simpl in Hbody. done.
Qed.

Lemma find_average_influence_needs_neighbours_witness :
  ∃ friends, neighbors star_graph 3 = Some friends ∧ friends ≠ [].
Proof.
  apply (find_average_influence_needs_neighbours star_graph {[2 := q 1 2]} [1; 3] P_BASE
           [0%Qc; q 1 5; 0%Qc; q 1 10]).
  - vm_compute. f_equal.
    repeat (apply (f_equal2 cons); [by apply Qc_is_canon|]). reflexivity.
  - compute_done.
Defined.

Lemma Qsum_range (l : list Qc) (lo hi : Qc) :
  Forall (λ x, (lo ≤ x)%Qc ∧ (x ≤ hi)%Qc) l →
  (Qc_of_int (Z.of_nat (length l)) * lo ≤ Qsum l)%Qc
  ∧ (Qsum l ≤ Qc_of_int (Z.of_nat (length l)) * hi)%Qc.
Proof.
  unfold Qsum. induction 1 as [|x l [Hlo Hhi] _ [IHlo IHhi]].
  - cbn [length foldr]. change (Z.of_nat 0) with 0.
    rewrite Qc_of_int_0, !Qcmult_0_l. split; apply Qcle_refl.
  - cbn [length foldr].
    assert (Qc_of_int (Z.of_nat (S (length l))) = 1 + Qc_of_int (Z.of_nat (length l)))%Qc
      as ->.
    { rewrite Nat2Z.inj_succ, !Qc_of_int_Qc_of_Z, <- Z2Qc_inj_1, <- Z2Qc_inj_add.
      f_equal. lia. }
    rewrite !Qcmult_plus_distr_l, !Qcmult_1_l.
    split; by apply Qcplus_le_compat.
Qed.

Lemma Qc_mean_range (l : list Qc) (lo hi : Qc) :
  l ≠ [] →
  Forall (λ x, (lo ≤ x)%Qc ∧ (x ≤ hi)%Qc) l →
  (lo ≤ Qsum l / Qc_of_int (Z.of_nat (length l)))%Qc
  ∧ (Qsum l / Qc_of_int (Z.of_nat (length l)) ≤ hi)%Qc.
Proof.
  intros Hne Hl. destruct (Qsum_range l lo hi Hl) as [Hlo Hhi].
  set (n := Qc_of_int (Z.of_nat (length l))) in *.
  assert (0 < n)%Qc as Hpos.
  { subst n. rewrite <- Qc_of_int_0. apply (proj1 (Qc_of_int_lt _ _)).
    destruct l; simpl; [done|lia]. }
  assert (Qsum l / n * n = Qsum l)%Qc as Hcancel.
  { rewrite Qcmult_comm. apply Qcmult_div_r. by apply not_symmetry, Qclt_not_eq. }
  split; apply (Qcmult_le_mono_pos_r _ _ n Hpos); rewrite Hcancel;
    by rewrite Qcmult_comm.
Qed.

(** ** find_top_group *)

(** X15: Whatever [size] is, the ids returned are pairwise distinct indices of the
    table. *)
Theorem find_top_group_distinct (size : Z) (table : list Qc) :
  NoDup (find_top_group size table)
  ∧ Forall (λ i, 0 ≤ i < Z.of_nat (length table)) (find_top_group size table).
Proof.
  unfold find_top_group, slice_from.
  set (k := Z.to_nat _).
  assert (NoDup (argsort table)) as Hnd.
  { rewrite argsort_perm. apply NoDup_seq. }
  rewrite <- (take_drop k (argsort table)) in Hnd.
  apply NoDup_app in Hnd as (_ & _ & Hnd).
  split.
  - apply NoDup_fmap; [intros x y; apply Nat2Z.inj|]. by rewrite reverse_Permutation.
  - apply Forall_fmap, Forall_forall. intros i Hi. simpl.
    rewrite elem_of_reverse in Hi.
    assert (i ∈ seq 0 (length table)) as Hin.
    { rewrite <- argsort_perm, <- (take_drop k (argsort table)).
      apply elem_of_app. by right. }
    apply elem_of_seq in Hin. lia.
Qed.

(** X14: For [size <= 0] the slice [[-size:]] does not take the last entries but
    drops the first [-size]: [size = 0] returns an id for every entry of the
    table, and [size = -k] returns [len(table) - k] ids. *)
Theorem find_top_group_nonpositive_size (size : Z) (table : list Qc) :
  size ≤ 0 →
  length (find_top_group size table) = (length table - Z.to_nat (- size))%nat.
Proof.
  intros Hs. unfold find_top_group, slice_from.
  rewrite bool_decide_eq_false_2 by lia.
  rewrite length_fmap, length_reverse, length_drop.
  assert (length (argsort table) = length table) as ->
    by by rewrite argsort_perm, length_seq.
  lia.
Qed.

Lemma find_top_group_nonpositive_size_witness :
  0 ≤ 0
  ∧ length (find_top_group 0 [q 1 1; q 2 1; q 1 2]) = (3 - Z.to_nat (- 0))%nat.
Proof.
  split; [lia|].
  apply (find_top_group_nonpositive_size 0 [q 1 1; q 2 1; q 1 2]). lia.
Defined.

(** * Properties of the degree filter *)

Lemma has_node_neighbors g n : has_node g n = true ↔ is_Some (neighbors g n).
Proof.
  unfold has_node, nodes. rewrite bool_decide_eq_true.
  induction g as [|[m ns] g IH]; simpl.
  - split; [by intros ?%elem_of_nil|by intros [? ?]].
  - rewrite elem_of_cons. case_bool_decide as Hm; simpl in *.
    + split; [by eexists|by left].
    + rewrite <- IH. split; [by intros [?|?]|by right].
Qed.

Lemma degree_totals g cs t c :
  foldl (λ (acc : Z * Z) node,
           if has_node g node then (acc.1 + degree g node, acc.2 + 1) else acc)
        (t, c) cs
  = (t + foldr Z.add 0 (degree g <$> filter (λ node, has_node g node) cs),
     c + Z.of_nat (length (filter (λ node, has_node g node) cs))).
Proof.
  revert t c. induction cs as [|node cs IH]; intros t c; simpl.
  - f_equal; lia.
  - destruct (has_node g node) eqn:Hn.
    + rewrite filter_cons_True by by rewrite Hn. rewrite IH. csimpl. f_equal; lia.
    + rewrite filter_cons_False by (rewrite Hn; intros []). apply IH.
Qed.

(** [average_neighbors_in_costs_nodes] returns [None] exactly when the graph
    or the costs are missing; otherwise 0 when no cost node is in the graph,
    and else the sum of the degrees of the cost nodes that are in the graph
    divided by their number. *)
Theorem average_neighbors_in_costs_nodes_spec (g : Graph) (cs : list Z) :
  let members := filter (λ node, has_node g node) cs in
  average_neighbors_in_costs_nodes (Some g) (Some cs)
  = Some (if bool_decide (members = []) then 0%Qc
          else (Qc_of_int (foldr Z.add 0%Z (degree g <$> members))
                / Qc_of_int (Z.of_nat (length members)))%Qc)
  ∧ (∀ costs, average_neighbors_in_costs_nodes None costs = None)
  ∧ (∀ graph, average_neighbors_in_costs_nodes graph None = None).
Proof.
  intros members. split_and!.
  - unfold average_neighbors_in_costs_nodes. rewrite degree_totals. fold members.
    destruct members as [|m ms]; [done|].
    rewrite bool_decide_eq_false_2 by (simpl; lia).
    by rewrite bool_decide_eq_false_2.
  - done.
  - by intros [].
Qed.

Lemma filter_high_degree_loop g average cs acc :
  foldl (λ high_degree_nodes node,
           if has_node g node && bool_decide (average ≤ Qc_of_int (degree g node))%Qc
           then high_degree_nodes ++ [node]
           else high_degree_nodes)
        acc cs
  = acc ++ filter (λ node, has_node g node ∧ (average ≤ Qc_of_int (degree g node))%Qc) cs.
Proof.
  revert acc. induction cs as [|node cs IH]; intros acc; simpl.
  - by rewrite app_nil_r.
  - rewrite IH. destruct (has_node g node) eqn:Hn; simpl.
    + case_bool_decide as Hd.
      * rewrite filter_cons_True by (by rewrite Hn). by rewrite <- app_assoc.
      * rewrite filter_cons_False; [done|]. intros [_ ?]. done.
    + rewrite filter_cons_False; [done|]. rewrite Hn. intros [[] _].
Qed.

(** X16: [filter_high_degree_nodes] keeps, in the order of [costs], exactly the
    cost nodes that are in the graph and whose degree is at least [average];
    without a graph or without costs it returns the empty list. *)
Theorem filter_high_degree_nodes_spec (g : Graph) (cs : list Z) (average : Qc) :
  filter_high_degree_nodes (Some g) (Some cs) average
  = filter (λ node, has_node g node ∧ (average ≤ Qc_of_int (degree g node))%Qc) cs
  ∧ filter_high_degree_nodes (Some g) (Some cs) average `sublist_of` cs
  ∧ (∀ node, node ∈ filter_high_degree_nodes (Some g) (Some cs) average
             ↔ node ∈ cs ∧ node ∈ nodes g ∧ (average ≤ Qc_of_int (degree g node))%Qc)
  ∧ (∀ costs, filter_high_degree_nodes None costs average = [])
  ∧ (∀ graph, filter_high_degree_nodes graph None average = []).
Proof.
  assert (filter_high_degree_nodes (Some g) (Some cs) average
          = filter (λ node, has_node g node ∧ (average ≤ Qc_of_int (degree g node))%Qc) cs)
    as Heq.
  { unfold filter_high_degree_nodes. by rewrite filter_high_degree_loop. }
  rewrite Heq. split_and!; [done| | |done|by intros []].
  - apply sublist_filter.
  - intros node. rewrite list_elem_of_filter. unfold has_node.
    rewrite bool_decide_spec. tauto.
Qed.

Lemma Qc_lt_mean (d t n : Z) :
  0 < n → (Qc_of_int d < Qc_of_int t / Qc_of_int n)%Qc → d * n < t.
Proof.
  intros Hn Hlt.
  assert (0 < Qc_of_int n)%Qc as Hpos.
  { pose proof (proj1 (Qc_of_int_lt 0 n) Hn) as Hpos. by rewrite Qc_of_int_0 in Hpos. }
  apply (proj1 (Qcmult_lt_mono_pos_r _ _ (Qc_of_int n) Hpos)) in Hlt.
  rewrite (Qc_div_mul_cancel t n) in Hlt by lia.
  rewrite <- Qc_of_int_mul in Hlt. by apply Qc_of_int_lt.
Qed.

Lemma sum_below (f : Z → Z) (l : list Z) (n t : Z) :
  Forall (λ x, f x * n < t) l →
  foldr Z.add 0 (f <$> l) * n ≤ Z.of_nat (length l) * (t - 1).
Proof.
  induction 1 as [|x l Hx _ IH]; csimpl; [lia|]. nia.
Qed.

(** X17: The two stages composed: when some cost node is in the graph, filtering
    by the average that [average_neighbors_in_costs_nodes] returned keeps at
    least one node; and when that average is positive every node kept has at
    least one neighbour (so scoring it cannot divide by zero). *)
Theorem degree_filter_after_average (g : Graph) (cs : list Z) (average : Qc) :
  average_neighbors_in_costs_nodes (Some g) (Some cs) = Some average →
  (∃ node, node ∈ cs ∧ node ∈ nodes g) →
  filter_high_degree_nodes (Some g) (Some cs) average ≠ []
  ∧ ((0 < average)%Qc →
     ∀ u, u ∈ filter_high_degree_nodes (Some g) (Some cs) average →
          ∃ friends, neighbors g u = Some friends ∧ friends ≠ []).
Proof.
  intros Havg (node & Hcs & Hg).
  unfold filter_high_degree_nodes. rewrite filter_high_degree_loop. simpl.
  split.
  - unfold average_neighbors_in_costs_nodes in Havg. rewrite degree_totals in Havg.
    simpl in Havg.
    set (members := filter (λ node, has_node g node) cs) in *.
    assert (node ∈ members) as Hm.
    { apply list_elem_of_filter. split; [|done]. unfold has_node.
      by rewrite bool_decide_eq_true_2. }
    assert (0 < Z.of_nat (length members)) as Hlen.
    { destruct members; [by apply elem_of_nil in Hm|simpl; lia]. }
    rewrite !Z.add_0_l in Havg.
    rewrite bool_decide_eq_false_2 in Havg by lia. injection Havg as <-.
    intros Hempty.
    assert (Forall (λ x, degree g x * Z.of_nat (length members)
                         < foldr Z.add 0 (degree g <$> members)) members) as Hall.
    { apply Forall_forall. intros x Hx. apply Qc_lt_mean; [done|].
      apply Qcnot_le_lt. intros Hle.
      apply list_elem_of_filter in Hx as [Hx1 Hx2].
      eapply elem_of_nil. rewrite <- Hempty.
      apply list_elem_of_filter. split; [split; [exact Hx1|exact Hle]|exact Hx2]. }
    apply sum_below in Hall. nia.
  - intros Hpos u [[Hn%Is_true_true Hd] _]%list_elem_of_filter.
    apply has_node_neighbors in Hn as [friends Hf].
    exists friends. split; [done|]. intros ->.
    unfold degree in Hd. rewrite Hf in Hd.
    change (Qc_of_int (Z.of_nat (length (default [] (Some (@nil Z))))))
      with (Qc_of_int 0) in Hd.
    rewrite Qc_of_int_0 in Hd.
    by apply Qcle_not_lt in Hd.
Qed.

Lemma degree_filter_after_average_witness :
  filter_high_degree_nodes (Some star_graph) (Some [1; 2; 8]) (q 3 2) ≠ [].
Proof.
  apply (degree_filter_after_average star_graph [1; 2; 8] (q 3 2)).
  - vm_compute. reflexivity.
  - exists 1. split; compute_done.
Defined.

(** * Properties of the two ranking stages *)

Section sort_desc.

Context {A K : Type} (le : K → K → bool) (key : A → K).
Hypothesis le_total : ∀ x y, le x y = true ∨ le y x = true.
Hypothesis le_trans : ∀ x y z, le x y = true → le y z = true → le x z = true.

Lemma insert_desc_perm x l : insert_desc le key x l ≡ₚ x :: l.
Proof.
  induction l as [|y l IH]; simpl; [done|].
  destruct (le (key y) (key x)); [done|]. rewrite IH. apply Permutation_swap.
Qed.

Lemma sort_desc_perm l : sort_desc le key l ≡ₚ l.
Proof.
  induction l as [|x l IH]; simpl; [done|]. by rewrite insert_desc_perm, IH.
Qed.

Lemma insert_desc_sorted x l :
  StronglySorted (λ a b, le (key b) (key a) = true) l →
  StronglySorted (λ a b, le (key b) (key a) = true) (insert_desc le key x l).
Proof.
  induction 1 as [|y l Hl IH Hy]; simpl; [repeat constructor|].
  destruct (le (key y) (key x)) eqn:Hyx.
  - constructor; [by constructor|]. constructor; [done|].
    eapply Forall_impl; [exact Hy|]. intros z Hz. simpl in Hz. by eapply le_trans.
  - constructor; [done|]. rewrite insert_desc_perm. constructor; [|done].
    destruct (le_total (key x) (key y)); [done|congruence].
Qed.

Lemma sort_desc_sorted l :
  StronglySorted (λ a b, le (key b) (key a) = true) (sort_desc le key l).
Proof.
  induction l as [|x l IH]; simpl; [constructor|]. by apply insert_desc_sorted.
Qed.

Lemma sort_desc_ties l :
  (∀ a b, a ∈ l → b ∈ l → le (key a) (key b) = true) → sort_desc le key l = l.
Proof.
  induction l as [|x l IH]; intros Hl; simpl; [done|].
  rewrite IH by (intros a b ? ?; apply Hl; by right).
  destruct l as [|y l]; simpl; [done|].
  by rewrite Hl by (by left || by right; left).
Qed.

End sort_desc.

Lemma insert_desc_fmap {A B K} (le : K → K → bool) (key : B → K) (h : A → B) x l :
  insert_desc le key (h x) (h <$> l) = h <$> insert_desc le (key ∘ h) x l.
Proof.
  induction l as [|y l IH]; csimpl; [done|].
  destruct (le (key (h y)) (key (h x))); csimpl; [done|]. by rewrite IH.
Qed.

Lemma sort_desc_fmap {A B K} (le : K → K → bool) (key : B → K) (h : A → B) l :
  sort_desc le key (h <$> l) = h <$> sort_desc le (key ∘ h) l.
Proof.
  induction l as [|x l IH]; csimpl; [done|].
  by rewrite IH, insert_desc_fmap.
Qed.

Lemma slice_to_fmap {A B} (h : A → B) (stop : Z) (l : list A) :
  slice_to stop (h <$> l) = h <$> slice_to stop l.
Proof. unfold slice_to. by rewrite length_fmap, fmap_take. Qed.

Lemma slice_to_nonneg {A} (stop : Z) (l : list A) :
  0 ≤ stop → slice_to stop l = take (Z.to_nat stop) l.
Proof.
  intros Hs. unfold slice_to. rewrite bool_decide_eq_false_2 by lia.
  destruct (decide (stop ≤ Z.of_nat (length l))).
  - f_equal. lia.
  - rewrite !take_ge by lia. done.
Qed.

Lemma pyfloat_le_total x y : pyfloat_le x y = true ∨ pyfloat_le y x = true.
Proof.
  destruct x as [a|], y as [b|]; simpl; auto.
  destruct (Qclt_le_dec b a) as [Hlt|Hle].
  - right. apply bool_decide_eq_true. by apply Qclt_le_weak.
  - left. by apply bool_decide_eq_true.
Qed.

Lemma pyfloat_le_trans x y z :
  pyfloat_le x y = true → pyfloat_le y z = true → pyfloat_le x z = true.
Proof.
  destruct x as [a|], y as [b|], z as [c|]; simpl; try done.
  rewrite !bool_decide_eq_true. apply Qcle_trans.
Qed.

(** What [top_spreadness] computes: the first [k] groups of the stable
    descending sort of the groups by their score. *)
Lemma top_spreadness_sorted_slice groups g (f : Graph → list Z → pyfloat) k :
  top_spreadness groups g f k = slice_to k (sort_desc pyfloat_le (f g) groups).
Proof.
  unfold top_spreadness.
  rewrite (sort_desc_fmap pyfloat_le snd (λ group, (group, f g group))).
  rewrite slice_to_fmap, <- list_fmap_compose. apply list_fmap_id.
Qed.

(** X18: For [k >= 0], [top_spreadness] returns [min(k, len(valid_groups))] of the
    groups given, in order of non-increasing score with infinity first, and
    the groups left out score no higher than any group returned; groups with
    equal scores keep the order they were given in. *)
Theorem top_spreadness_spec
    (groups : list (list Z)) (g : Graph) (f : Graph → list Z → pyfloat) (k : Z) :
  0 ≤ k →
  let res := top_spreadness groups g f k in
  length res = (Z.to_nat k `min` length groups)%nat
  ∧ StronglySorted (λ a b, pyfloat_le (f g b) (f g a) = true) res
  ∧ (∃ rest, res ++ rest ≡ₚ groups
             ∧ ∀ a b, a ∈ res → b ∈ rest → pyfloat_le (f g b) (f g a) = true)
  ∧ ((∀ a b, a ∈ groups → b ∈ groups → f g a = f g b) →
     res = take (Z.to_nat k) groups).
Proof.
  intros Hk res. subst res. rewrite top_spreadness_sorted_slice, slice_to_nonneg by done.
  pose proof (sort_desc_perm pyfloat_le (f g) groups) as Hp.
  pose proof (sort_desc_sorted pyfloat_le (f g) pyfloat_le_total pyfloat_le_trans groups)
    as Hs.
  rewrite <- (take_drop (Z.to_nat k) (sort_desc pyfloat_le (f g) groups)) in Hs, Hp.
  apply StronglySorted_app in Hs as (Hcross & Hs & _).
  split_and!.
  - rewrite length_take. by rewrite (Permutation_length (sort_desc_perm _ _ groups)).
  - done.
  - eexists. split; [exact Hp|]. intros a b Ha Hb. by apply Hcross.
  - intros Hties. rewrite sort_desc_ties; [done|].
    intros a b Ha Hb. rewrite (Hties a b Ha Hb).
    destruct (pyfloat_le_total (f g b) (f g b)); done.
Qed.

Lemma top_spreadness_spec_witness :
  0 ≤ 3
  ∧ StronglySorted
      (λ a b, pyfloat_le (compute_spreadness star_graph b)
                (compute_spreadness star_graph a) = true)
      (top_spreadness [[2; 3]; [1]; [1; 2]; [2; 3; 1]] star_graph compute_spreadness 3).
Proof.
  split; [lia|].
  apply (top_spreadness_spec [[2; 3]; [1]; [1; 2]; [2; 3; 1]] star_graph
           compute_spreadness 3). lia.
Defined.

(** ** top_sum_influence *)

Lemma group_influence_sum_no_match table group acc :
  (∀ node, node ∈ group → Qc_of_int node ∉ table) →
  for_each_result
    (λ acc node,
       if bool_decide (Qc_of_int node ∈ table)
       then x ← list_index table node; Ok (acc + x)%Qc
       else Ok acc)
    acc group = Ok acc.
Proof.
  induction group as [|node group IH]; intros Hg; simpl; [done|].
  rewrite bool_decide_eq_false_2 by (apply Hg; by left). simpl.
  apply IH. intros n ?. apply Hg. by right.
Qed.

Lemma group_sums_no_match table groups acc :
  (∀ group node, group ∈ groups → node ∈ group → Qc_of_int node ∉ table) →
  for_each_result
    (λ group_influence_sums group,
       group_sum ← group_influence_sum table group;
       Ok (group_influence_sums ++ [(group, group_sum)]))
    acc groups
  = Ok (acc ++ ((λ group, (group, 0%Qc)) <$> groups)).
Proof.
  revert acc. induction groups as [|group groups IH]; intros acc Hg; simpl.
  - by rewrite app_nil_r.
  - unfold group_influence_sum.
    rewrite group_influence_sum_no_match by (intros n ?; eapply Hg; [by left|done]).
    simpl. rewrite IH by (intros grp n ? ?; eapply Hg; [by right|done]).
    by rewrite <- app_assoc.
Qed.

Lemma top_sum_influence_no_match groups table t :
  (∀ group node, group ∈ groups → node ∈ group → Qc_of_int node ∉ table) →
  top_sum_influence groups table t = Ok (slice_to t groups).
Proof.
  intros Hg. unfold top_sum_influence. rewrite group_sums_no_match by done. simpl.
  f_equal. rewrite sort_desc_ties.
  - rewrite slice_to_fmap, <- list_fmap_compose. apply list_fmap_id.
  - intros a b (ga & -> & _)%list_elem_of_fmap (gb & -> & _)%list_elem_of_fmap.
    simpl. unfold Qc_le. apply bool_decide_eq_true, Qcle_refl.
Qed.

Lemma integer_not_fraction (node : Z) (x : Qc) :
  node ≠ 0 → (0 ≤ x)%Qc → (x < 1)%Qc → Qc_of_int node ≠ x.
Proof.
  intros Hn H0 H1 <-.
  rewrite <- Qc_of_int_0 in H0. apply Qc_of_int_le in H0.
  assert (Qc_of_int 1 = 1%Qc) as H1' by (by apply Qc_is_canon).
  rewrite <- H1' in H1. apply Qc_of_int_lt in H1. lia.
Qed.

(** X19: The membership test of [top_sum_influence] compares node ids with the
    scores themselves.  So when every score lies in [0, 1) and no group
    contains the node 0, every group sum is 0 and the stage returns the first
    [t] groups in the order given: it does not rank by influence. *)
Theorem top_sum_influence_keeps_order
    (groups : list (list Z)) (table : list Qc) (t : Z) :
  Forall (λ x, (0 ≤ x)%Qc ∧ (x < 1)%Qc) table →
  Forall (λ group, 0 ∉ group) groups →
  top_sum_influence groups table t = Ok (slice_to t groups).
Proof.
  intros Htable Hgroups. apply top_sum_influence_no_match.
  intros group node Hgroup Hnode Hin.
  rewrite Forall_forall in Htable. rewrite Forall_forall in Hgroups.
  destruct (Htable _ Hin) as [H0 H1].
  apply (integer_not_fraction node (Qc_of_int node)); [|done..].
  intros ->. by apply (Hgroups group).
Qed.

Lemma top_sum_influence_keeps_order_witness :
  top_sum_influence [[1; 2]; [3]; [2; 3]] [0%Qc; q 1 5; 0%Qc; q 1 10] 2
  = Ok (slice_to 2 [[1; 2]; [3]; [2; 3]]).
Proof.
  apply (top_sum_influence_keeps_order [[1; 2]; [3]; [2; 3]]
           [0%Qc; q 1 5; 0%Qc; q 1 10] 2).
  - repeat constructor; compute_done.
  - repeat constructor; compute_done.
Defined.

(** X20: The scoring stage and the ranking stage composed: with
    [0 <= p_base < 1] and hater weights in [0, 1], ranking groups that do not
    contain the node 0 by the table [find_average_influence] returns gives
    back the first [t] groups unchanged. *)
Theorem top_sum_influence_after_scoring
    (g : Graph) (h : gmap Z Qc) (costs : list Z) (p : Qc)
    (groups : list (list Z)) (t : Z) :
  (0 ≤ p)%Qc → (p < 1)%Qc →
  (∀ a w, h !! a = Some w → (0 ≤ w)%Qc ∧ (w ≤ 1)%Qc) →
  Forall (scorable g) costs →
  Forall (λ group, 0 ∉ group) groups →
  ∃ table,
    find_average_influence g h costs p = Ok table
    ∧ top_sum_influence groups table t = Ok (slice_to t groups).
Proof.
  intros Hp0 Hp1 Hw Hcosts Hgroups.
  destruct (find_average_influence_loop g h p costs [] [] Hcosts)
    as (table & Hrun & H1 & H2 & _).
  { intros u Hin. by apply elem_of_nil in Hin. }
  { intros j Hj. simpl in Hj. lia. }
  { intros j Hj. simpl in Hj. lia. }
  exists table. split; [done|].
  apply top_sum_influence_no_match.
  intros group node Hgroup Hnode Hin.
  apply list_elem_of_lookup in Hin as [j Hj].
  assert ((0 ≤ Qc_of_int node)%Qc ∧ (Qc_of_int node < 1)%Qc) as [Hn0 Hn1].
  { destruct (decide (Z.of_nat j ∈ costs)) as [Hc|Hc].
    - rewrite Forall_forall in Hcosts.
      destruct (Hcosts _ Hc) as (_ & friends & Hn & Hne & Hf).
      specialize (H1 _ Hc). rewrite Nat2Z.id, Hj in H1.
      assert (Qc_of_int node = average_influence g h p (Z.of_nat j)) as ->
        by congruence.
      unfold average_influence. rewrite Hn.
      rewrite <- (length_fmap (one_hop g h p) friends).
      destruct (Qc_mean_range (one_hop g h p <$> friends) 0%Qc p) as [? ?].
      + by destruct friends.
      + apply Forall_fmap, Forall_forall. intros v Hv. simpl.
        rewrite Forall_forall in Hf. destruct (Hf v Hv) as [ns Hns].
        by eapply one_hop_range.
      + split; [done|]. by eapply Qcle_lt_trans.
    - rewrite (H2 j) in Hj; [|by eapply lookup_lt_Some|done].
      assert (Qc_of_int node = 0%Qc) as -> by congruence.
      split; [apply Qcle_refl|done]. }
  apply (integer_not_fraction node (Qc_of_int node)); [|done..].
  intros ->. rewrite Forall_forall in Hgroups. by apply (Hgroups group).
Qed.

Lemma top_sum_influence_after_scoring_witness :
  ∃ table,
    find_average_influence star_graph {[2 := q 1 2]} [1; 3] P_BASE = Ok table
    ∧ top_sum_influence [[1; 3]; [3]] table 1 = Ok (slice_to 1 [[1; 3]; [3]]).
Proof.
  apply (top_sum_influence_after_scoring star_graph {[2 := q 1 2]} [1; 3] P_BASE
           [[1; 3]; [3]] 1).
  - compute_done.
  - compute_done.
  - intros a w [_ <-]%lookup_singleton_Some. split; compute_done.
  - repeat constructor; try lia.
    + exists [2; 3]. split_and!; [reflexivity|done|]. repeat constructor; by eexists.
    + exists [1]. split_and!; [reflexivity|done|]. repeat constructor; by eexists.
  - repeat constructor; compute_done.
Defined.

(** * Further properties of the sampler and of the spreadness score *)

(** X21: For a pool of distinct nodes that all have a cost, the sampler
    returns a list of groups; each group is duplicate-free, ascending and
    drawn from the pool, and its members can be put in an order (the order
    in which the shuffle visited them) along which the running binary64 sum
    of their costs never exceeds the budget and ends equal to it.  No two of
    the returned groups have the same set of members. *)
Theorem sampled_possible_groups_packed
    (pool : list Z) (costs : gmap Z F64.float) (budget : Z) (num_samples : Z)
    (rng : Rng.t) :
  NoDup pool →
  Forall (λ node, is_Some (costs !! node)) pool →
  ∃ groups,
    sampled_possible_groups (Z.to_nat (num_samples * 100)) pool costs budget
      num_samples rng = Some (Ok groups)
    ∧ Forall (λ group,
                NoDup group ∧ Sorted Z.le group ∧ group ⊆ pool
                ∧ ∃ visited, visited ≡ₚ group
                    ∧ within_budget costs budget visited
                    ∧ F64.eq_int (total_cost costs visited) budget = true) groups
    ∧ NoDup (list_to_set <$> groups : list (gset Z)).
Proof.
  intros Hnd Hcosts.
  destruct (run_spec (packed_group pool costs budget) pool costs budget
              num_samples rng) as (r & Hr & Hpost).
  { intros shuffled t Hsh Hpack.
    apply pack_packed in Hpack;
      [|by simpl; rewrite Hsh|done|by intros k Hk; simpl in Hk; lia].
    destruct Hpack as (? & ? & Hsub & ?). split_and!; try done.
    intros x Hx. apply Hsub in Hx. simpl in Hx. by rewrite Hsh in Hx. }
  destruct r as [st|e].
  2:{ destruct Hpost as (_ & node & Hin & Hnone).
      rewrite Forall_forall in Hcosts. apply Hcosts in Hin as [? Hsome]. congruence. }
  destruct Hpost as ((_ & Hgood & _) & _).
  exists (elements (valid_samples st)). split_and!.
  - unfold sampled_possible_groups. by rewrite Hr.
  - apply Forall_forall. intros group Hg%elem_of_elements. by apply Hgood.
  - apply NoDup_fmap_2_strong; [|apply NoDup_elements].
    intros g1 g2 Hg1%elem_of_elements Hg2%elem_of_elements Heq.
    destruct (Hgood g1 Hg1) as (? & ? & _), (Hgood g2 Hg2) as (? & ? & _).
    by apply sorted_nodup_eq.
Qed.

Lemma sampled_possible_groups_packed_witness :
  let pool := [1; 2; 3; 4] in
  ∃ groups,
    sampled_possible_groups (Z.to_nat (3 * 100)) pool example_costs 3
      3 example_rng = Some (Ok groups)
    ∧ Forall (λ group,
                NoDup group ∧ Sorted Z.le group ∧ group ⊆ pool
                ∧ ∃ visited, visited ≡ₚ group
                    ∧ within_budget example_costs 3 visited
                    ∧ F64.eq_int (total_cost example_costs visited) 3 = true) groups
    ∧ NoDup (list_to_set <$> groups : list (gset Z)).
Proof.
  apply (sampled_possible_groups_packed [1; 2; 3; 4] example_costs 3 3 example_rng);
    compute_done.
Defined.

(** X22: Nothing to sample: with [num_samples <= 0] or an empty pool the sampler
    returns the empty list (an ordinary result, not an exception). *)
Theorem sampled_possible_groups_nothing
    (pool : list Z) (costs : gmap Z F64.float) (budget : Z) (num_samples : Z)
    (rng : Rng.t) :
  num_samples ≤ 0 ∨ pool = [] →
  sampled_possible_groups (Z.to_nat (num_samples * 100)) pool costs budget
    num_samples rng = Some (Ok []).
Proof.
  intros [Hn| ->].
  - unfold sampled_possible_groups, sampled_possible_groups_run.
    assert (∀ fuel st, valid_samples st = ∅ →
              sample_loop fuel costs budget num_samples (num_samples * 100) st
              = Some (Ok st)) as Hloop.
    { intros fuel st Hv.
      assert (sampling num_samples (num_samples * 100) st = false) as Hstop.
      { apply sampling_false. rewrite Hv, size_empty. lia. }
      destruct fuel; simpl; by rewrite Hstop. }
    rewrite Hloop by done. simpl. by rewrite elements_empty.
  - destruct (run_spec (λ _, False) [] costs budget num_samples rng)
      as (r & Hr & Hpost).
    { intros shuffled t Hsh Hpack. apply Permutation_nil_r in Hsh as ->. done. }
    unfold sampled_possible_groups. rewrite Hr.
    destruct r as [st|e].
    + destruct Hpost as ((_ & Hgood & _) & _).
      assert (valid_samples st = ∅) as ->; [|by rewrite elements_empty].
      apply set_eq. intros t. split; [by intros ?%Hgood|by intros ?%elem_of_empty].
    + destruct Hpost as (_ & node & Hin & _). by apply elem_of_nil in Hin.
Qed.

Lemma sampled_possible_groups_nothing_witness :
  (5 ≤ 0 ∨ @nil Z = [])
  ∧ sampled_possible_groups (Z.to_nat (5 * 100)) [] example_costs 3 5 example_rng
    = Some (Ok []).
Proof.
  split; [by right|].
  apply (sampled_possible_groups_nothing [] example_costs 3 5 example_rng).
  by right.
Defined.

(** The spreadness score is a number that is not negative, or infinity. *)
Theorem compute_spreadness_nonneg (g : Graph) (group : list Z) (x : Qc) :
  compute_spreadness g group = Fin x → (0 ≤ x)%Qc.
Proof.
  unfold compute_spreadness.
  set (members := filter (λ node, node ∈ nodes g) group).
  case_bool_decide; [intros [= <-]; apply Qcle_refl|].
  rewrite (outer_loop g members (0, 0) (length members) 0) by done.
  rewrite drop_0, add_pair_totals. simpl.
  set (connected := filter (λ p, has_path g p.1 p.2) (pairs members)).
  case_bool_decide as Hc; [done|]. intros [= <-].
  rewrite <- Qc_of_int_0.
  refine (proj1 (Qc_mean_bounds _ _ 0 (0 + foldr Z.add 0 (distance g <$> connected))
                   _ _)); [lia|].
  assert (0 ≤ foldr Z.add 0 (distance g <$> connected)); [|nia].
  clear. induction connected as [|p ps IH]; csimpl; [done|].
  unfold distance at 1. lia.
Qed.

Lemma compute_spreadness_nonneg_witness :
  (0 ≤ q 4 3)%Qc.
Proof.
  apply (compute_spreadness_nonneg star_graph [2; 3; 1] (q 4 3)).
  vm_compute. reflexivity.
Defined.

(** * Graphs built from an edge list *)

Lemma nodes_add_neighbor g u v : nodes (add_neighbor g u v) = nodes g.
Proof.
  unfold nodes, add_neighbor. rewrite <- list_fmap_compose.
  apply list_fmap_ext. intros _ [m ns] _. simpl. by case_bool_decide.
Qed.

Lemma neighbors_add_neighbor g u v m :
  neighbors (add_neighbor g u v) m
  = (λ ns, if bool_decide (m = u)
           then (if bool_decide (v ∈ ns) then ns else ns ++ [v])
           else ns) <$> neighbors g m.
Proof.
  induction g as [|[k ks] g IH]; simpl; [done|].
  destruct (decide (k = u)) as [->|Hku].
  - rewrite (bool_decide_eq_true_2 (u = u)) by done. simpl.
    destruct (decide (u = m)) as [->|Hum].
    + by rewrite !bool_decide_eq_true_2 by done.
    + rewrite !(bool_decide_eq_false_2 (u = m)) by done. exact IH.
  - rewrite (bool_decide_eq_false_2 (k = u)) by done. simpl.
    destruct (decide (k = m)) as [->|Hkm].
    + rewrite !bool_decide_eq_true_2 by done. simpl.
      by rewrite bool_decide_eq_false_2 by done.
    + rewrite !(bool_decide_eq_false_2 (k = m)) by done. exact IH.
Qed.

Lemma neighbors_snoc g n m :
  neighbors (g ++ [(n, [])]) m
  = match neighbors g m with
    | Some ns => Some ns
    | None => if bool_decide (n = m) then Some [] else None
    end.
Proof.
  induction g as [|[k ks] g IH]; simpl; [done|].
  destruct (bool_decide (k = m)); [done|exact IH].
Qed.

Lemma neighbors_add_node g n m :
  neighbors (add_node g n) m
  = match neighbors g m with
    | Some ns => Some ns
    | None => if bool_decide (n = m) then Some [] else None
    end.
Proof.
  unfold add_node. destruct (has_node g n) eqn:Hn; [|apply neighbors_snoc].
  destruct (neighbors g m) as [ns|] eqn:Hm; [done|].
  rewrite bool_decide_eq_false_2; [done|]. intros ->.
  apply has_node_neighbors in Hn as [? ?]. congruence.
Qed.

Lemma nodes_add_node g n :
  nodes (add_node g n) = if has_node g n then nodes g else nodes g ++ [n].
Proof.
  unfold add_node. destruct (has_node g n); [done|].
  unfold nodes. by rewrite fmap_app.
Qed.

Lemma elem_of_nodes_add_node g n m :
  m ∈ nodes (add_node g n) ↔ m ∈ nodes g ∨ m = n.
Proof.
  rewrite nodes_add_node. destruct (has_node g n) eqn:Hn.
  - apply bool_decide_eq_true in Hn. split; [by left|]. by intros [?| ->].
  - rewrite elem_of_app, list_elem_of_singleton. done.
Qed.

Lemma NoDup_nodes_add_node g n : NoDup (nodes g) → NoDup (nodes (add_node g n)).
Proof.
  intros Hnd. rewrite nodes_add_node. destruct (has_node g n) eqn:Hn; [done|].
  apply bool_decide_eq_false in Hn.
  apply NoDup_app. split_and!; [done| |apply NoDup_singleton].
  intros x Hx ->%list_elem_of_singleton. done.
Qed.

(** The neighbour list of [m] after [add_edge g u v]. *)
Lemma neighbors_add_edge g u v m ns' :
  neighbors (add_edge g u v) m = Some ns' →
  ∃ ns0,
    (neighbors g m = Some ns0 ∨ (neighbors g m = None ∧ ns0 = [] ∧ (m = u ∨ m = v)))
    ∧ (NoDup ns0 → NoDup ns')
    ∧ ∀ x, x ∈ ns' ↔ x ∈ ns0 ∨ (m = u ∧ x = v) ∨ (m = v ∧ x = u).
Proof.
  unfold add_edge. rewrite !neighbors_add_neighbor, !neighbors_add_node.
  set (base := match neighbors g m with
               | Some ns => Some ns
               | None => if bool_decide (u = m) then Some [] else None
               end).
  assert ((∃ ns0, match base with
                  | Some ns => Some ns
                  | None => if bool_decide (v = m) then Some [] else None
                  end = Some ns0
                  ∧ (neighbors g m = Some ns0
                     ∨ (neighbors g m = None ∧ ns0 = [] ∧ (m = u ∨ m = v))))
          ∨ match base with
            | Some ns => Some ns
            | None => if bool_decide (v = m) then Some [] else None
            end = None) as [(ns0 & -> & Hns0)|Hnone].
  { subst base. destruct (neighbors g m) as [ns|]; [left; eauto|].
    case_bool_decide; [left; exists []; split; [done|]; right; auto|].
    case_bool_decide; [left; exists []; split; [done|]; right; auto|]. by right. }
  2:{ rewrite Hnone. done. }
  simpl. intros [= <-]. exists ns0. split; [done|].
  assert (∀ (b : bool) (w : Z) (l : list Z),
            let l' := if b then (if bool_decide (w ∈ l) then l else l ++ [w]) else l in
            (NoDup l → NoDup l') ∧ ∀ x, x ∈ l' ↔ x ∈ l ∨ (b = true ∧ x = w)) as Hadd.
  { intros [] w l; simpl.
    - case_bool_decide as Hw.
      + split; [done|]. intros x. split; [by left|]. by intros [?|[_ ->]].
      + split.
        * intros Hnd. apply NoDup_app. split_and!; [done| |apply NoDup_singleton].
          by intros x Hx ->%list_elem_of_singleton.
        * intros x. rewrite elem_of_app, list_elem_of_singleton.
          split; [intros [?|?]; auto|intros [?|[_ ?]]; auto].
    - split; [done|]. intros x. split; [by left|]. by intros [?|[? _]]. }
  destruct (Hadd (bool_decide (m = u)) v ns0) as [Hnd1 Hin1].
  destruct (Hadd (bool_decide (m = v)) u
              (if bool_decide (m = u)
               then if bool_decide (v ∈ ns0) then ns0 else ns0 ++ [v] else ns0))
    as [Hnd2 Hin2].
  split; [auto|].
  intros x. rewrite Hin2, Hin1, !bool_decide_eq_true. tauto.
Qed.

Lemma nodes_add_edge g u v m :
  m ∈ nodes (add_edge g u v) ↔ m ∈ nodes g ∨ m = u ∨ m = v.
Proof.
  unfold add_edge. rewrite !nodes_add_neighbor, !elem_of_nodes_add_node. tauto.
Qed.

Lemma add_edge_built edges g u v :
  built_from edges g → built_from (edges ++ [(u, v)]) (add_edge g u v).
Proof.
  intros (Hnd & Hnodes & Hadj). split_and!.
  - unfold add_edge. rewrite !nodes_add_neighbor.
    by apply NoDup_nodes_add_node, NoDup_nodes_add_node.
  - intros m. rewrite nodes_add_edge, Hnodes. split.
    + intros [(e & He & Hm)|[->| ->]].
      * exists e. split; [apply elem_of_app; by left|done].
      * exists (u, v). split; [apply elem_of_app; right; by apply list_elem_of_singleton|].
        by left.
      * exists (u, v). split; [apply elem_of_app; right; by apply list_elem_of_singleton|].
        by right.
    + intros (e & [He| ->%list_elem_of_singleton]%elem_of_app & Hm).
      * left. eauto.
      * simpl in Hm. destruct Hm as [<-|<-]; auto.
  - intros m ns' Hns'.
    apply neighbors_add_edge in Hns' as (ns0 & Hold & Hnd' & Hin).
    assert (NoDup ns0 ∧ ∀ x, x ∈ ns0 ↔ (m, x) ∈ edges ∨ (x, m) ∈ edges) as [Hnd0 Hin0].
    { destruct Hold as [Hsome|(Hnone & -> & _)]; [by apply Hadj|].
      split; [constructor|]. intros x. split; [by intros ?%elem_of_nil|].
      assert (m ∉ nodes g) as Hm.
      { intros Hm. assert (has_node g m = true) as Hh
          by (unfold has_node; by apply bool_decide_eq_true).
        apply has_node_neighbors in Hh as [? ?]. congruence. }
      intros [He|He]; destruct Hm; apply Hnodes; eexists; (split; [exact He|]); simpl;
        auto. }
    split; [auto|]. intros x.
    rewrite Hin, Hin0, !elem_of_app, !list_elem_of_singleton, !pair_equal_spec. tauto.
Qed.

Lemma from_edgelist_built edges : built_from edges (from_edgelist edges).
Proof.
  induction edges as [|[u v] edges IH] using rev_ind.
  - split_and!; [constructor| |done].
    intros m. split; [by intros ?%elem_of_nil|]. by intros (e & ?%elem_of_nil & _).
  - unfold from_edgelist. rewrite foldl_app. simpl. by apply add_edge_built.
Qed.

(** X23: The graph [read_graph] builds from the rows of the friendship file: its
    nodes are the ids that occur in some row, each once; [v] is among the
    neighbours of [u] exactly when a row joins them (in either direction),
    each neighbour once; and a missing file gives [None]. *)
Theorem read_graph_spec (edges : list (Z * Z)) :
  ∃ g,
    read_graph (Some edges) = Some g
    ∧ NoDup (nodes g)
    ∧ (∀ m, m ∈ nodes g ↔ ∃ e, e ∈ edges ∧ (e.1 = m ∨ e.2 = m))
    ∧ (∀ u ns, neighbors g u = Some ns →
         NoDup ns ∧ ∀ v, v ∈ ns ↔ (u, v) ∈ edges ∨ (v, u) ∈ edges)
    ∧ read_graph None = None.
Proof.
  exists (from_edgelist edges).
  destruct (from_edgelist_built edges) as (? & ? & ?). by split_and!.
Qed.

Lemma built_node_neighbours edges g m :
  built_from edges g → m ∈ nodes g →
  ∃ ns, neighbors g m = Some ns ∧ ns ≠ []
        ∧ Forall (λ v, is_Some (neighbors g v)) ns.
Proof.
  intros (Hnd & Hnodes & Hadj) Hm.
  assert (has_node g m = true) as Hh by (unfold has_node; by apply bool_decide_eq_true).
  apply has_node_neighbors in Hh as [ns Hns].
  destruct (Hadj m ns Hns) as [_ Hin].
  exists ns. split_and!; [done| |].
  - apply Hnodes in Hm as ([a b] & He & [Ha|Hb]); simpl in *; subst.
    + assert (b ∈ ns) as Hb by (apply Hin; by left). intros ->. by apply elem_of_nil in Hb.
    + assert (a ∈ ns) as Ha by (apply Hin; by right). intros ->. by apply elem_of_nil in Ha.
  - apply Forall_forall. intros v Hv. apply has_node_neighbors.
    unfold has_node. apply bool_decide_eq_true, Hnodes.
    apply Hin in Hv as [He|He]; eexists; (split; [exact He|]); simpl; auto.
Qed.

(** X24: A graph read from an edge list is symmetric and has no isolated node:
    [v] is a neighbour of [u] exactly when [u] is a neighbour of [v], and
    every node has at least one neighbour, all of them nodes. *)
Theorem read_graph_symmetric_no_isolated (edges : list (Z * Z)) (g : Graph) :
  read_graph (Some edges) = Some g →
  (∀ u v ns, neighbors g u = Some ns → v ∈ ns →
             ∃ ns', neighbors g v = Some ns' ∧ u ∈ ns')
  ∧ (∀ m, m ∈ nodes g →
          ∃ ns, neighbors g m = Some ns ∧ ns ≠ []
                ∧ Forall (λ v, is_Some (neighbors g v)) ns).
Proof.
  intros [= <-]. pose proof (from_edgelist_built edges) as Hb. split.
  - intros u v ns Hns Hv.
    destruct (built_node_neighbours edges _ u Hb) as (ns0 & Hns0 & _ & Hall).
    { assert (has_node (from_edgelist edges) u = true) as Hh
        by (apply has_node_neighbors; by eexists).
      unfold has_node in Hh. by apply bool_decide_eq_true in Hh. }
    rewrite Hns in Hns0. injection Hns0 as <-.
    rewrite Forall_forall in Hall. destruct (Hall v Hv) as [ns' Hns'].
    exists ns'. split; [done|].
    destruct Hb as (_ & _ & Hadj).
    apply (Hadj v ns' Hns'). apply (Hadj u ns Hns) in Hv. tauto.
  - intros m Hm. by eapply built_node_neighbours.
Qed.

Lemma read_graph_symmetric_no_isolated_witness :
  ∃ ns, neighbors (from_edgelist [(1, 2); (1, 3)]) 3 = Some ns ∧ ns ≠ []
        ∧ Forall (λ v, is_Some (neighbors (from_edgelist [(1, 2); (1, 3)]) v)) ns.
Proof.
  apply (read_graph_symmetric_no_isolated [(1, 2); (1, 3)]
           (from_edgelist [(1, 2); (1, 3)])).
  - reflexivity.
  - compute_done.
Defined.

(** X25: The front of the pipeline composed: on a graph read from an edge list,
    scoring the nodes that [filter_high_degree_nodes] keeps never raises, as
    long as the cost ids are not negative: every node kept is a node of the
    graph and so has a neighbour. *)
Theorem scoring_after_read_graph
    (edges : list (Z * Z)) (g : Graph) (cs : list Z) (h : gmap Z Qc)
    (average p : Qc) :
  read_graph (Some edges) = Some g →
  Forall (λ c, 0 ≤ c) cs →
  ∃ table,
    find_average_influence g h
      (filter_high_degree_nodes (Some g) (Some cs) average) p = Ok table.
Proof.
  intros [= <-] Hcs. pose proof (from_edgelist_built edges) as Hb.
  destruct (find_average_influence_loop (from_edgelist edges) h p
              (filter_high_degree_nodes (Some (from_edgelist edges)) (Some cs) average)
              [] []) as (table & Hrun & _).
  - unfold filter_high_degree_nodes. rewrite filter_high_degree_loop. simpl.
    apply Forall_forall. intros u [[Hn%Is_true_true _] Hu]%list_elem_of_filter.
    rewrite Forall_forall in Hcs. split; [by apply Hcs|].
    apply (built_node_neighbours edges); [done|].
    unfold has_node in Hn. by apply bool_decide_eq_true in Hn.
  - intros u Hin. by apply elem_of_nil in Hin.
  - intros j Hj. simpl in Hj. lia.
  - intros j Hj. simpl in Hj. lia.
  - by exists table.
Qed.

Lemma scoring_after_read_graph_witness :
  ∃ table,
    find_average_influence (from_edgelist [(1, 2); (1, 3)]) ∅
      (filter_high_degree_nodes (Some (from_edgelist [(1, 2); (1, 3)]))
         (Some [1; 2; 8]) (q 3 2)) P_BASE = Ok table.
Proof.
  apply (scoring_after_read_graph [(1, 2); (1, 3)] (from_edgelist [(1, 2); (1, 3)])
           [1; 2; 8] ∅ (q 3 2) P_BASE).
  - reflexivity.
  - repeat constructor; lia.
Defined.

(** * Properties of the validators and of the loaders *)

Section csv_facts.

Variable parse_int : string → option Z.
Variable parse_float : string → option Qc.
Variable show_int : Z → string.

Lemma read_influencer_rows_spec rows costs haters sel seen total sel' total' :
  read_influencer_rows parse_int rows costs haters sel seen total = Some (sel', total')
  ↔ ∃ cells l,
      rows = (λ c, [c]) <$> cells
      ∧ Forall2 (λ c x, parse_int c = Some x) cells l
      ∧ sel' = sel ++ l
      ∧ total' = foldl (λ t x, F64.add t (default F64.zero (costs !! x))) total l
      ∧ NoDup l ∧ (∀ x, x ∈ l → x ∉ seen)
      ∧ Forall (selectable costs haters) l.
Proof.
  revert sel seen total sel' total'.
  induction rows as [|row rows IH]; intros sel seen total sel' total'; simpl.
  - split.
    + intros [= <- <-]. exists [], []. split_and!; try done.
      * by rewrite app_nil_r.
      * constructor.
      * by intros x ?%elem_of_nil.
    + intros (cells & l & Hrows & Hparse & -> & -> & _).
      destruct cells; [|done]. apply Forall2_nil_inv_l in Hparse as ->.
      by rewrite app_nil_r.
  - split.
    + destruct row as [|cell [|? ?]]; [done| |done].
      destruct (parse_int cell) as [u|] eqn:Hu; [|done].
      case_bool_decide as Hc; [done|]. case_bool_decide as Hh; [done|].
      case_bool_decide as Hs; [done|].
      intros (cells & l & -> & Hparse & -> & -> & Hnd & Hseen & Hall)%IH.
      exists (cell :: cells), (u :: l). split_and!.
      * done.
      * by constructor.
      * by rewrite <- app_assoc.
      * done.
      * constructor; [|done]. intros Hin. apply (Hseen u Hin).
        apply elem_of_union. left. by apply elem_of_singleton.
      * intros x [->|Hx]%elem_of_cons; [done|].
        intros Hin. apply (Hseen x Hx). apply elem_of_union. by right.
      * constructor; [|done]. split.
        -- by destruct (costs !! u).
        -- destruct (haters !! u) eqn:E; [|done]. destruct Hh. by eexists.
    + intros (cells & l & Hrows & Hparse & -> & -> & Hnd & Hseen & Hall).
      destruct cells as [|cell cells]; [done|]. injection Hrows as -> ->.
      apply Forall2_cons_inv_l in Hparse as (u & l' & Hu & Hparse & ->).
      rewrite Hu. apply NoDup_cons in Hnd as [Hu' Hnd].
      apply Forall_cons in Hall as [[[c Hc] Hh] Hall].
      rewrite bool_decide_eq_false_2 by congruence.
      rewrite bool_decide_eq_false_2 by (rewrite Hh; by intros [? ?]).
      rewrite bool_decide_eq_false_2 by (apply Hseen; by left).
      apply IH. exists cells, l'. split_and!; try done.
      * by rewrite <- app_assoc.
      * intros x Hx [->%elem_of_singleton|Hin]%elem_of_union; [done|].
        by apply (Hseen x); [right|].
Qed.

(** X26: [read_influencers_from_csv] returns a list exactly when the file has the
    header [user_id] and one parsable id per row, the ids are pairwise
    distinct, each has a cost and none is a hater, and the running binary64
    sum of their costs, added in file order, is not above [BUDGET]; the list
    returned then holds the ids in file order. *)
Theorem read_influencers_from_csv_spec
    (file : option (list (list string))) (costs : gmap Z F64.float)
    (haters : gmap Z Qc) (l : list Z) :
  read_influencers_from_csv parse_int file costs haters = Some l
  ↔ ∃ cells,
      file = Some (["user_id"] :: ((λ c, [c]) <$> cells))
      ∧ Forall2 (λ c x, parse_int c = Some x) cells l
      ∧ NoDup l
      ∧ Forall (λ x, is_Some (costs !! x) ∧ haters !! x = None) l
      ∧ F64.gt_int (total_cost costs l) BUDGET = false.
Proof.
  unfold read_influencers_from_csv. split.
  - destruct file as [[|header rows]|]; [done| |done].
    case_bool_decide as Hh; [done|].
    destruct (read_influencer_rows _ _ _ _ _ _ _) as [[sel total]|] eqn:Hrun; [|done].
    destruct (F64.gt_int total BUDGET) eqn:Hb; [done|]. intros [= ->].
    apply read_influencer_rows_spec in Hrun
      as (cells & l' & -> & Hparse & -> & -> & Hnd & _ & Hall).
    exists cells. split_and!; try done.
    f_equal. f_equal. by destruct (decide (header = ["user_id"])).
  - intros (cells & -> & Hparse & Hnd & Hall & Hb).
    rewrite bool_decide_eq_false_2 by (by intros []).
    assert (read_influencer_rows parse_int ((λ c, [c]) <$> cells) costs haters [] ∅
              F64.zero
            = Some (l, total_cost costs l)) as ->.
    { apply read_influencer_rows_spec. exists cells, l.
      split_and!; try done; by intros x _ ?%elem_of_empty. }
    by rewrite Hb.
Qed.

Lemma submit_check_spec l costs haters seen total total' :
  submit_check l costs haters seen total = Some total'
  ↔ total' = foldl (λ t x, F64.add t (default F64.zero (costs !! x))) total l
    ∧ NoDup l ∧ (∀ x, x ∈ l → x ∉ seen)
    ∧ Forall (selectable costs haters) l.
Proof.
  revert seen total total'. induction l as [|u l IH]; intros seen total total'; simpl.
  - split.
    + intros [= <-]. split_and!; try done.
      * constructor.
      * by intros x ?%elem_of_nil.
    + by intros (-> & _).
  - split.
    + destruct (costs !! u) as [c|] eqn:Hc; [|done].
      case_bool_decide as Hh; [done|]. case_bool_decide as Hs; [done|].
      intros (-> & Hnd & Hseen & Hall)%IH. split_and!.
      * done.
      * constructor; [|done]. intros Hin. apply (Hseen u Hin).
        apply elem_of_union. left. by apply elem_of_singleton.
      * intros x [->|Hx]%elem_of_cons; [done|].
        intros Hin. apply (Hseen x Hx). apply elem_of_union. by right.
      * constructor; [|done]. split; [by rewrite Hc|].
        destruct (haters !! u) eqn:E; [|done]. destruct Hh. by eexists.
    + intros (-> & Hnd & Hseen & Hall).
      apply NoDup_cons in Hnd as [Hu' Hnd].
      apply Forall_cons in Hall as [[[c Hc] Hh] Hall].
      rewrite Hc.
      rewrite bool_decide_eq_false_2 by (rewrite Hh; by intros [? ?]).
      rewrite bool_decide_eq_false_2 by (apply Hseen; by left).
      apply IH. split_and!; try done.
      intros x Hx [->%elem_of_singleton|Hin]%elem_of_union; [done|].
      by apply (Hseen x); [right|].
Qed.

(** X27: [submit_influencers] writes the file (returns [True]) exactly when both
    student ids are non-empty, the ids of the list are pairwise distinct,
    each has a cost and none is a hater, and the running binary64 sum of
    their costs, added in the order of the list, is not above [BUDGET].  The
    file is named [id1_id2.csv] unless a name is given and holds the header
    and then the ids in ascending order. *)
Theorem submit_influencers_spec
    (l : list Z) (id1 id2 : string) (costs : gmap Z F64.float) (haters : gmap Z Qc)
    (filename : option string) (name : string) (content : list (list string)) :
  submit_influencers show_int l id1 id2 costs haters filename = Some (name, content)
  ↔ id1 ≠ EmptyString ∧ id2 ≠ EmptyString
    ∧ NoDup l
    ∧ Forall (λ x, is_Some (costs !! x) ∧ haters !! x = None) l
    ∧ F64.gt_int (total_cost costs l) BUDGET = false
    ∧ name = default (id1 +:+ "_" +:+ id2 +:+ ".csv") filename
    ∧ ∃ ids, ids ≡ₚ l ∧ Sorted Z.le ids
             ∧ content = ["user_id"] :: ((λ x, [show_int x]) <$> ids).
Proof.
  unfold submit_influencers. split.
  - case_bool_decide as Hid; [done|].
    destruct (submit_check l costs haters ∅ F64.zero) as [total|] eqn:Hrun; [|done].
    destruct (F64.gt_int total BUDGET) eqn:Hb; [done|]. intros [= <- <-].
    apply submit_check_spec in Hrun as (-> & Hnd & _ & Hall).
    split; [intros ->; apply Hid; by left|].
    split; [intros ->; apply Hid; by right|].
    split; [done|]. split; [done|].
    split; [done|].
    split; [by destruct filename|].
    exists (sorted l). split_and!; [apply sorted_perm| |done].
    apply Sorted_merge_sort. apply _.
  - intros (Hid1 & Hid2 & Hnd & Hall & Hb & -> & ids & Hperm & Hsorted & ->).
    rewrite bool_decide_eq_false_2 by (by intros [?|?]).
    assert (submit_check l costs haters ∅ F64.zero = Some (total_cost costs l)) as ->.
    { apply submit_check_spec. split_and!; try done; by intros x _ ?%elem_of_empty. }
    rewrite Hb.
    assert (sorted l = ids) as ->.
    { apply (Sorted_unique Z.le); [apply Sorted_merge_sort; apply _|done|].
      by rewrite sorted_perm. }
    by destruct filename.
Qed.

(** X28: What the reader accepts the writer accepts: a list returned by
    [read_influencers_from_csv] passes the validation of
    [submit_influencers] (given two non-empty student ids), which writes its
    ids in ascending order. *)
Theorem read_then_submit
    (file : option (list (list string))) (costs : gmap Z F64.float)
    (haters : gmap Z Qc) (l : list Z)
    (id1 id2 : string) (filename : option string) :
  read_influencers_from_csv parse_int file costs haters = Some l →
  id1 ≠ EmptyString → id2 ≠ EmptyString →
  submit_influencers show_int l id1 id2 costs haters filename
  = Some (default (id1 +:+ "_" +:+ id2 +:+ ".csv") filename,
          ["user_id"] :: ((λ x, [show_int x]) <$> sorted l)).
Proof.
  unfold read_influencers_from_csv, submit_influencers. intros Hread Hid1 Hid2.
  destruct file as [[|header rows]|]; [done| |done].
  case_bool_decide as Hh; [done|].
  destruct (read_influencer_rows _ _ _ _ _ _ _) as [[sel total]|] eqn:Hrun; [|done].
  destruct (F64.gt_int total BUDGET) eqn:Hb; [done|]. injection Hread as ->.
  apply read_influencer_rows_spec in Hrun
    as (cells & l' & -> & Hparse & -> & -> & Hnd & _ & Hall).
  simpl in *.
  rewrite bool_decide_eq_false_2 by (by intros [?|?]).
  assert (submit_check l' costs haters ∅ F64.zero = Some (total_cost costs l')) as ->.
  { apply submit_check_spec. split_and!; try done; by intros x _ ?%elem_of_empty. }
  unfold total_cost. rewrite Hb. by destruct filename.
Qed.

(** X29: Reading back what was written.  When [int] reads back what [str]
    wrote for the ids of the list, [read_influencers_from_csv] finds in the
    file that [submit_influencers] wrote the ids in ascending order, and adds
    their costs in that order: it returns them unless that running binary64
    sum is above [BUDGET] (the writer added the costs in the order of the
    list, which may round otherwise).  A list that was ascending when it was
    submitted is read back as it was. *)
Theorem submit_then_read
    (l : list Z) (id1 id2 : string) (costs : gmap Z F64.float) (haters : gmap Z Qc)
    (filename : option string) (name : string) (content : list (list string)) :
  submit_influencers show_int l id1 id2 costs haters filename = Some (name, content) →
  (∀ x, x ∈ l → parse_int (show_int x) = Some x) →
  read_influencers_from_csv parse_int (Some content) costs haters
  = (if F64.gt_int (total_cost costs (sorted l)) BUDGET then None
     else Some (sorted l))
  ∧ (Sorted Z.le l →
     read_influencers_from_csv parse_int (Some content) costs haters = Some l).
Proof.
  unfold read_influencers_from_csv, submit_influencers. intros Hsub Hround.
  case_bool_decide as Hid; [done|].
  destruct (submit_check l costs haters ∅ F64.zero) as [total|] eqn:Hrun; [|done].
  destruct (F64.gt_int total BUDGET) eqn:Hb; [done|]. injection Hsub as <- <-.
  apply submit_check_spec in Hrun as (-> & Hnd & _ & Hall).
  rewrite bool_decide_eq_false_2 by (by intros []).
  assert (read_influencer_rows parse_int
            ((λ x, [show_int x]) <$> sorted l) costs haters [] ∅ F64.zero
          = Some (sorted l, total_cost costs (sorted l))) as ->.
  { apply read_influencer_rows_spec. exists (show_int <$> sorted l), (sorted l).
    split_and!.
    - by rewrite <- list_fmap_compose.
    - apply Forall2_fmap_l, Forall_Forall2_diag, Forall_forall.
      intros x Hx. apply Hround. by rewrite <- (sorted_perm l).
    - done.
    - done.
    - by rewrite sorted_perm.
    - by intros x _ ?%elem_of_empty.
    - by rewrite sorted_perm. }
  split; [done|]. intros Hsorted.
  assert (sorted l = l) as ->.
  { apply (Sorted_unique Z.le); [apply Sorted_merge_sort; apply _|done|].
    apply sorted_perm. }
  unfold total_cost. by rewrite Hb.
Qed.

Lemma read_id_value_rows_spec rows table m :
  read_id_value_rows parse_int parse_float rows table = Some m
  ↔ ∃ pairs,
      Forall2 (row_parses parse_int parse_float) rows pairs
      ∧ m = foldl (λ t kv, <[kv.1 := kv.2]> t) table pairs.
Proof.
  revert table. induction rows as [|row rows IH]; intros table; simpl.
  - split.
    + intros [= <-]. exists []. split; [constructor|done].
    + intros (pairs & ->%Forall2_nil_inv_l & ->). done.
  - split.
    + destruct row as [|c0 [|c1 rest]]; [done..|].
      destruct (parse_int c0) as [k|] eqn:Hk; [|done].
      destruct (parse_float c1) as [v|] eqn:Hv; [|done].
      intros (pairs & Hrows & ->)%IH. exists ((k, v) :: pairs). split; [|done].
      constructor; [|done]. by exists c0, c1, rest.
    + intros (pairs & Hrows & ->).
      apply Forall2_cons_inv_l in Hrows
        as (kv & pairs' & (c0 & c1 & rest & -> & Hk & Hv) & Hrows & ->).
      rewrite Hk, Hv. apply IH. by exists pairs'.
Qed.

Lemma foldl_insert_lookup (pairs : list (Z * Qc)) (table : gmap Z Qc) (k : Z) :
  foldl (λ t kv, <[kv.1 := kv.2]> t) table pairs !! k
  = match last_value pairs k with
    | Some v => Some v
    | None => table !! k
    end.
Proof.
  revert table. induction pairs as [|[k' v] pairs IH]; intros table; simpl; [done|].
  rewrite IH. destruct (last_value pairs k); [done|].
  case_bool_decide as Hk.
  - subst. by rewrite lookup_insert_eq.
  - by rewrite lookup_insert_ne.
Qed.

(** X30: [read_haters] and [read_costs] return a table exactly when the file has a
    header row (which is skipped, whatever it says) and every other row
    starts with an int and a float; a row that does not, anywhere in the
    file, makes the whole load return [None].  In the table an id maps to the
    value of the last row that names it. *)
Theorem read_haters_spec (file : option (list (list string))) (m : gmap Z Qc) :
  (read_haters parse_int parse_float file = Some m
   ↔ ∃ header rows pairs,
       file = Some (header :: rows)
       ∧ Forall2 (row_parses parse_int parse_float) rows pairs
       ∧ ∀ k, m !! k = last_value pairs k)
  ∧ read_costs parse_int parse_float file = read_haters parse_int parse_float file.
Proof.
  split; [|done]. unfold read_haters. split.
  - destruct file as [[|header rows]|]; [done| |done].
    intros (pairs & Hrows & ->)%read_id_value_rows_spec.
    exists header, rows, pairs. split_and!; [done..|].
    intros k. rewrite foldl_insert_lookup. by destruct (last_value pairs k).
  - intros (header & rows & pairs & -> & Hrows & Hm).
    apply read_id_value_rows_spec. exists pairs. split; [done|].
    apply map_eq. intros k. rewrite Hm, foldl_insert_lookup.
    by destruct (last_value pairs k).
Qed.

End csv_facts.

Lemma read_then_submit_witness :
  submit_influencers show_small [3; 1] "a" "b" example_costs ∅ None
  = Some (default ("a" +:+ "_" +:+ "b" +:+ ".csv") None,
          ["user_id"] :: ((λ x, [show_small x]) <$> sorted [3; 1])).
Proof.
  apply (read_then_submit parse_small show_small
           (Some [["user_id"]; ["3"]; ["1"]]) example_costs ∅ [3; 1] "a" "b" None).
  - vm_compute. reflexivity.
  - done.
  - done.
Defined.

Lemma submit_then_read_witness :
  read_influencers_from_csv parse_small
    (Some [["user_id"]; ["1"]; ["3"]]) example_costs ∅
  = (if F64.gt_int (total_cost example_costs (sorted [3; 1])) BUDGET then None
     else Some (sorted [3; 1])).
Proof.
  apply (submit_then_read parse_small show_small [3; 1] "a" "b" example_costs ∅ None
           "a_b.csv" [["user_id"]; ["1"]; ["3"]]).
  - vm_compute. reflexivity.
  - intros x [->|[->|[]%elem_of_nil]%elem_of_cons]%elem_of_cons; reflexivity.
Defined.

(** The writer and the reader can disagree on the same ids: with the costs
    1251.4, 103.4 and 145.2 the list [[3; 2; 1]] adds up to [1500.0] and is
    written, as the rows 1, 2, 3; read back in that order the costs add up
    to a float above 1500 and the file is refused. *)
Example submit_then_read_refused :
  submit_influencers show_small [3; 2; 1] "a" "b" tight_costs ∅ None
  = Some ("a_b.csv", [["user_id"]; ["1"]; ["2"]; ["3"]])
  ∧ read_influencers_from_csv parse_small
      (Some [["user_id"]; ["1"]; ["2"]; ["3"]]) tight_costs ∅ = None
  ∧ submit_influencers show_small [1; 2; 3] "a" "b" tight_costs ∅ None = None.
Proof. split_and!; vm_compute; reflexivity. Qed.

(** Two rows for the same id: the later one is kept. *)
Example read_haters_last_row_wins :
  read_haters parse_small parse_float_small
    (Some [["user_id"; "weight"]; ["2"; "0.5"]; ["3"; "0.5"]; ["2"; "1.0"]])
  = Some (<[2 := 1%Qc]> (<[3 := q 1 2]> (<[2 := q 1 2]> ∅))).
Proof. reflexivity. Qed.
